(** * Verification of the provider fetcher, the configuration parser,
      the control-plane authentication and the DNS clients

    The development embeds the Go sources shallowly: pure helpers become
    functions, code with side effects threads an explicit world (file tree,
    call log), and fallible code returns [option error] or a sum. *)

From Stdlib Require Import ZArith Ascii String List Lia Bool.
From Stdlib Require Import Init.Byte.
From stdpp Require Import base option list gmap strings.

Local Open Scope Z_scope.

(** ** crypto/md5

    [md5.Sum] as the fetcher uses it (RFC 1321), on lists of bytes.  Words
    are 32-bit integers carried in [Z]; every addition wraps modulo 2^32. *)
Module md5.

Definition mask32 (x : Z) : Z := Z.land x 0xFFFFFFFF.

Definition rotl32 (x s : Z) : Z :=
  mask32 (Z.lor (Z.shiftl x s) (Z.shiftr x (32 - s))).

Definition not32 (x : Z) : Z := Z.lxor x 0xFFFFFFFF.

Definition K : list Z :=
  [ 0xd76aa478; 0xe8c7b756; 0x242070db; 0xc1bdceee; 0xf57c0faf; 0x4787c62a;
    0xa8304613; 0xfd469501; 0x698098d8; 0x8b44f7af; 0xffff5bb1; 0x895cd7be;
    0x6b901122; 0xfd987193; 0xa679438e; 0x49b40821; 0xf61e2562; 0xc040b340;
    0x265e5a51; 0xe9b6c7aa; 0xd62f105d; 0x02441453; 0xd8a1e681; 0xe7d3fbc8;
    0x21e1cde6; 0xc33707d6; 0xf4d50d87; 0x455a14ed; 0xa9e3e905; 0xfcefa3f8;
    0x676f02d9; 0x8d2a4c8a; 0xfffa3942; 0x8771f681; 0x6d9d6122; 0xfde5380c;
    0xa4beea44; 0x4bdecfa9; 0xf6bb4b60; 0xbebfbc70; 0x289b7ec6; 0xeaa127fa;
    0xd4ef3085; 0x04881d05; 0xd9d4d039; 0xe6db99e5; 0x1fa27cf8; 0xc4ac5665;
    0xf4292244; 0x432aff97; 0xab9423a7; 0xfc93a039; 0x655b59c3; 0x8f0ccc92;
    0xffeff47d; 0x85845dd1; 0x6fa87e4f; 0xfe2ce6e0; 0xa3014314; 0x4e0811a1;
    0xf7537e82; 0xbd3af235; 0x2ad7d2bb; 0xeb86d391 ].

Definition shifts : list Z :=
  [ 7; 12; 17; 22; 7; 12; 17; 22; 7; 12; 17; 22; 7; 12; 17; 22;
    5; 9; 14; 20; 5; 9; 14; 20; 5; 9; 14; 20; 5; 9; 14; 20;
    4; 11; 16; 23; 4; 11; 16; 23; 4; 11; 16; 23; 4; 11; 16; 23;
    6; 10; 15; 21; 6; 10; 15; 21; 6; 10; 15; 21; 6; 10; 15; 21 ].

Definition byte_to_Z (b : byte) : Z := Z.of_N (Byte.to_N b).

Definition byte_of_Z (z : Z) : byte :=
  match Byte.of_N (Z.to_N (Z.land z 0xFF)) with
  | Some b => b
  | None => x00
  end.

(** Little-endian encoding of the low [n] bytes of [z]. *)
Fixpoint le_bytes (n : nat) (z : Z) : list byte :=
  match n with
  | O => []
  | S n' => byte_of_Z z :: le_bytes n' (Z.shiftr z 8)
  end.

Fixpoint le_word (bs : list byte) : Z :=
  match bs with
  | [] => 0
  | b :: bs' => Z.lor (byte_to_Z b) (Z.shiftl (le_word bs') 8)
  end.

(** The message followed by 0x80, zeros up to 56 modulo 64, and the length
    in bits as eight little-endian bytes. *)
Definition pad (msg : list byte) : list byte :=
  let len := Z.of_nat (length msg) in
  let zeros := Z.to_nat ((55 - len) mod 64) in
  msg ++ x80 :: repeat x00 zeros ++ le_bytes 8 (Z.land (8 * len) 0xFFFFFFFFFFFFFFFF).

Fixpoint words (n : nat) (bs : list byte) : list Z :=
  match n with
  | O => []
  | S n' => le_word (firstn 4 bs) :: words n' (skipn 4 bs)
  end.

Record digest := Digest { dA : Z; dB : Z; dC : Z; dD : Z }.

Definition init : digest :=
  Digest 0x67452301 0xefcdab89 0x98badcfe 0x10325476.

Definition step (M : list Z) (d : digest) (i : Z) : digest :=
  let '(Digest a b c dd) := d in
  let '(f, g) :=
    if i <? 16 then (Z.lor (Z.land b c) (Z.land (not32 b) dd), i)
    else if i <? 32 then (Z.lor (Z.land dd b) (Z.land (not32 dd) c), (5 * i + 1) mod 16)
    else if i <? 48 then (Z.lxor (Z.lxor b c) dd, (3 * i + 5) mod 16)
    else (Z.lxor c (Z.lor b (not32 dd)), (7 * i) mod 16) in
  let f' := mask32 (f + a + nth (Z.to_nat i) K 0 + nth (Z.to_nat g) M 0) in
  Digest dd (mask32 (b + rotl32 f' (nth (Z.to_nat i) shifts 0))) b c.

Definition block (d : digest) (bs : list byte) : digest :=
  let M := words 16 bs in
  let d' := fold_left (step M) (map Z.of_nat (seq 0 64)) d in
  Digest (mask32 (dA d + dA d')) (mask32 (dB d + dB d'))
         (mask32 (dC d + dC d')) (mask32 (dD d + dD d')).

Fixpoint blocks (n : nat) (d : digest) (bs : list byte) : digest :=
  match n with
  | O => d
  | S n' => blocks n' (block d (firstn 64 bs)) (skipn 64 bs)
  end.

(** [md5.Sum(data)]: the 16-byte checksum. *)
Definition Sum (data : list byte) : list byte :=
  let p := pad data in
  let d := blocks (Nat.div (length p) 64) init p in
  le_bytes 4 (dA d) ++ le_bytes 4 (dB d) ++ le_bytes 4 (dC d) ++ le_bytes 4 (dD d).

Definition hex_digit (n : Z) : ascii :=
  ascii_of_nat (Z.to_nat (if n <? 10 then 48 + n else 87 + n)).

Fixpoint hex (bs : list byte) : string :=
  match bs with
  | [] => EmptyString
  | b :: bs' =>
      String (hex_digit (Z.shiftr (byte_to_Z b) 4))
        (String (hex_digit (Z.land (byte_to_Z b) 15)) (hex bs'))
  end.

End md5.

(** Byte strings written as text. *)
Definition bytes_of (s : string) : list byte := list_byte_of_string s.

(** ** strings and path/filepath

    The helpers of Go's standard library that the sources call, on
    [string] (a sequence of 8-bit characters, as Go's strings are byte
    sequences).  The path separator is the slash. *)
Module Strings.

Local Open Scope string_scope.

(** [strings.HasPrefix] and [strings.CutPrefix]. *)
Fixpoint CutPrefix (s prefix : string) : string * bool :=
  match prefix, s with
  | EmptyString, _ => (s, true)
  | String p prefix', String c s' =>
      if Ascii.eqb p c then
        (let '(after, found) := CutPrefix s' prefix' in
         if found then (after, true) else (s, false))
      else (s, false)
  | String _ _, EmptyString => (s, false)
  end.

(** [strings.Split(s, sep)] for a one-character separator: the pieces
    between separators, empty pieces included; one piece for the empty
    string. *)
Fixpoint Split (s : string) (sep : ascii) : list string :=
  match s with
  | EmptyString => [EmptyString]
  | String c s' =>
      if Ascii.eqb c sep then EmptyString :: Split s' sep
      else match Split s' sep with
           | piece :: rest => String c piece :: rest
           | [] => [String c EmptyString]
           end
  end.

Fixpoint Join (elems : list string) (sep : string) : string :=
  match elems with
  | [] => ""
  | [e] => e
  | e :: rest => e ++ sep ++ Join rest sep
  end.

(** [strings.Cut(s, sep)] for a one-character separator. *)
Fixpoint Cut (s : string) (sep : ascii) : string * string * bool :=
  match s with
  | EmptyString => (EmptyString, EmptyString, false)
  | String c s' =>
      if Ascii.eqb c sep then (EmptyString, s', true)
      else let '(before, after, found) := Cut s' sep in
           if found then (String c before, after, true)
           else (String c s', EmptyString, false)
  end.

Definition lower (c : ascii) : ascii :=
  let n := nat_of_ascii c in
  if (65 <=? n)%nat && (n <=? 90)%nat then ascii_of_nat (n + 32) else c.

Definition upper (c : ascii) : ascii :=
  let n := nat_of_ascii c in
  if (97 <=? n)%nat && (n <=? 122)%nat then ascii_of_nat (n - 32) else c.

Fixpoint map_string (f : ascii -> ascii) (s : string) : string :=
  match s with
  | EmptyString => EmptyString
  | String c s' => String (f c) (map_string f s')
  end.

(** No byte of the text is [utf8.RuneSelf] or above. *)
Fixpoint isASCII (s : string) : bool :=
  match s with
  | EmptyString => true
  | String c s' => (nat_of_ascii c <? 128)%nat && isASCII s'
  end.

(** [strings.ToLower] and [strings.ToUpper].  A text of ASCII bytes has
    its letters mapped byte by byte.  Any other text goes through
    [strings.Map] with [unicode.ToLower] or [unicode.ToUpper], which
    decodes the text, looks every letter up in the case tables of the
    package unicode and encodes the result; that is [mapped]. *)
Definition ToLower (mapped : string -> string) (s : string) : string :=
  if isASCII s then map_string lower s else mapped s.

Definition ToUpper (mapped : string -> string) (s : string) : string :=
  if isASCII s then map_string upper s else mapped s.

(** White space as [unicode.IsSpace] has it, by the bytes of its UTF-8
    form.  One byte: tab, line feed, vertical tab, form feed, carriage
    return and the blank. *)
Definition is_space (c : ascii) : bool :=
  let n := nat_of_ascii c in
  (n =? 9)%nat || (n =? 10)%nat || (n =? 11)%nat || (n =? 12)%nat
  || (n =? 13)%nat || (n =? 32)%nat.

(** Two bytes: U+0085 and U+00A0. *)
Definition is_space2 (c0 c1 : ascii) : bool :=
  let a := nat_of_ascii c0 in
  let b := nat_of_ascii c1 in
  (a =? 194)%nat && ((b =? 133)%nat || (b =? 160)%nat).

(** Three bytes: U+1680, U+2000 to U+200A, U+2028, U+2029, U+202F, U+205F
    and U+3000. *)
Definition is_space3 (c0 c1 c2 : ascii) : bool :=
  let a := nat_of_ascii c0 in
  let b := nat_of_ascii c1 in
  let c := nat_of_ascii c2 in
  ((a =? 225)%nat && (b =? 154)%nat && (c =? 128)%nat)
  || ((a =? 226)%nat && (b =? 128)%nat
      && (((128 <=? c)%nat && (c <=? 138)%nat) || (c =? 168)%nat || (c =? 169)%nat
          || (c =? 175)%nat))
  || ((a =? 226)%nat && (b =? 129)%nat && (c =? 159)%nat)
  || ((a =? 227)%nat && (b =? 128)%nat && (c =? 128)%nat).

(** [strings.TrimLeftFunc(s, unicode.IsSpace)]: the white-space characters
    at the start are dropped one by one.  A byte that starts no white-space
    character, well-formed or not, ends the run. *)
Fixpoint TrimLeft (s : string) : string :=
  match s with
  | String c0 s1 =>
      if is_space c0 then TrimLeft s1
      else
        match s1 with
        | String c1 s2 =>
            if is_space2 c0 c1 then TrimLeft s2
            else
              match s2 with
              | String c2 s3 => if is_space3 c0 c1 c2 then TrimLeft s3 else s
              | EmptyString => s
              end
        | EmptyString => s
        end
  | EmptyString => EmptyString
  end.

Fixpoint rev_onto (s acc : string) : string :=
  match s with
  | EmptyString => acc
  | String c s' => rev_onto s' (String c acc)
  end.

(** The text read from its end. *)
Definition reversed (s : string) : string := rev_onto s EmptyString.

(** [TrimLeft] on a text read from its end: the white-space characters
    are met last byte first. *)
Fixpoint TrimLeft_reversed (r : string) : string :=
  match r with
  | String c0 r1 =>
      if is_space c0 then TrimLeft_reversed r1
      else
        match r1 with
        | String c1 r2 =>
            if is_space2 c1 c0 then TrimLeft_reversed r2
            else
              match r2 with
              | String c2 r3 =>
                  if is_space3 c2 c1 c0 then TrimLeft_reversed r3 else r
              | EmptyString => r
              end
        | EmptyString => r
        end
  | EmptyString => EmptyString
  end.

(** [strings.TrimRightFunc(s, unicode.IsSpace)]: the white-space
    characters at the end are dropped one by one. *)
Definition TrimRight (s : string) : string :=
  reversed (TrimLeft_reversed (reversed s)).

(** [strings.TrimSpace]: its scan over ASCII bytes and its fall back on
    [TrimFunc] with [unicode.IsSpace] drop the same characters, first at
    the start and then at the end of what is left. *)
Definition TrimSpace (s : string) : string := TrimRight (TrimLeft s).

(** [strings.ReplaceAll] of one character by another. *)
Definition ReplaceAll (s : string) (old new : ascii) : string :=
  map_string (fun c => if Ascii.eqb c old then new else c) s.

Definition HasPrefix (s prefix : string) : bool := snd (CutPrefix s prefix).

Definition HasSuffix (s suffix : string) : bool :=
  let n := String.length s in
  let k := String.length suffix in
  (k <=? n)%nat && String.eqb (substring (n - k) k s) suffix.

(** [strings.ContainsRune] for a one-byte character. *)
Fixpoint Contains (s : string) (c : ascii) : bool :=
  match s with
  | EmptyString => false
  | String x s' => Ascii.eqb x c || Contains s' c
  end.

(** [lo.Uniq]: the first occurrence of each element, in order. *)
Fixpoint Uniq (l : list string) : list string :=
  match l with
  | [] => []
  | x :: l' => x :: List.filter (fun y => negb (String.eqb x y)) (Uniq l')
  end.

End Strings.

Module filepath.

Local Open Scope string_scope.

Definition Separator : ascii := "/"%char.

(** One lexical step of [Clean] over the stack of kept components (the
    last kept one first). *)
Definition clean_step (rooted : bool) (stack : list string) (c : string) : list string :=
  if String.eqb c "" || String.eqb c "." then stack
  else if String.eqb c ".." then
    match stack with
    | top :: below =>
        if String.eqb top ".." then c :: stack else below
    | [] => if rooted then [] else [c]
    end
  else c :: stack.

(** [filepath.Clean]: the shortest equivalent path by lexical processing. *)
Definition Clean (path : string) : string :=
  match path with
  | EmptyString => "."
  | String c0 _ =>
      let rooted := Ascii.eqb c0 Separator in
      let kept := rev (fold_left (clean_step rooted) (Strings.Split path Separator) []) in
      let out := Strings.Join kept "/" in
      if rooted then "/" ++ out
      else if String.eqb out "" then "." else out
  end.

(** The text up to and including the last separator. *)
Fixpoint upto_last_sep (path : string) : string :=
  match path with
  | EmptyString => EmptyString
  | String c rest =>
      let r := upto_last_sep rest in
      if String.eqb r "" then
        (if Ascii.eqb c Separator then String c EmptyString else EmptyString)
      else String c r
  end.

(** [filepath.Dir]: all but the last element of the path, cleaned. *)
Definition Dir (path : string) : string := Clean (upto_last_sep path).

End filepath.

(** ** Errors and results

    Go's [error] values that the sources name or test for, and the result
    pair [(value, error)] of a fallible call. *)
Module Go.

Inductive error :=
| ErrNotExist
| ErrExist
| ErrNotDir
| ErrIsDir
| ErrEscapes
| ErrNoSpace
| ErrIPNotFound
| ErrIPVersion
| ErrIPv6Disabled
| ErrMsg (msg : string)
(** [fmt.Errorf] with an index, with a name, and wrapping a cause *)
| ErrAt (what : string) (idx : nat)
| ErrFor (what : string) (name : string)
| ErrWrap (outer cause : error).

(** Exactly one side of the pair is meaningful. *)
Inductive result (A : Type) :=
| Ok (a : A)
| Err (e : error).
Arguments Ok {A} a.
Arguments Err {A} e.

End Go.

(** ** The operating system as the fetcher sees it

    A file tree below the home directory, reached through the
    root-restricted API ([os.OpenRoot], [Root.Stat], [Root.Mkdir],
    [Root.OpenFile]).  Every call is logged together with the tree it
    leaves behind, so that the states a concurrent reader can observe
    between two calls are part of the model. *)
Module OS.

Export Go.
Local Open Scope string_scope.

(** [os.IsNotExist]. *)
Definition IsNotExist (e : option error) : bool :=
  match e with
  | Some ErrNotExist => true
  | _ => false
  end.

Inductive node :=
| NDir
| NFile (data : list byte).

(** Nodes by their components below the root; the root itself is the
    empty list and always a directory. *)
Abbreviation tree := (gmap (list string) node).

Inductive call :=
| COpenRoot (dir : string)
| CRootClose
| CStat (name : string)
| CMkdir (name : string)
| COpenFile (name : string)
| CWrite (name : string) (buf : list byte)
| CClose (name : string)
| CRename (from to : string)
| CChtimes (name : string) (mtime : Z)
| CTimerStop (timer : nat)
| CTickerStop (ticker : nat)
| CCallback (what : string).

Record World := mkWorld {
  files : tree;
  (** bytes the disk still accepts; [None]: no limit *)
  quota : option nat;
  (** [C.Path.HomeDir()] and whether [os.OpenRoot] can open it *)
  homeDir : string;
  homeOpens : bool;
  (** the calls made so far, each with the tree after it, latest first *)
  calls : list (call * tree)
}.

(** Components of a name relative to the root, resolved lexically; a name
    that is absolute or climbs above the root escapes. *)
Fixpoint resolve (stack : list string) (cs : list string) : option (list string) :=
  match cs with
  | [] => Some (rev stack)
  | c :: cs' =>
      if String.eqb c "" || String.eqb c "." then resolve stack cs'
      else if String.eqb c ".." then
        match stack with
        | _ :: below => resolve below cs'
        | [] => None
        end
      else resolve (c :: stack) cs'
  end.

Definition key (name : string) : option (list string) :=
  match name with
  | String "/" _ => None
  | _ => resolve [] (Strings.Split name "/")
  end.

Definition lookup_node (t : tree) (k : list string) : option node :=
  match k with
  | [] => Some NDir
  | _ => t !! k
  end.

Definition parent (k : list string) : list string := removelast k.

(** Why a missing node is missing: its parent is a directory (the name
    does not exist) or something on the way is not. *)
Definition missing (t : tree) (k : list string) : error :=
  match lookup_node t (parent k) with
  | Some (NFile _) => ErrNotDir
  | _ => ErrNotExist
  end.

Definition stat (t : tree) (name : string) : option error :=
  match key name with
  | None => Some ErrEscapes
  | Some k =>
      match lookup_node t k with
      | Some _ => None
      | None => Some (missing t k)
      end
  end.

Definition mkdir (t : tree) (name : string) : tree * option error :=
  match key name with
  | None => (t, Some ErrEscapes)
  | Some k =>
      match lookup_node t k with
      | Some _ => (t, Some ErrExist)
      | None =>
          match lookup_node t (parent k) with
          | Some NDir => (<[k := NDir]> t, None)
          | _ => (t, Some (missing t k))
          end
      end
  end.

(** [OpenFile(name, O_CREATE|O_WRONLY|O_TRUNC, mode)]: the file is created
    empty, or emptied when it exists. *)
Definition open_trunc (t : tree) (name : string) : tree * result (list string) :=
  match key name with
  | None => (t, Err ErrEscapes)
  | Some k =>
      match lookup_node t k with
      | Some NDir => (t, Err ErrIsDir)
      | Some (NFile _) => (<[k := NFile []]> t, Ok k)
      | None =>
          match lookup_node t (parent k) with
          | Some NDir => (<[k := NFile []]> t, Ok k)
          | _ => (t, Err (missing t k))
          end
      end
  end.

(** [File.Write]: the bytes the disk accepts are appended; a short write
    is an error. *)
Definition write (t : tree) (q : option nat) (k : list string) (buf : list byte)
  : tree * option nat * option error :=
  let n := match q with
           | None => length buf
           | Some room => Nat.min room (length buf)
           end in
  let old := match t !! k with
             | Some (NFile data) => data
             | _ => []
             end in
  (<[k := NFile (old ++ firstn n buf)]> t,
   option_map (fun room => (room - n)%nat) q,
   if (n <? length buf)%nat then Some ErrNoSpace else None).

(** *** A state monad over the world *)
Definition M (A : Type) : Type := World -> A * World.

Definition ret {A} (a : A) : M A := fun w => (a, w).

Definition bind {A B} (m : M A) (f : A -> M B) : M B :=
  fun w => let '(a, w') := m w in f a w'.

Definition logged (c : call) (t : tree) (q : option nat) (w : World) : World :=
  mkWorld t q (homeDir w) (homeOpens w) ((c, t) :: calls w).

Definition OpenRoot (dir : string) : M (result string) :=
  fun w =>
    (if homeOpens w then Ok dir else Err ErrNotExist,
     logged (COpenRoot dir) (files w) (quota w) w).

Definition RootClose : M unit :=
  fun w => (tt, logged CRootClose (files w) (quota w) w).

Definition Stat (name : string) : M (option error) :=
  fun w => (stat (files w) name, logged (CStat name) (files w) (quota w) w).

Definition Mkdir (name : string) : M (option error) :=
  fun w =>
    let '(t, e) := mkdir (files w) name in
    (e, logged (CMkdir name) t (quota w) w).

Definition OpenFile (name : string) : M (result (list string)) :=
  fun w =>
    let '(t, r) := open_trunc (files w) name in
    (r, logged (COpenFile name) t (quota w) w).

Definition Write (name : string) (k : list string) (buf : list byte) : M (option error) :=
  fun w =>
    let '(t, q, e) := write (files w) (quota w) k buf in
    (e, logged (CWrite name buf) t q w).

Definition Close (name : string) : M unit :=
  fun w => (tt, logged (CClose name) (files w) (quota w) w).

(** [os.Chtimes]: only the call is recorded, contents are untouched. *)
Definition Chtimes (name : string) (mtime : Z) : M (option error) :=
  fun w =>
    (stat (files w) name, logged (CChtimes name mtime) (files w) (quota w) w).

Definition HomeDir : M string := fun w => (homeDir w, w).

(** A client callback that does nothing but leave its mark in the log. *)
Definition Callback (what : string) : M unit :=
  fun w => (tt, logged (CCallback what) (files w) (quota w) w).

Definition TimerStop (timer : nat) : M unit :=
  fun w => (tt, logged (CTimerStop timer) (files w) (quota w) w).

Definition TickerStop (ticker : nat) : M unit :=
  fun w => (tt, logged (CTickerStop ticker) (files w) (quota w) w).

#[global] Instance M_ret : MRet M := @ret.
#[global] Instance M_bind : MBind M := fun A B f m => bind m f.

(** What a reader of [name] finds in a tree. *)
Definition read (t : tree) (name : string) : option (list byte) :=
  match key name with
  | Some k => match t !! k with
              | Some (NFile data) => Some data
              | _ => None
              end
  | None => None
  end.

End OS.

(** ** Channels of [struct{}]

    A channel holds [queued] values out of [cap] slots.  A plain send or
    receive that cannot proceed makes its goroutine wait: [None]. *)
Module Chan.

Record chan := mkChan { cap : nat; queued : nat }.

Definition make (n : nat) : chan := mkChan n 0.

Definition send (c : chan) : option chan :=
  if (queued c <? cap c)%nat then Some (mkChan (cap c) (S (queued c))) else None.

Definition recv (c : chan) : option chan :=
  match queued c with
  | O => None
  | S n => Some (mkChan (cap c) n)
  end.

(** [select { case c <- struct{}{}: default: }]: never waits. *)
Definition select_send_default (c : chan) : option chan :=
  match send c with
  | Some c' => Some c'
  | None => Some c
  end.

End Chan.

(** ** adapter/provider: the fetcher *)
Module Provider.

Import OS.
Local Open Scope string_scope.

Inductive VehicleType := File | HTTP | Compatible.

#[global] Instance VehicleType_eq_dec : EqDecision VehicleType.
Proof. solve_decision. Defined.

(** [types.Vehicle]: [Read] may touch the world (a file vehicle reads the
    tree, an HTTP vehicle is an oracle). *)
Record Vehicle := mkVehicle {
  Read : M (result (list byte));
  Path : string;
  Proxy : bool;
  Type_ : VehicleType
}.

(** [safeWrite], the loop over the components of [dir]. *)
Fixpoint mkdirs (segs : list string) (d : string) : M (option error) :=
  match segs with
  | [] => mret None
  | s :: rest =>
      let d := d ++ s ++ "/" in
      err ← Stat d;
      if IsNotExist err then
        err ← Mkdir d;
        match err with
        | Some e => mret (Some e)
        | None => mkdirs rest d
        end
      else mkdirs rest d
  end.

Definition safeWrite (path : string) (buf : list byte) : M (option error) :=
  home ← HomeDir;
  r ← OpenRoot home;
  match r with
  | Err e => mret (Some e)
  | Ok rootName =>
      res ← (let path := fst (Strings.CutPrefix path (rootName ++ "/")) in
             let dir := filepath.Dir path in
             err ← Stat dir;
             err ← (if IsNotExist err then mkdirs (Strings.Split dir "/") "" else mret None);
             match err with
             | Some e => mret (Some e)
             | None =>
                 r ← OpenFile path;
                 match r with
                 | Err e => mret (Some e)
                 | Ok f =>
                     err ← Write path f buf;
                     Close path;;
                     mret err
                 end
             end);
      (* the deferred root.Close() *)
      RootClose;;
      mret res
  end.

Section Fetcher.

Context {V : Type}.

Record fetcher := mkFetcher {
  name : string;
  vehicle : Vehicle;
  interval : Z;
  updatedAt : option Z;
  ticker : option nat;
  tmUpdate : option nat;
  done : Chan.chan;
  hash : list byte;
  parser : list byte -> result V;
  onUpdate : option (V -> M unit)
}.

Definition with_updatedAt (f : fetcher) (t : Z) : fetcher :=
  mkFetcher (name f) (vehicle f) (interval f) (Some t) (ticker f) (tmUpdate f)
            (done f) (hash f) (parser f) (onUpdate f).

Definition with_hash (f : fetcher) (h : list byte) : fetcher :=
  mkFetcher (name f) (vehicle f) (interval f) (updatedAt f) (ticker f) (tmUpdate f)
            (done f) h (parser f) (onUpdate f).

Definition with_tmUpdate (f : fetcher) (t : option nat) : fetcher :=
  mkFetcher (name f) (vehicle f) (interval f) (updatedAt f) (ticker f) t
            (done f) (hash f) (parser f) (onUpdate f).

Definition with_done (f : fetcher) (c : Chan.chan) : fetcher :=
  mkFetcher (name f) (vehicle f) (interval f) (updatedAt f) (ticker f) (tmUpdate f)
            c (hash f) (parser f) (onUpdate f).

(** What [Update] returns: [(zero, false, err)], [(zero, true, nil)] or
    [(proxies, false, nil)]. *)
Inductive updated :=
| Failed (err : error)
| Same
| Changed (elm : V).

(** [bytes.Equal] *)
Fixpoint bytes_Equal (a b : list byte) : bool :=
  match a, b with
  | [], [] => true
  | x :: a', y :: b' => Byte.eqb x y && bytes_Equal a' b'
  | _, _ => false
  end.

Definition Update (f : fetcher) (now : Z) : M (fetcher * updated) :=
  r ← Read (vehicle f);
  match r with
  | Err e => mret (f, Failed e)
  | Ok buf =>
      let hash' := md5.Sum buf in
      if bytes_Equal (hash f) hash' then
        Chtimes (Path (vehicle f)) now;;
        mret (with_updatedAt f now, Same)
      else
        match parser f buf with
        | Err e => mret (f, Failed e)
        | Ok proxies =>
            err ← (if decide (Type_ (vehicle f) = File) then mret None
                   else safeWrite (Path (vehicle f)) buf);
            match err with
            | Some e => mret (f, Failed e)
            | None => mret (with_hash (with_updatedAt f now) hash', Changed proxies)
            end
        end
  end.

(** The closure [update] of [pullLoop]: one pull. *)
Definition update (f : fetcher) (now : Z) : M fetcher :=
  '(f', r) ← Update f now;
  match r with
  | Failed _ => mret f'
  | Same => mret f'
  | Changed elm =>
      match onUpdate f' with
      | Some callback => callback elm;; mret f'
      | None => mret f'
      end
  end.

(** [pullLoop], [case <-f.ticker.C]. *)
Definition on_tick (f : fetcher) (now : Z) : M fetcher := update f now.

(** [pullLoop], [case <-f.done]: the loop stops the ticker and returns;
    it waits while nothing is queued. *)
Definition on_done (f : fetcher) : option (M fetcher) :=
  match Chan.recv (done f), ticker f with
  | Some c, Some tk => Some (TickerStop tk;; mret (with_done f c))
  | _, _ => None
  end.

(** The delayed first pull armed by [pullLoop(true)]. *)
Definition on_timer (f : fetcher) (now : Z) : M fetcher :=
  f' ← update f now;
  mret (with_tmUpdate f' None).

(** [Destroy]; [None] would mean that the caller waits forever. *)
Definition Destroy (f : fetcher) (w : World) : option (option error * fetcher * World) :=
  let '(f1, w1) :=
    match tmUpdate f with
    | Some t => (with_tmUpdate f None, snd (TimerStop t w))
    | None => (f, w)
    end in
  match ticker f1 with
  | Some _ =>
      match Chan.select_send_default (done f1) with
      | Some c => Some (None, with_done f1 c, w1)
      | None => None
      end
  | None => Some (None, f1, w1)
  end.

(** [newFetcher]; [tk] is the ticker [time.NewTicker] hands out. *)
Definition newFetcher (name : string) (interval : Z) (vehicle : Vehicle)
    (parser : list byte -> result V) (onUpdate : option (V -> M unit)) (tk : nat)
  : fetcher :=
  let interval := if (interval <? 0)%Z then 0%Z else interval in
  let ticker := if decide (interval <> 0%Z) then Some tk else None in
  mkFetcher name vehicle interval None ticker None (Chan.make 1)
            (repeat x00 16) parser onUpdate.

End Fetcher.

Arguments fetcher V : clear implicits.

End Provider.

(** ** hub/route: authentication of the control plane *)
Module Route.

Local Open Scope string_scope.

(** [http.Header] and [url.Values]: the values of each key, in order. *)
Abbreviation Values := (gmap string (list string)).

(** [Header.Get] and [Values.Get]: the first value of the key, or the
    empty string. *)
Definition Get (v : Values) (key : string) : string :=
  match v !! key with
  | Some (x :: _) => x
  | _ => ""
  end.

Record Request := mkRequest {
  Header : Values;
  (** [r.URL.Query()] *)
  Query : Values;
  (** what [websocket.IsWebSocketUpgrade(r)] reports *)
  IsWebSocketUpgrade : bool
}.

Inductive served :=
| Next                      (* next.ServeHTTP(w, r) *)
| Rendered (status : Z).    (* render.Status; render.JSON(w, r, ErrUnauthorized) *)

Definition StatusUnauthorized : Z := 401.

(** [subtle.ConstantTimeCompare]: 1 when the two byte strings are equal. *)
Definition ConstantTimeCompare (x y : string) : Z :=
  if String.eqb x y then 1 else 0.

Definition neqb (a b : string) : bool := negb (String.eqb a b).

Definition authentication (serverSecret : string) (r : Request) : served :=
  if (String.length serverSecret =? 0)%nat then Next
  else if IsWebSocketUpgrade r && neqb (Get (Query r) "token") "" then
    let token := Get (Query r) "token" in
    if negb (ConstantTimeCompare token serverSecret =? 1)%Z
    then Rendered StatusUnauthorized
    else Next
  else
    let header := Get (Header r) "Authorization" in
    let '(bearer, token, found) := Strings.Cut header " " in
    let '(token, found) :=
      if String.eqb header "" then
        let token := Get (Query r) "token" in
        if neqb token "" then (token, true) else (token, found)
      else (token, found) in
    let hasInvalidHeader := neqb header "" && neqb bearer "Bearer" in
    let hasInvalidSecret :=
      negb found || negb (ConstantTimeCompare token serverSecret =? 1)%Z in
    if hasInvalidHeader || hasInvalidSecret
    then Rendered StatusUnauthorized
    else Next.

(** The request presents the secret in one of the two documented ways. *)
Definition bearer_header (secret : string) (r : Request) : Prop :=
  Get (Header r) "Authorization" = "Bearer " ++ secret.

Definition token_query (secret : string) (r : Request) : Prop :=
  Get (Query r) "token" = secret.

Definition request (authorization token : option string) (upgrade : bool) : Request :=
  mkRequest
    (match authorization with
     | Some h => {[ "Authorization" := [h] ]}
     | None => ∅
     end)
    (match token with
     | Some t => {[ "token" := [t] ]}
     | None => ∅
     end)
    upgrade.

End Route.

(** ** dns: the DNS-over-HTTPS client *)
Module DoH.

Import OS.
Local Open Scope string_scope.

(** [time.Duration], in nanoseconds. *)
Definition Second : Z := 1000000000.

Definition proxyTimeout : Z := 10 * Second.

(** [resolver.DefaultDNSTimeout] *)
Definition DefaultDNSTimeout : Z := 5 * Second.

(** A [context.Context] as the client reads it: the deadline and the two
    values it may carry, the resolver's proxy name ([resolver.WithProxy])
    and the client's own ([proxyKey]). *)
Record Context := mkContext {
  Deadline : option Z;
  resolverProxy : option string;
  dohProxy : option string
}.

Definition Background : Context := mkContext None None None.

(** [context.WithTimeout] at time [now]: the earlier of the parent's
    deadline and [now + timeout]. *)
Definition WithTimeout (ctx : Context) (now timeout : Z) : Context :=
  mkContext
    (match Deadline ctx with
     | Some d => Some (Z.min d (now + timeout))
     | None => Some (now + timeout)
     end)
    (resolverProxy ctx) (dohProxy ctx).

(** [context.WithValue(ctx, proxyKey, proxy)] *)
Definition WithProxyKey (ctx : Context) (proxy : string) : Context :=
  mkContext (Deadline ctx) (resolverProxy ctx) (Some proxy).

(** [resolver.GetProxy] *)
Definition GetProxy (ctx : Context) : string * bool :=
  match resolverProxy ctx with
  | Some p => (p, true)
  | None => ("", false)
  end.

(** [dns.Msg]: the header's id, the questions, and the rest. *)
Record Msg := mkMsg {
  Id : Z;
  Question : list string;
  Rest : list byte
}.

Definition with_Id (m : Msg) (id : Z) : Msg := mkMsg id (Question m) (Rest m).

(** Messages live in a heap and are passed by pointer. *)
Abbreviation heap := (gmap nat Msg).

Definition alloc (h : heap) (m : Msg) : nat * heap :=
  let l := fresh (dom h) in (l, <[l := m]> h).

Record Request := mkHTTPRequest {
  Method : string;
  URL : string;
  Body : list byte;
  ReqHeader : list (string * string);
  ReqContext : Context
}.

Record dohClient := mkDohClient {
  url : string;
  addr : string;
  proxy : string;
  urlLog : string;
  resolved : bool;
  timeout : Z
}.

(** Everything outside the client: name resolution, the random source,
    the DNS wire format, the URL helpers, the proxy table and the HTTP
    exchange. *)
Record Env := mkEnv {
  LookupIPByResolver : string -> result (list string);
  Intn : nat -> nat;
  SplitHostPort : string -> string * string;
  JoinHostPort : string -> string -> string;
  hostOf : string -> string * string;           (* u.Hostname(), u.Port() *)
  withHost : string -> string -> string;        (* u.Host = addr; u.String() *)
  validURL : string -> bool;                    (* http.NewRequest accepts it *)
  isIP : string -> bool;                        (* netip.ParseAddr succeeds *)
  Pack : Msg -> result (list byte);
  Unpack : list byte -> Msg * option error;
  FindProxyByName : string -> bool;
  (** [client.Do] and [io.ReadAll]: the response body or the failure; the
      flag tells whether the one-shot transport over the proxy is used *)
  Do : Request -> bool -> result (list byte)
}.

Inductive outcome :=
| Return (msg : option nat) (err : option error)
| Panic.

Record exchanged := mkExchanged {
  client : dohClient;
  memory : heap;
  (** the request handed to [doRequest], with its proxy flag *)
  sent : option (Request * bool);
  result_ : outcome
}.

Section Client.

Variable env : Env.

Definition dotMimeType : string := "application/dns-message".

(** [newRequest]; the message is read through the pointer, not written. *)
Definition newRequest (dc : dohClient) (m : Msg) : result Request :=
  match Pack env m with
  | Err e => Err e
  | Ok buf =>
      if validURL env (url dc) then
        Ok (mkHTTPRequest "POST" (url dc) buf
              [("Content-Type", dotMimeType); ("Accept", dotMimeType)] Background)
      else Err (ErrMsg "net/http: invalid URL")
  end.

(** [doRequest]: the reply is unpacked into a fresh message, which is
    returned even when unpacking fails. *)
Definition doRequest (h : heap) (req : Request) (hasProxy : bool)
  : heap * option nat * option error :=
  match Do env req hasProxy with
  | Err e => (h, None, Some e)
  | Ok buf =>
      let '(msg, err) := Unpack env buf in
      let '(l, h') := alloc h msg in
      (h', Some l, err)
  end.

(** The first part of [ExchangeContext]: resolve the server once. *)
Definition bootstrap (dc : dohClient) : result dohClient + unit :=
  if resolved dc then inl (Ok dc)
  else
    let '(host, port) := SplitHostPort env (addr dc) in
    match LookupIPByResolver env host with
    | Err e => inl (Err e)
    | Ok ips =>
        match ips !! Intn env (length ips) with
        | None => inr tt           (* index out of range, or Intn(0) *)
        | Some ip =>
            let addr := JoinHostPort env ip port in
            inl (Ok (mkDohClient (withHost env (url dc) addr) addr (proxy dc)
                       (urlLog dc) true (timeout dc)))
        end
    end.

Definition ExchangeContext (dc : dohClient) (ctx : Context) (m : nat)
    (h : heap) (now : Z) : exchanged :=
  match bootstrap dc with
  | inr tt => mkExchanged dc h None Panic
  | inl (Err e) => mkExchanged dc h None (Return None (Some e))
  | inl (Ok dc) =>
      match h !! m with
      | None => mkExchanged dc h None Panic        (* nil pointer *)
      | Some orig =>
          let newM := with_Id orig 0 in
          match newRequest dc newM with
          | Err e => mkExchanged dc h None (Return None (Some e))
          | Ok req =>
              let proxy :=
                let '(p, ok) := GetProxy ctx in if ok then p else proxy dc in
              let '(hasProxy, ctx) :=
                if negb (String.eqb proxy "")
                then (FindProxyByName env proxy, WithProxyKey ctx proxy)
                else (false, ctx) in
              let ctx :=
                match Deadline ctx with
                | Some _ => ctx
                | None => WithTimeout ctx now (timeout dc)
                end in
              let req := mkHTTPRequest (Method req) (URL req) (Body req)
                                       (ReqHeader req) ctx in
              let '(h, msg, err) := doRequest h req hasProxy in
              let h :=
                match err, msg with
                | None, Some l =>
                    match h !! l with
                    | Some reply => <[l := with_Id reply (Id orig)]> h
                    | None => h
                    end
                | _, _ => h
                end in
              (* logDnsResponse(m.Question[0], ...) *)
              match Question orig with
              | [] => mkExchanged dc h (Some (req, hasProxy)) Panic
              | _ :: _ => mkExchanged dc h (Some (req, hasProxy)) (Return msg err)
              end
          end
      end
  end.

Definition newDoHClient (url proxy : string) : dohClient :=
  let '(host, port) := hostOf env url in
  let port := if String.eqb port "" then "443" else port in
  let addr := JoinHostPort env host port in
  let timeout := if negb (String.eqb proxy "") then proxyTimeout
                 else DefaultDNSTimeout in
  mkDohClient url addr proxy url (isIP env host) timeout.

End Client.

End DoH.

(** ** dns: the DHCP upstream *)
Module DHCP.

Import OS.
Local Open Scope string_scope.

Definition Second : Z := 1000000000.
Definition IfaceTTL : Z := 20 * Second.
Definition DHCPTTL : Z := 3600 * Second.
Definition DHCPTimeout : Z := 60 * Second.

(** [netip.Prefix]: an IPv4 address and the number of network bits. *)
Record Prefix := mkPrefix { Addr : Z * Z * Z * Z; Bits : Z }.

(** The interface table hands out pointers to prefixes; [store] is the
    memory they point into. *)
Abbreviation store := (gmap nat Prefix).

(** [time.Time] as nanoseconds; the zero time is 0 and lies before now. *)
Record dhcpClient := mkDhcpClient {
  ifaceName : string;
  ifaceInvalidate : Z;
  dnsInvalidate : Z;
  (** [*netip.Prefix], nil before the first resolution *)
  ifaceAddr : option nat;
  (** the channel of the resolution in flight, nil when there is none *)
  done : option nat;
  (** the name servers found, nil before the first result *)
  clients : option (list string);
  err : option error
}.

Definition newDHCPClient (ifaceName : string) : dhcpClient :=
  mkDhcpClient ifaceName 0 0 None None None None.

(** [time.Now().Before(t)] *)
Definition Before (now t : Z) : bool := (now <? t)%Z.

(** Comparison of two [*netip.Prefix] with [==]: the pointers are
    compared, not the prefixes they point to. *)
Definition ptr_eq (a b : option nat) : bool := bool_decide (a = b).

(** [invalidate]; [pick] is what [iface.ResolveInterface] followed by
    [PickIPv4Addr] returns at this moment. *)
Definition invalidate (d : dhcpClient) (now : Z) (pick : result nat)
  : dhcpClient * (bool * option error) :=
  if Before now (ifaceInvalidate d) then (d, (false, None))
  else
    let d := mkDhcpClient (ifaceName d) (now + IfaceTTL) (dnsInvalidate d)
                          (ifaceAddr d) (done d) (clients d) (err d) in
    match pick with
    | Err e => (d, (false, Some e))
    | Ok addr =>
        if Before now (dnsInvalidate d) && ptr_eq (ifaceAddr d) (Some addr)
        then (d, (false, None))
        else
          let d := mkDhcpClient (ifaceName d) (ifaceInvalidate d) (now + DHCPTTL)
                                (Some addr) (done d) (clients d) (err d) in
          (d, (bool_decide (done d = None), None))
    end.

(** [resolve] up to the start of the goroutine: the flag tells whether a
    DHCP resolution is started; [ch] is the channel [make] would return. *)
Definition resolve_start (d : dhcpClient) (now : Z) (pick : result nat) (ch : nat)
  : dhcpClient * bool :=
  let '(d, (invalidated, e)) := invalidate d now pick in
  match e with
  | Some e =>
      (mkDhcpClient (ifaceName d) (ifaceInvalidate d) (dnsInvalidate d)
                    (ifaceAddr d) (done d) (clients d) (Some e), false)
  | None =>
      if invalidated then
        (mkDhcpClient (ifaceName d) (ifaceInvalidate d) (dnsInvalidate d)
                      (ifaceAddr d) (Some ch) (clients d) (err d), true)
      else (d, false)
  end.

(** The end of the goroutine: the result of [dhcp.ResolveDNSFromDHCP] is
    stored and the channel is closed. *)
Definition resolve_finish (d : dhcpClient) (res : result (list string)) : dhcpClient :=
  match res with
  | Ok dns =>
      mkDhcpClient (ifaceName d) (ifaceInvalidate d) (dnsInvalidate d)
                   (ifaceAddr d) None (Some (map (fun a => a ++ ":53") dns)) None
  | Err e =>
      mkDhcpClient (ifaceName d) (ifaceInvalidate d) (dnsInvalidate d)
                   (ifaceAddr d) None None (Some e)
  end.

(** One turn of the waiting loop of [resolve]: [None] while the caller
    waits on the channel in flight. *)
Definition resolve_poll (d : dhcpClient) : option (option (list string) * option error) :=
  match clients d, err d with
  | None, None => None
  | res, e => Some (res, e)
  end.

End DHCP.

(** ** component/resolver *)
Module Resolver.

Export Go.
Local Open Scope string_scope.

(** [netip.Addr]: the zero address, an IPv4 address, an IPv6 address, or
    an IPv4 address mapped into IPv6. *)
Inductive Addr :=
| Zero
| V4 (a : Z)
| V6 (a : Z)
| V4in6 (a : Z).

Definition Unmap (ip : Addr) : Addr :=
  match ip with
  | V4in6 a => V4 a
  | _ => ip
  end.

Definition Is4 (ip : Addr) : bool :=
  match ip with
  | V4 _ => true
  | _ => false
  end.

Definition Is6 (ip : Addr) : bool :=
  match ip with
  | V6 _ | V4in6 _ => true
  | _ => false
  end.

Definition typeNone : Z := 0.
Definition typeA : Z := 1.
Definition typeAAAA : Z := 28.

(** The values a lookup context may carry. *)
Record Context := mkContext {
  proxyServerHost : bool;         (* proxyServerHostKey is set *)
  proxyName : option string       (* the value under proxyKey *)
}.

Definition Background : Context := mkContext false None.

(** The lookup methods of the [Resolver] interface. *)
Record Resolver := mkResolver {
  LookupIP : Context -> string -> result (list Addr);
  LookupIPv4 : Context -> string -> result (list Addr);
  LookupIPv6 : Context -> string -> result (list Addr)
}.

(** The package variables and what lies outside the package: the hosts
    trie, the address parser and the system resolver. *)
Record Globals := mkGlobals {
  DefaultResolver : option Resolver;
  DisableIPv6 : bool;
  needProxyHostIPv6 : bool;
  (** [DefaultHosts.Search(host)], the data of the node found *)
  DefaultHosts : string -> option Addr;
  (** [netip.ParseAddr] *)
  ParseAddr : string -> option Addr;
  (** [net.DefaultResolver.LookupIP(ctx, network, host)], each address
      already converted with [netip.AddrFromSlice] *)
  systemLookupIP : string -> string -> result (list Addr)
}.

Section Lookups.

Variable g : Globals.

(** The body of [lookupIPByResolverAndType]; [lookupIPv4] stands for the
    call of [LookupIPv4] it makes when there is no resolver. *)
Definition lookup_body (lookupIPv4 : Context -> string -> result (list Addr))
    (ctx : Context) (host : string) (r : option Resolver) (t : Z) (both : bool)
  : result (list Addr) :=
  if (t =? typeAAAA)%Z && DisableIPv6 g && negb both then Err ErrIPv6Disabled
  else
    let from_hosts :=
      match DefaultHosts g host with
      | Some ip =>
          let ip := if negb (t =? typeAAAA)%Z then Unmap ip else ip in
          if (t =? typeNone)%Z || ((t =? typeA)%Z && Is4 ip)
             || ((t =? typeAAAA)%Z && Is6 ip)
          then Some ip else None
      | None => None
      end in
    match from_hosts with
    | Some ip => Ok [ip]
    | None =>
        match r with
        | Some r =>
            if (t =? typeA)%Z then LookupIPv4 r ctx host
            else if (t =? typeAAAA)%Z then LookupIPv6 r ctx host
            else if DisableIPv6 g && negb both then LookupIPv4 r ctx host
            else LookupIP r ctx host
        | None =>
            if (t =? typeNone)%Z && DisableIPv6 g then lookupIPv4 ctx host
            else
              match ParseAddr g host with
              | Some ip =>
                  let ip := if negb (t =? typeAAAA)%Z then Unmap ip else ip in
                  let is4 := Is4 ip in
                  if ((t =? typeA)%Z && negb is4) || ((t =? typeAAAA)%Z && is4)
                  then Err ErrIPVersion
                  else Ok [ip]
              | None =>
                  let network :=
                    if (t =? typeA)%Z then "ip4"
                    else if (t =? typeAAAA)%Z then "ip6" else "ip" in
                  match systemLookupIP g network host with
                  | Err e => Err e
                  | Ok [] => Err ErrIPNotFound
                  | Ok ips =>
                      Ok (map (fun ip => if negb (t =? typeAAAA)%Z then Unmap ip else ip) ips)
                  end
              end
        end
    end.

(** [LookupIPv4]: with the type A the body never calls [LookupIPv4]
    again, so the inner call is given no meaning. *)
Definition LookupIPv4_ (ctx : Context) (host : string) : result (list Addr) :=
  lookup_body (fun _ _ => Err ErrIPNotFound) ctx host (DefaultResolver g) typeA false.

Definition lookupIPByResolverAndType :=
  lookup_body LookupIPv4_.

Definition LookupIPv6_ (ctx : Context) (host : string) : result (list Addr) :=
  lookupIPByResolverAndType ctx host (DefaultResolver g) typeAAAA false.

Definition LookupIPByResolver (ctx : Context) (host : string) (r : option Resolver) :=
  lookupIPByResolverAndType ctx host r typeNone false.

Definition LookupIP_ (ctx : Context) (host : string) : result (list Addr) :=
  LookupIPByResolver ctx host (DefaultResolver g).

Inductive resolved :=
| Resolved (ip : Addr)
| Failed (e : error)
| Panic.

(** [ips[rand.IntN(len(ips))]]: [IntN] panics for 0 and otherwise draws
    below its argument; [seed] is the random source. *)
Definition IntN (seed n : nat) : option nat :=
  match n with
  | O => None
  | S _ => Some (seed mod n)%nat
  end.

Definition pick (seed : nat) (ips : list Addr) : resolved :=
  match IntN seed (length ips) with
  | None => Panic
  | Some i =>
      match ips !! i with
      | Some ip => Resolved ip
      | None => Panic
      end
  end.

(** The lookup [resolveIPByType] makes. *)
Definition lookup_for (host : string) (_type : Z) : result (list Addr) :=
  if (_type =? typeNone)%Z then LookupIP_ Background host
  else if (_type =? typeA)%Z then LookupIPv4_ Background host
  else LookupIPv6_ Background host.

Definition resolveIPByType (seed : nat) (host : string) (_type : Z) : resolved :=
  match lookup_for host _type with
  | Err e => Failed e
  | Ok ips => pick seed ips
  end.

(** The lookup [resolveProxyServerHostByType] makes. *)
Definition proxy_lookup_for (host : string) (_type : Z) : result (list Addr) :=
  lookupIPByResolverAndType (mkContext true None) host (DefaultResolver g)
                            _type (needProxyHostIPv6 g).

Definition resolveProxyServerHostByType (seed : nat) (host : string) (_type : Z)
  : resolved :=
  match proxy_lookup_for host _type with
  | Err e => Failed e
  | Ok ips => pick seed ips
  end.

End Lookups.

(** A resolver keeps the promise the package relies on when each of its
    lookups that returns no error returns at least one address. *)
Definition answers_nonempty (r : Resolver) : Prop :=
  forall ctx host ips,
    (LookupIP r ctx host = Ok ips \/ LookupIPv4 r ctx host = Ok ips \/
     LookupIPv6 r ctx host = Ok ips) -> ips <> [].

End Resolver.

(** ** config: proxies and proxy groups *)
Module Config.

Export Go.
Local Open Scope string_scope.

(** A YAML value of type [any], as far as the parser looks into it. *)
Inductive any :=
| AString (s : string)
| ANumber (n : Z)
| AOther.

(** [map[string]any] *)
Abbreviation Mapping := (gmap string any).

Inductive VehicleType := File | HTTP | Compatible.

#[global] Instance VehicleType_eq_dec : EqDecision VehicleType.
Proof. solve_decision. Defined.

(** [C.Proxy].  The built-in adapters, what [adapter.ParseProxy] and
    [outboundgroup.ParseProxyGroup] build from a mapping, and the selector
    over providers that [outboundgroup.NewSelector] builds.  A provider
    lists its proxies; a [None] among them is a nil interface value. *)
Inductive Proxy :=
| Direct
| Reject
| Leaf (name : string) (conf : Mapping)
| GroupProxy (name : string) (conf : Mapping)
| Selector (name : string) (providers : list ProxyProvider)
with ProxyProvider :=
| mkProvider (providerName : string) (vehicleType : VehicleType)
             (members : list (option Proxy)).

Definition Name (p : Proxy) : string :=
  match p with
  | Direct => "DIRECT"
  | Reject => "REJECT"
  | Leaf name _ | GroupProxy name _ | Selector name _ => name
  end.

Definition VehicleType_ (pd : ProxyProvider) : VehicleType :=
  let '(mkProvider _ vt _) := pd in vt.

Definition Proxies (pd : ProxyProvider) : list (option Proxy) :=
  let '(mkProvider _ _ ps) := pd in ps.

(** [provider.ReservedName] *)
Definition ReservedName : string := "default".

Record RawConfig := mkRawConfig {
  Proxy_ : list Mapping;
  ProxyGroup : list Mapping;
  ProxyProvider_ : gmap string Mapping;
  ForceCertVerify : bool
}.

(** The packages the parser calls into. *)
Record Env := mkEnv {
  ParseProxy : Mapping -> bool -> result Proxy;
  (** sorts the groups, or reports a loop *)
  proxyGroupsDagSort : list Mapping -> result (list Mapping);
  ParseProxyProvider : string -> Mapping -> bool -> result ProxyProvider;
  (** [Initial()] of a provider *)
  Initial : ProxyProvider -> option error;
  ParseProxyGroup :
    Mapping -> gmap string Proxy -> gmap string ProxyProvider -> result Proxy
}.

Section Parse.

Variable env : Env.

(** The loop over [cfg.Proxy]. *)
Fixpoint parse_leaves (force : bool) (idx : nat) (cfgs : list Mapping)
    (proxies : gmap string Proxy) (proxyList : list string)
  : result (gmap string Proxy * list string) :=
  match cfgs with
  | [] => Ok (proxies, proxyList)
  | mapping :: rest =>
      match ParseProxy env mapping force with
      | Err e => Err (ErrWrap (ErrAt "proxy" idx) e)
      | Ok proxy =>
          match proxies !! Name proxy with
          | Some _ => Err (ErrFor "proxy is the duplicate name" (Name proxy))
          | None =>
              parse_leaves force (S idx) rest (<[Name proxy := proxy]> proxies)
                           (proxyList ++ [Name proxy])%list
          end
      end
  end.

(** The loop that keeps the order of the groups in the file. *)
Fixpoint group_names (idx : nat) (groups : list Mapping) (proxyList : list string)
  : result (list string) :=
  match groups with
  | [] => Ok proxyList
  | mapping :: rest =>
      match mapping !! "name" with
      | Some (AString groupName) => group_names (S idx) rest (proxyList ++ [groupName])%list
      | _ => Err (ErrAt "proxy group: missing name" idx)
      end
  end.

(** The loop over [providersConfig], in the order of the keys. *)
Fixpoint parse_providers (force : bool) (cfgs : list (string * Mapping))
    (providersMap : gmap string ProxyProvider) : result (gmap string ProxyProvider) :=
  match cfgs with
  | [] => Ok providersMap
  | (name, mapping) :: rest =>
      if String.eqb name ReservedName
      then Err (ErrFor "can not defined a provider called" ReservedName)
      else
        match ParseProxyProvider env name mapping force with
        | Err e => Err (ErrWrap (ErrFor "parse proxy provider" name) e)
        | Ok pd => parse_providers force rest (<[name := pd]> providersMap)
        end
  end.

(** The two loops that call [Initial]. *)
Fixpoint initial_all (only_compatible : bool) (pds : list (string * ProxyProvider))
  : option error :=
  match pds with
  | [] => None
  | (name, pd) :: rest =>
      if only_compatible && negb (bool_decide (VehicleType_ pd = Compatible))
      then initial_all only_compatible rest
      else
        match Initial env pd with
        | Some e => Some (ErrWrap (ErrFor "initial proxy provider" name) e)
        | None => initial_all only_compatible rest
        end
  end.

(** The loop over the sorted groups. *)
Fixpoint parse_groups (idx : nat) (groups : list Mapping)
    (proxies : gmap string Proxy) (providersMap : gmap string ProxyProvider)
  : result (gmap string Proxy) :=
  match groups with
  | [] => Ok proxies
  | mapping :: rest =>
      match ParseProxyGroup env mapping proxies providersMap with
      | Err e => Err (ErrWrap (ErrAt "proxy group" idx) e)
      | Ok group =>
          match proxies !! Name group with
          | Some _ => Err (ErrFor "proxy group: the duplicate name" (Name group))
          | None => parse_groups (S idx) rest (<[Name group := group]> proxies) providersMap
          end
      end
  end.

Definition parseProxies (cfg : RawConfig)
  : result (gmap string Proxy * gmap string ProxyProvider) :=
  let proxies : gmap string Proxy := <["REJECT" := Reject]> (<["DIRECT" := Direct]> ∅) in
  let proxyList := ["DIRECT"; "REJECT"] in
  match parse_leaves (ForceCertVerify cfg) 0 (Proxy_ cfg) proxies proxyList with
  | Err e => Err e
  | Ok (proxies, proxyList) =>
  match group_names 0 (ProxyGroup cfg) proxyList with
  | Err e => Err e
  | Ok proxyList =>
  match proxyGroupsDagSort env (ProxyGroup cfg) with
  | Err e => Err e
  | Ok groupsConfig =>
  match parse_providers (ForceCertVerify cfg) (map_to_list (ProxyProvider_ cfg)) ∅ with
  | Err e => Err e
  | Ok providersMap =>
  match initial_all false (map_to_list providersMap) with
  | Some e => Err e
  | None =>
  match parse_groups 0 groupsConfig proxies providersMap with
  | Err e => Err e
  | Ok proxies =>
  match initial_all true (map_to_list providersMap) with
  | Some e => Err e
  | None =>
      let ps := map (fun v => proxies !! v) proxyList in
      let pd := mkProvider ReservedName Compatible ps in
      let providersMap := <[ReservedName := pd]> providersMap in
      let global := Selector "GLOBAL" [pd] in
      Ok (<["GLOBAL" := global]> proxies, providersMap)
  end end end end end end end.

End Parse.

End Config.

(** ** regexp, for the one pattern of [findRuleProvidersName]

    Go's [regexp] finds the leftmost match and, among the matches that
    start there, the one a backtracking matcher would find first: the
    first alternative that matches, a greedy repetition taken as long as
    the rest of the pattern allows.  The matcher below is this search
    written out for the pattern

      ctx.rule_providers\[Q(\S+)Q\]\.match|match_provider\(Q(\S+)Q\)

    over the bytes of the text, where Q stands for the class of the two
    quote characters, single and double. *)
Module Regexp.

Local Open Scope string_scope.

Definition dquote : ascii := ascii_of_nat 34.
Definition squote : ascii := ascii_of_nat 39.

(** The class Q of the two quote characters. *)
Definition is_quote (c : ascii) : bool := Ascii.eqb c dquote || Ascii.eqb c squote.

(** The class [\s]: tab, line feed, form feed, carriage return, blank. *)
Definition is_space (c : ascii) : bool :=
  let n := nat_of_ascii c in
  (n =? 9)%nat || (n =? 10)%nat || (n =? 12)%nat || (n =? 13)%nat || (n =? 32)%nat.

(** A literal: the text after it, when the text starts with it. *)
Definition lit (p s : string) : option string :=
  let '(rest, found) := Strings.CutPrefix s p in
  if found then Some rest else None.

(** The number of bytes of the UTF-8 sequence a lead byte [n] announces,
    for a lead byte whose continuation bytes are the [next] ones; a byte
    that starts no well-formed sequence counts on its own. *)
Definition is_cont (c : ascii) : bool :=
  let n := nat_of_ascii c in (128 <=? n)%nat && (n <=? 191)%nat.

Definition rune_width (s : string) : nat :=
  match s with
  | EmptyString => 0
  | String c0 s1 =>
      let n := nat_of_ascii c0 in
      if (n <? 194)%nat then 1
      else match s1 with
      | String c1 s2 =>
          let n1 := nat_of_ascii c1 in
          if negb (is_cont c1) then 1
          else if (n <? 224)%nat then 2
          else match s2 with
          | String c2 s3 =>
              if negb (is_cont c2) then 1
              else if (n <? 240)%nat then
                (if ((n =? 224)%nat && (n1 <? 160)%nat)
                    || ((n =? 237)%nat && (159 <? n1)%nat) then 1 else 3)
              else match s3 with
              | String c3 _ =>
                  if negb (is_cont c3) || (244 <? n)%nat
                     || ((n =? 240)%nat && (n1 <? 144)%nat)
                     || ((n =? 244)%nat && (143 <? n1)%nat) then 1 else 4
              | EmptyString => 1
              end
          | EmptyString => 1
          end
      | EmptyString => 1
      end
  end.

Fixpoint drop (n : nat) (s : string) : string :=
  match n, s with
  | S n', String _ s' => drop n' s'
  | _, _ => s
  end.

(** The dot: any character but the line feed. *)
Definition any_char (s : string) : option string :=
  match s with
  | EmptyString => None
  | String c _ =>
      if (nat_of_ascii c =? 10)%nat then None else Some (drop (rune_width s) s)
  end.

Definition quote (s : string) : option string :=
  match s with
  | String c s' => if is_quote c then Some s' else None
  | EmptyString => None
  end.

(** The group [(\S+)] followed by [tail]: the longest run of non-space
    characters after which [tail] matches. *)
Fixpoint group (tail : string -> option string) (s : string) : option (string * string) :=
  match s with
  | EmptyString => None
  | String c s' =>
      if is_space c then None
      else
        match group tail s' with
        | Some (captured, rest) => Some (String c captured, rest)
        | None =>
            match tail s' with
            | Some rest => Some (String c EmptyString, rest)
            | None => None
            end
        end
  end.

Definition after (a b : string -> option string) (s : string) : option string :=
  match a s with
  | Some s' => b s'
  | None => None
  end.

(** [ctx.rule_providers\[Q(\S+)Q\]\.match] *)
Definition alt1 (s : string) : option (string * string) :=
  match after (lit "ctx") (after any_char (after (lit "rule_providers[") quote)) s with
  | Some s' => group (after quote (lit "].match")) s'
  | None => None
  end.

(** [match_provider\(Q(\S+)Q\)] *)
Definition alt2 (s : string) : option (string * string) :=
  match after (lit "match_provider(") quote s with
  | Some s' => group (after quote (lit ")")) s'
  | None => None
  end.

(** A match at the start of [s]: the two submatches (the one of the
    alternative not taken is empty) and the text after the match. *)
Definition match_here (s : string) : option (string * string * string) :=
  match alt1 s with
  | Some (g1, rest) => Some (g1, EmptyString, rest)
  | None =>
      match alt2 s with
      | Some (g2, rest) => Some (EmptyString, g2, rest)
      | None => None
      end
  end.

(** [FindAllStringSubmatch(s, -1)], the submatches of the successive
    non-overlapping matches; [skip] characters belong to the last match. *)
Fixpoint find_all (skip : nat) (s : string) : list (string * string) :=
  match s with
  | EmptyString => []
  | String _ s' =>
      match skip with
      | S k => find_all k s'
      | O =>
          match match_here s with
          | Some (g1, g2, rest) =>
              (g1, g2) :: find_all (String.length s - String.length rest - 1) s'
          | None => find_all 0 s'
          end
      end
  end.

Definition FindAllStringSubmatch (s : string) : list (string * string) := find_all 0 s.

End Regexp.

(** ** config: scripts, rules and rule providers *)
Module Rules.

Export Go.
Local Open Scope string_scope.

(** [findRuleProvidersName] *)
Definition findRuleProvidersName (s : string) : list string :=
  let arr := Regexp.FindAllStringSubmatch s in
  let rpd :=
    flat_map (fun '(g1, g2) =>
                List.filter (fun v => negb (String.eqb v "")) [g1; g2]) arr in
  Strings.Uniq rpd.

(** [RawRule]: a line, or a named group of rules under a condition. *)
#[warnings="-register-all"]
Inductive RawRule :=
| mkRawRule (If Name Engine : string) (Rules : list RawRule) (Line : string).

Definition line (l : string) : RawRule := mkRawRule "" "" "" [] l.

(** A compiled matcher ([C.Matcher]). *)
Inductive Matcher :=
| ExprMatcher (name code : string)
| StarlarkMatcher (name code : string).

(** [C.Rule]: what [R.ParseRule] and [R.NewGEOSITE] build, the script rule
    with the matcher set on it, and the group; each with the names of the
    groups around it. *)
#[warnings="-register-all"]
Inductive Rule :=
| Plain (ruleType payload target : string) (params : list string) (groups : list string)
| Script (payload target : string) (matcher : option Matcher) (groups : list string)
| Group (description : string) (matcher : Matcher) (subRules : list Rule)
        (groups : list string).

(** [appendRuleGroupName] *)
Fixpoint AppendGroup (groupName : string) (r : Rule) : Rule :=
  match r with
  | Plain t p tg ps gs => Plain t p tg ps (gs ++ [groupName])%list
  | Script p tg m gs => Script p tg m (gs ++ [groupName])%list
  | Group d m subs gs =>
      Group d m (map (AppendGroup groupName) subs) (gs ++ [groupName])%list
  end.

Definition appendRuleGroupName (subRules : list Rule) (groupName : string) : list Rule :=
  map (AppendGroup groupName) subRules.

(** The packages and constants the rule parser uses. *)
Record Env := mkEnv {
  (** [C.ScriptRuleGeoSiteTarget] *)
  ScriptRuleGeoSiteTarget : string;
  NewExprMatcher : string -> string -> result Matcher;
  NewMatcher : string -> string -> string -> result Matcher;
  ParseRule : string -> string -> string -> list string -> result Rule;
  NewGEOSITE : string -> string -> result Rule;
  trimArr : list string -> list string;
  (** [strings.Map(unicode.ToLower, s)] and [strings.Map(unicode.ToUpper, s)],
      which [strings.ToLower] and [strings.ToUpper] use for a text with a
      byte outside ASCII: the case tables of the package unicode *)
  Map_ToLower : string -> string;
  Map_ToUpper : string -> string;
  (** [cleanScriptKeywords]: the main code without the lines that load
      modules or define the built-in functions anew; which lines those are
      plays no part below *)
  cleanScriptKeywords : string -> string;
  (** [C.Path.Resolve], [os.Stat] and [os.ReadFile] of the script file *)
  ReadScript : string -> result string
}.

Abbreviation providers := (gmap string Rule).
Abbreviation matchers := (gmap string Matcher).

Section Parse.

Variable env : Env.
Variable proxies : gset string.

Definition ToLower : string -> string := Strings.ToLower (Map_ToLower env).
Definition ToUpper : string -> string := Strings.ToUpper (Map_ToUpper env).

(** [parseRawRules], lines 737-748: the providers a group's condition
    refers to. *)
Fixpoint register (rpdArr : list string) (ruleProviders : providers) : providers :=
  match rpdArr with
  | [] => ruleProviders
  | v :: rest =>
      let v := ToLower v in
      match ruleProviders !! v with
      | Some _ => register rest ruleProviders
      | None =>
          match NewGEOSITE env v (ScriptRuleGeoSiteTarget env) with
          | Err _ => register rest ruleProviders
          | Ok rpd => register rest (<[v := rpd]> ruleProviders)
          end
      end
  end.

(** [parseRawRules], the branch for a line [TYPE,payload,target,params]. *)
Definition parse_line (idx : nat) (line : string)
    (ruleProviders : providers) (ms : matchers)
  : result (option Rule * providers) :=
  let rule := trimArr env (Strings.Split line ",") in
  let ruleName := ToUpper (nth 0 rule "") in
  let l := length rule in
  if (l <? 2)%nat then Err (ErrAt "rules: format invalid" idx)
  else
    let rule := if (l <? 4)%nat then (rule ++ repeat "" (4 - l))%list else rule in
    let l := if String.eqb ruleName "MATCH" then 2%nat else l in
    let '(l, payload) :=
      if (3 <=? l)%nat then (3%nat, nth 1 rule "") else (l, "") in
    let target := nth (l - 1) rule "" in
    let params := skipn l rule in
    if negb (bool_decide (target ∈ proxies)) && negb (String.eqb ruleName "GEOSITE")
       && negb (String.eqb target (ScriptRuleGeoSiteTarget env))
    then Err (ErrWrap (ErrAt "rules: proxy not found" idx) (ErrMsg target))
    else
      let pvName := ToLower payload in
      let foundRP := bool_decide (is_Some (ruleProviders !! pvName)) in
      if String.eqb ruleName "GEOSITE"
         && String.eqb target (ScriptRuleGeoSiteTarget env) && foundRP
      then Ok (None, ruleProviders)
      else
        let params := trimArr env params in
        match ParseRule env ruleName payload target params with
        | Err e => Err (ErrWrap (ErrAt "rules" idx) e)
        | Ok parsed =>
            let with_matcher :=
              match parsed with
              | Script p tg _ gs =>
                  match ms !! payload with
                  | Some m => Ok (Script p tg (Some m) gs)
                  | None => Err (ErrWrap (ErrAt "rules: shortcut name not found" idx)
                                         (ErrMsg payload))
                  end
              | _ => Ok parsed
              end in
            match with_matcher with
            | Err e => Err e
            | Ok parsed =>
                let ruleProviders :=
                  if String.eqb ruleName "GEOSITE" && negb foundRP
                  then <[pvName := parsed]> ruleProviders else ruleProviders in
                Ok (Some parsed, ruleProviders)
            end
        end.

(** [parseRawRules]: one raw rule, and the loop over a list of them.  The
    two maps are shared with the caller and updated in place. *)
Fixpoint parseRawRule (idx : nat) (raw : RawRule)
    (ruleProviders : providers) (ms : matchers)
  : result (option Rule * providers * matchers) :=
  let '(mkRawRule if_ name engine rules line) := raw in
  if String.eqb line "" then
    if String.eqb name "" then Ok (None, ruleProviders, ms)
    else
      let mk := "rule:" ++ name in
      match ms !! mk with
      | Some _ => Err (ErrFor "parse rule failed, rule name is exist" name)
      | None =>
          match (if String.eqb engine "expr" then NewExprMatcher env name if_
                 else NewMatcher env name "" if_) with
          | Err e => Err (ErrWrap (ErrFor "parse rule failed" name) e)
          | Ok groupMatcher =>
              let ms := <[mk := groupMatcher]> ms in
              let loop :=
                fix loop (i : nat) (raws : list RawRule)
                    (ruleProviders : providers) (ms : matchers)
                  : result (list Rule * providers * matchers) :=
                  match raws with
                  | [] => Ok ([], ruleProviders, ms)
                  | raw :: rest =>
                      match parseRawRule i raw ruleProviders ms with
                      | Err e => Err e
                      | Ok (parsed, ruleProviders, ms) =>
                          match loop (S i) rest ruleProviders ms with
                          | Err e => Err e
                          | Ok (rules, ruleProviders, ms) =>
                              Ok (match parsed with
                                  | Some r => r :: rules
                                  | None => rules
                                  end, ruleProviders, ms)
                          end
                      end
                  end in
              match loop 0%nat rules ruleProviders ms with
              | Err e => Err e
              | Ok (subRules, ruleProviders, ms) =>
                  let subRules := appendRuleGroupName subRules name in
                  let parsed := Group (name ++ " (" ++ if_ ++ ")") groupMatcher subRules [] in
                  let rpdArr := findRuleProvidersName if_ in
                  Ok (Some parsed, register rpdArr ruleProviders, ms)
              end
          end
      end
  else
    match parse_line idx line ruleProviders ms with
    | Err e => Err e
    | Ok (parsed, ruleProviders) => Ok (parsed, ruleProviders, ms)
    end.

Fixpoint parseRawRules_from (i : nat) (rawRules : list RawRule)
    (ruleProviders : providers) (ms : matchers)
  : result (list Rule * providers * matchers) :=
  match rawRules with
  | [] => Ok ([], ruleProviders, ms)
  | raw :: rest =>
      match parseRawRule i raw ruleProviders ms with
      | Err e => Err e
      | Ok (parsed, ruleProviders, ms) =>
          match parseRawRules_from (S i) rest ruleProviders ms with
          | Err e => Err e
          | Ok (rules, ruleProviders, ms) =>
              Ok (match parsed with
                  | Some r => r :: rules
                  | None => rules
                  end, ruleProviders, ms)
          end
      end
  end.

Definition parseRawRules := parseRawRules_from 0.

(** [parseRules] *)
Definition parseRules (rawRules : list RawRule) (ms : matchers)
  : result (list Rule * providers) :=
  match parseRawRules rawRules ∅ ms with
  | Err e => Err e
  | Ok (rules, ruleProviders, _) => Ok (rules, ruleProviders)
  end.

(** [Script] of the raw configuration. *)
Record ScriptConfig := mkScript {
  Engine : string;
  MainPath : string;
  MainCode : string;
  ShortcutsCode : gmap string string
}.

Definition newline : string := String (ascii_of_nat 10) "".

(** The main function used when the script has none: it returns the
    string DIRECT, written between double quotes. *)
Definition default_main : string :=
  newline ++ "def main(ctx, metadata):" ++ newline ++
  "  return " ++ String Regexp.dquote ("DIRECT" ++ String Regexp.dquote newline).

(** [parseScript], the loop over the shortcuts (in the order of their
    names). *)
Fixpoint shortcuts (engine : string) (codes : list (string * string))
    (ms : matchers) (content : string) : result (matchers * string) :=
  match codes with
  | [] => Ok (ms, content)
  | (k, v) :: rest =>
      match ms !! k with
      | Some _ => Err (ErrFor "initialized rule SCRIPT failure, shortcut name is exist" k)
      | None =>
          let v := Strings.TrimSpace v in
          if String.eqb v ""
          then Err (ErrFor "initialized rule SCRIPT failure, shortcut code syntax invalid" k)
          else
            let v := Strings.ReplaceAll (Strings.ReplaceAll v (ascii_of_nat 13) " ")
                                        (ascii_of_nat 10) " " in
            match (if String.eqb engine "expr" then NewExprMatcher env k v
                   else NewMatcher env k "" v) with
            | Err e => Err (ErrWrap (ErrMsg "initialized script module failure") e)
            | Ok m => shortcuts engine rest (<[k := m]> ms) (content ++ v ++ newline)
            end
      end
  end.

(** The raw rule [parseScript] appends for a provider name. *)
Definition geosite_line (v : string) : RawRule :=
  line ("GEOSITE," ++ v ++ "," ++ ScriptRuleGeoSiteTarget env).

Definition parseScript (script : ScriptConfig) (rawRules : list RawRule)
  : result (matchers * list RawRule) :=
  let engine := Engine script in
  let path := MainPath script in
  if negb (size (ShortcutsCode script) =? 0)%nat
     && negb (String.eqb engine "expr") && negb (String.eqb engine "starlark")
  then Err (ErrFor "invalid script shortcut engine" engine)
  else
    let mainCode :=
      if negb (String.eqb path "") then
        if negb (Strings.HasSuffix path ".star")
        then Err (ErrFor "initialized script file failure, script path invalid" path)
        else ReadScript env path
      else Ok (MainCode script) in
    match mainCode with
    | Err e => Err e
    | Ok mainCode =>
        let mainCode :=
          if String.eqb (Strings.TrimSpace mainCode) "" then default_main
          else cleanScriptKeywords env mainCode in
        let content := mainCode ++ newline in
        match NewMatcher env "main" "" mainCode with
        | Err e => Err (ErrWrap (ErrMsg "initialized script module failure") e)
        | Ok matcher =>
            match shortcuts engine (map_to_list (ShortcutsCode script))
                            (<["main" := matcher]> ∅) content with
            | Err e => Err e
            | Ok (ms, content) =>
                let rpdArr := findRuleProvidersName content in
                Ok (ms, (rawRules ++ map geosite_line rpdArr)%list)
            end
        end
    end.

End Parse.

End Rules.

(** ** adapter/provider: the start of a fetcher and of its pull loop *)
Module Startup.

Import OS Provider.
Local Open Scope string_scope.

Section Initial.

Context {V : Type}.

(** [lo.Empty[V]()] *)
Variable zero : V.

(** The value a parser hands back beside an error. *)
Variable beside : list byte -> V.

(** What [Initial] returns, and the [go f.pullLoop(immediatelyUpdate)] it
    issues on its way out. *)
Record initialized := mkInitialized {
  fetcher_ : fetcher V;
  value : result V;
  pullLoop : option bool
}.

Definition failed (f : fetcher V) (e : error) : initialized :=
  mkInitialized f (Err e) None.

(** The label [end]. *)
Definition at_end (f : fetcher V) (elm : V) (immediatelyUpdate : bool) : initialized :=
  mkInitialized f (Ok elm)
    (if decide (Type_ (vehicle f) = File) then None else Some immediatelyUpdate).

(** From the write of a fresh payload to the label [end]. *)
Definition keep (f : fetcher V) (buf : list byte) (elm : V)
    (isLocal immediatelyUpdate : bool) : M initialized :=
  err ← (if decide (Type_ (vehicle f) = File) then mret None
         else if isLocal then mret None
         else safeWrite (Path (vehicle f)) buf);
  match err with
  | Some e => mret (failed f e)
  | None => mret (at_end (with_hash f (md5.Sum buf)) elm immediatelyUpdate)
  end.

(** [Initial] after the first read, from the local file or the vehicle. *)
Definition parse_or_fetch (f : fetcher V) (r : result (list byte))
    (isLocal immediatelyUpdate : bool) : M initialized :=
  match r with
  | Err e => mret (failed f e)
  | Ok buf =>
      match parser f buf with
      | Ok elm => keep f buf elm isLocal immediatelyUpdate
      | Err e =>
          if negb isLocal then mret (failed f e)
          else if Proxy (vehicle f) then mret (at_end f (beside buf) true)
          else
            r ← Read (vehicle f);
            match r with
            | Err e => mret (failed f e)
            | Ok buf =>
                match parser f buf with
                | Err e => mret (failed f e)
                | Ok elm => keep f buf elm false immediatelyUpdate
                end
            end
      end
  end.

(** [Initial]; [cache] is what [os.Stat] and [os.ReadFile] find at the
    vehicle's path: nothing, or the modification time and the contents (or
    the read error). *)
Definition Initial (f : fetcher V) (now : Z) (cache : option (Z * result (list byte)))
  : M initialized :=
  match cache with
  | Some (modTime, r) =>
      let f := with_updatedAt f modTime in
      let immediatelyUpdate :=
        negb (interval f =? 0)%Z && (interval f <? now - modTime)%Z in
      parse_or_fetch f r true immediatelyUpdate
  | None =>
      if Proxy (vehicle f) then mret (at_end f zero true)
      else
        r ← Read (vehicle f);
        parse_or_fetch f r false false
  end.

(** [pullLoop] up to its loop: the delayed first pull is armed, an older
    timer stopped; [timer] is what [time.AfterFunc] hands out.  The flag
    tells whether the loop over ticker and done channel is entered. *)
Definition pullLoop_start (f : fetcher V) (immediately : bool) (timer : nat)
  : M (fetcher V * bool) :=
  f ← (if immediately then
         match tmUpdate f with
         | Some old => TimerStop old;; mret (with_tmUpdate f (Some timer))
         | None => mret (with_tmUpdate f (Some timer))
         end
       else mret f);
  mret (f, bool_decide (ticker f <> None)).

End Initial.

Arguments initialized V : clear implicits.

End Startup.

(** ** component/resolver: the switches and the lookups by proxy *)
Module ResolverSwitch.

Import Resolver.
Local Open Scope string_scope.

(** [SetDisableIPv6]: both package variables are set. *)
Definition SetDisableIPv6 (g : Globals) (v : bool) : Globals :=
  mkGlobals (DefaultResolver g) v (negb v) (DefaultHosts g) (ParseAddr g)
            (systemLookupIP g).

(** [WithProxy] on the lookup context. *)
Definition WithProxy (ctx : Context) (proxy : string) : Context :=
  mkContext (proxyServerHost ctx) (Some proxy).

(** [lookupIPByProxyAndType] *)
Definition lookupIPByProxyAndType (g : Globals) (ctx : Context) (host proxy : string)
    (t : Z) (both : bool) : result (list Addr) :=
  lookupIPByResolverAndType g (WithProxy ctx proxy) host (DefaultResolver g) t both.

(** [LookupIPByProxy], [LookupIPv4ByProxy] and [LookupIPv6ByProxy] *)
Definition LookupIPByProxy (g : Globals) (ctx : Context) (host proxy : string) :=
  lookupIPByProxyAndType g ctx host proxy typeNone true.

Definition LookupIPv4ByProxy (g : Globals) (ctx : Context) (host proxy : string) :=
  lookupIPByProxyAndType g ctx host proxy typeA false.

Definition LookupIPv6ByProxy (g : Globals) (ctx : Context) (host proxy : string) :=
  lookupIPByProxyAndType g ctx host proxy typeAAAA true.

End ResolverSwitch.



(** ** dns: the DoH client without a context *)
Module DoHExchange.

Import DoH.

(** [Exchange]: [ExchangeContext] under [context.Background()]. *)
Definition Exchange (env : Env) (dc : dohClient) (m : nat) (h : heap) (now : Z)
  : exchanged :=
  ExchangeContext env dc Background m h now.

End DoHExchange.

(** ** net: host and port

    [net.SplitHostPort] and [net.JoinHostPort] of Go's standard library,
    which the configuration parser calls. *)
Module Net.

Export Go.
Local Open Scope string_scope.

(** [strings.IndexByte]: the place of the first occurrence. *)
Fixpoint IndexByte (s : string) (c : ascii) : option nat :=
  match s with
  | EmptyString => None
  | String x s' =>
      if Ascii.eqb x c then Some 0%nat
      else match IndexByte s' c with
           | Some i => Some (S i)
           | None => None
           end
  end.

(** [strings.LastIndexByte]: the place of the last occurrence. *)
Fixpoint LastIndexByte (s : string) (c : ascii) : option nat :=
  match s with
  | EmptyString => None
  | String x s' =>
      match LastIndexByte s' c with
      | Some i => Some (S i)
      | None => if Ascii.eqb x c then Some 0%nat else None
      end
  end.

(** [s[n:]] *)
Fixpoint from (n : nat) (s : string) : string :=
  match n, s with
  | S n', String _ s' => from n' s'
  | _, _ => s
  end.

(** [s[:n]] *)
Fixpoint upto (n : nat) (s : string) : string :=
  match n, s with
  | S n', String c s' => String c (upto n' s')
  | _, _ => EmptyString
  end.

Definition missingPort : error := ErrMsg "missing port in address".
Definition tooManyColons : error := ErrMsg "too many colons in address".

Definition has (s : string) (c : ascii) : bool :=
  match IndexByte s c with
  | Some _ => true
  | None => false
  end.

(** [s[0] == c] *)
Definition starts_with (s : string) (c : ascii) : bool :=
  match s with
  | String x _ => Ascii.eqb x c
  | EmptyString => false
  end.

(** [net.SplitHostPort]: the port starts after the last colon; a host in
    brackets must end just before that colon. *)
Definition SplitHostPort (hostport : string) : result (string * string) :=
  match LastIndexByte hostport ":" with
  | None => Err missingPort
  | Some i =>
      let checked : result (string * nat * nat) :=
        if starts_with hostport "[" then
          match IndexByte hostport "]" with
          | None => Err (ErrMsg "missing ']' in address")
          | Some end_ =>
              if (end_ + 1 =? String.length hostport)%nat then Err missingPort
              else if (end_ + 1 =? i)%nat
              then Ok (from 1 (upto end_ hostport), 1%nat, (end_ + 1)%nat)
              else if starts_with (from (end_ + 1) hostport) ":"
              then Err tooManyColons
              else Err missingPort
          end
        else
          let host := upto i hostport in
          if has host ":" then Err tooManyColons else Ok (host, 0%nat, 0%nat) in
      match checked with
      | Err e => Err e
      | Ok (host, j, k) =>
          if has (from j hostport) "[" then Err (ErrMsg "unexpected '[' in address")
          else if has (from k hostport) "]" then Err (ErrMsg "unexpected ']' in address")
          else Ok (host, from (i + 1) hostport)
      end
  end.

(** [net.JoinHostPort] *)
Definition JoinHostPort (host port : string) : string :=
  if has host ":" then "[" ++ host ++ "]:" ++ port
  else host ++ ":" ++ port.

End Net.

(** ** config: users, name servers and tunnels *)
Module Settings.

Import Net.
Local Open Scope string_scope.

(** [auth.AuthUser] *)
Record AuthUser := mkAuthUser { User : string; Pass : string }.

(** [ParseAuthentication] *)
Definition ParseAuthentication (rawRecords : list string) : list AuthUser :=
  fold_left
    (fun users line =>
       let '(user, pass, found) := Strings.Cut line ":" in
       if found then (users ++ [mkAuthUser user pass])%list else users)
    rawRecords [].

(** [hostWithDefaultPort] *)
Definition hostWithDefaultPort (host defPort : string) : result string :=
  let host := if negb (Strings.Contains host ":") then host ++ ":" else host in
  match SplitHostPort host with
  | Err e => Err e
  | Ok (hostname, port) =>
      let port := if String.eqb port "" then defPort else port in
      Ok (JoinHostPort hostname port)
  end.

(** [strings.Contains] for a separator of several characters. *)
Fixpoint ContainsStr (s sub : string) : bool :=
  Strings.HasPrefix s sub ||
  match s with
  | EmptyString => false
  | String _ s' => ContainsStr s' sub
  end.

(** [url.URL], the parts the parser reads. *)
Record URL := mkURL {
  Scheme : string;
  Host : string;
  Path : string;
  UserInfo : string;
  Fragment : string
}.

(** [dns.NameServer] *)
Record NameServer := mkNameServer { Net_ : string; Addr : string; Proxy : string }.

Section NameServers.

(** [url.Parse] and [URL.String] *)
Variable Parse : string -> result URL.
Variable String_ : URL -> string.

(** [parseNameServer], one server. *)
Definition parse_server (idx : nat) (server : string) : result NameServer :=
  let server := if negb (ContainsStr server "://") then "udp://" ++ server else server in
  match Parse server with
  | Err e => Err (ErrWrap (ErrAt "DNS NameServer format error" idx) e)
  | Ok u =>
      let clearURL := mkURL (Scheme u) (Host u) (Path u) (UserInfo u) "" in
      let scheme := Scheme u in
      let parsed : result (result string * string) :=
        if String.eqb scheme "udp" then Ok (hostWithDefaultPort (Host u) "53", "")
        else if String.eqb scheme "tcp" then Ok (hostWithDefaultPort (Host u) "53", "tcp")
        else if String.eqb scheme "tls" then Ok (hostWithDefaultPort (Host u) "853", "tcp-tls")
        else if String.eqb scheme "https" || String.eqb scheme "doh"
        then Ok (Ok (String_ clearURL), "https")
        else if String.eqb scheme "http3" || String.eqb scheme "h3"
                || String.eqb scheme "doh3"
        then Ok (Ok (String_ clearURL), "http3")
        else if String.eqb scheme "dhcp" then Ok (Ok (Host u), "dhcp")
        else Err (ErrFor "DNS NameServer unsupport scheme" scheme) in
      match parsed with
      | Err e => Err e
      | Ok (Err e, _) => Err (ErrWrap (ErrAt "DNS NameServer format error" idx) e)
      | Ok (Ok addr, dnsNetType) => Ok (mkNameServer dnsNetType addr (Fragment u))
      end
  end.

(** [parseNameServer], the loop. *)
Fixpoint parseNameServer_from (idx : nat) (servers : list string)
    (nameservers : list NameServer) : result (list NameServer) :=
  match servers with
  | [] => Ok nameservers
  | server :: rest =>
      match parse_server idx server with
      | Err e => Err e
      | Ok ns => parseNameServer_from (S idx) rest (nameservers ++ [ns])%list
      end
  end.

Definition parseNameServer (servers : list string) : result (list NameServer) :=
  parseNameServer_from 0 servers [].

End NameServers.

(** [tunnel], a tunnel of the configuration. *)
Record Tunnel := mkTunnel {
  Network : list string;
  Address : string;
  Target : string;
  TunnelProxy : string
}.

(** The loop that validates the networks. *)
Fixpoint valid_networks (network : list string) : option error :=
  match network with
  | [] => None
  | n :: rest =>
      if String.eqb n "tcp" || String.eqb n "udp" then valid_networks rest
      else Some (ErrFor "invalid tunnel network" n)
  end.

(** The loop that validates address and target. *)
Fixpoint valid_addresses (addrs : list string) : option error :=
  match addrs with
  | [] => None
  | addr :: rest =>
      match SplitHostPort addr with
      | Err _ => Some (ErrFor "invalid tunnel target or address" addr)
      | Ok _ => valid_addresses rest
      end
  end.

(** [Tunnel.UnmarshalYAML]; [as_string] and [as_struct] are what the
    decoder answers when it is asked for a string and for a [tunnel]. *)
Definition UnmarshalTunnel (as_string : result string) (as_struct : result Tunnel)
  : result Tunnel :=
  match as_string with
  | Err _ =>
      match as_struct with
      | Err e => Err e
      | Ok inner => Ok inner
      end
  | Ok tp =>
      let parts := map Strings.TrimSpace (Strings.Split tp ",") in
      if negb (length parts =? 4)%nat then Err (ErrFor "invalid tunnel config" tp)
      else
        let network := Strings.Split (nth 0 parts "") "/" in
        match valid_networks network with
        | Some e => Err e
        | None =>
            let address := nth 1 parts "" in
            let target := nth 2 parts "" in
            match valid_addresses [address; target] with
            | Some e => Err e
            | None => Ok (mkTunnel network address target (nth 3 parts ""))
            end
        end
  end.

Section Policy.

(** [url.Parse], [URL.String] and the flag of [trie.ValidAndSplitDomain] *)
Variable Parse : string -> result URL.
Variable String_ : URL -> string.
Variable ValidAndSplitDomain : string -> bool.

(** [parseNameServerPolicy], the loop over the entries of the map, in the
    order the map hands them out.  The index [nameservers[0]] stops the
    program when the list is empty, which is written as an error here. *)
Fixpoint policy_from (entries : list (string * string))
    (policy : gmap string NameServer) : result (gmap string NameServer) :=
  match entries with
  | [] => Ok policy
  | (domain, server) :: rest =>
      match parseNameServer Parse String_ [server] with
      | Err e => Err e
      | Ok nameservers =>
          if negb (ValidAndSplitDomain domain)
          then Err (ErrFor "DNS ResoverRule invalid domain" domain)
          else
            match nameservers with
            | ns :: _ => policy_from rest (<[domain := ns]> policy)
            | [] => Err (ErrMsg "index out of range [0] with length 0")
            end
      end
  end.

Definition parseNameServerPolicy (nsPolicy : gmap string string)
  : result (gmap string NameServer) :=
  policy_from (map_to_list nsPolicy) ∅.

End Policy.

(** [provider.ProxyProvider], as the verification of the tunnels reads
    it: the type of its vehicle and the names of its proxies. *)
Record ProxyProvider := mkProxyProvider {
  VehicleType : Provider.VehicleType;
  Proxies : list string
}.

(** [ParseRawConfig], the loop over [pd.Proxies()]: the flag [ok] after
    it, and whether [break loop] was taken. *)
Fixpoint find_in_provider (names : list string) (want : string) (ok : bool)
  : bool * bool :=
  match names with
  | [] => (ok, false)
  | name :: rest =>
      let ok := String.eqb name want in
      if ok then (ok, true) else find_in_provider rest want ok
  end.

(** The loop labelled [loop], over the providers in the order the map
    hands them out. *)
Fixpoint find_in_providers (pds : list ProxyProvider) (want : string) (ok : bool)
  : bool :=
  match pds with
  | [] => ok
  | pd :: rest =>
      if decide (VehicleType pd = Provider.Compatible)
      then find_in_providers rest want ok
      else
        let '(ok, broke) := find_in_provider (Proxies pd) want ok in
        if broke then ok else find_in_providers rest want ok
  end.

(** [ParseRawConfig], the verification of the tunnels; [proxies] holds the
    names of [config.Proxies]. *)
Fixpoint verify_tunnels (proxies : gset string) (pds : list ProxyProvider)
    (tunnels : list Tunnel) : option error :=
  match tunnels with
  | [] => None
  | t :: rest =>
      if bool_decide (TunnelProxy t ∈ proxies) then verify_tunnels proxies pds rest
      else if find_in_providers pds (TunnelProxy t) false
      then verify_tunnels proxies pds rest
      else Some (ErrFor "tunnel proxy not found" (TunnelProxy t))
  end.

End Settings.

(** ** config: the raw rules as the decoder hands them over *)
Module Decoding.

Import Rules.
Local Open Scope string_scope.


End Decoding.

(** * Properties *)

(** ** The helpers on concrete inputs *)

(** RFC 1321 test suite. *)
Example md5_empty : md5.hex (md5.Sum []) = "d41d8cd98f00b204e9800998ecf8427e"%string.
Proof. vm_compute. reflexivity. Qed.

Example md5_abc :
  md5.hex (md5.Sum (bytes_of "abc")) = "900150983cd24fb0d6963f7d28e17f72"%string.
Proof. vm_compute. reflexivity. Qed.

Example md5_two_blocks :
  md5.hex (md5.Sum (bytes_of
    "12345678901234567890123456789012345678901234567890123456789012345678901234567890"))
  = "57edf4a22be3c955ac49da2e2107b67a"%string.
Proof. vm_compute. reflexivity. Qed.

Example Dir_nested : filepath.Dir "providers/sub/a.yaml" = "providers/sub"%string.
Proof. reflexivity. Qed.

Example Dir_plain : filepath.Dir "a.yaml" = "."%string.
Proof. reflexivity. Qed.

Example Dir_dots : filepath.Dir "a/./b/../c//d.yaml" = "a/c"%string.
Proof. reflexivity. Qed.

Example Dir_rooted : filepath.Dir "/etc/x" = "/etc"%string.
Proof. reflexivity. Qed.

Example CutPrefix_home :
  Strings.CutPrefix "/home/u/providers/a.yaml" "/home/u/" = ("providers/a.yaml", true)%string.
Proof. reflexivity. Qed.

Example CutPrefix_other :
  Strings.CutPrefix "providers/a.yaml" "/home/u/" = ("providers/a.yaml", false)%string.
Proof. reflexivity. Qed.

Example Split_commas :
  Strings.Split "GEOSITE,cn,DIRECT" ","%char = ["GEOSITE"; "cn"; "DIRECT"]%string.
Proof. reflexivity. Qed.

(** White space outside ASCII is trimmed as well: here U+00A0 in front and
    U+2028 at the end.  A continuation byte on its own is no character
    and stays. *)
Example TrimSpace_unicode :
  Strings.TrimSpace
    (String (ascii_of_nat 194) (String (ascii_of_nat 160)
       (" a b" ++ String (ascii_of_nat 226) (String (ascii_of_nat 128)
                    (String (ascii_of_nat 168) (String (ascii_of_nat 10) ""))))))
  = "a b"%string /\
  Strings.TrimSpace (String "a" (String (ascii_of_nat 133) (String " " "")))
  = String "a" (String (ascii_of_nat 133) "").
Proof. split; reflexivity. Qed.

Example ToLower_ascii_text (tables : string -> string) :
  Strings.ToLower tables "Ads-CN" = "ads-cn"%string /\
  Strings.ToUpper tables "geosite" = "GEOSITE"%string.
Proof. split; reflexivity. Qed.

Example find_two_references :
  Regexp.FindAllStringSubmatch
    "ctx.rule_providers['cn'].match(m) or match_provider('Ads')"
  = [("cn", ""); ("", "Ads")]%string.
Proof. vm_compute. reflexivity. Qed.

Example find_greedy :
  Regexp.FindAllStringSubmatch "match_provider('a')||match_provider('b')"
  = [("", "a')||match_provider('b")]%string.
Proof. vm_compute. reflexivity. Qed.

(** ** Facts about the string helpers *)
Module StringFacts.

Local Open Scope string_scope.

Lemma append_assoc (a b c : string) : (a ++ b) ++ c = a ++ (b ++ c).
Proof.
  induction a as [|x a IH]; [reflexivity|].
  change (String x ((a ++ b) ++ c) = String x (a ++ (b ++ c))).
  by rewrite IH.
Qed.

Lemma append_empty (a : string) : a ++ "" = a.
Proof.
  induction a as [|x a IH]; [reflexivity|].
  change (String x (a ++ "") = String x a). by rewrite IH.
Qed.

Lemma append_cons (x : ascii) (a b : string) : String x a ++ b = String x (a ++ b).
Proof. reflexivity. Qed.

Lemma Split_whole sep s : Strings.Contains s sep = false -> Strings.Split s sep = [s].
Proof.
  induction s as [|c s IH]; cbn; [done|].
  destruct (Ascii.eqb c sep); [done|]. cbn. intros H. by rewrite IH.
Qed.

Lemma Split_first sep a b :
  Strings.Contains a sep = false ->
  Strings.Split (a ++ String sep b) sep = a :: Strings.Split b sep.
Proof.
  induction a as [|c a IH]; cbn [Strings.Contains].
  - intros _. change ("" ++ String sep b) with (String sep b).
    cbn. by rewrite Ascii.eqb_refl.
  - destruct (Ascii.eqb c sep) eqn:E; [done|]. cbn. intros H.
    rewrite append_cons. cbn. rewrite E. by rewrite IH.
Qed.

Lemma CutPrefix_app p s : Strings.CutPrefix (p ++ s) p = (s, true).
Proof.
  induction p as [|c p IH]; [by destruct s|].
  rewrite append_cons. cbn. by rewrite Ascii.eqb_refl, IH.
Qed.

End StringFacts.

(** ** Paths of plain components

    What [strings.Split], [filepath.Dir] and the root's lexical resolution
    make of a relative path whose components are plain names. *)
Module PathFacts.

Import OS StringFacts.
Local Open Scope string_scope.
Local Open Scope list_scope.

(** A component of a path that is a plain name. *)
Definition plain (c : string) : bool :=
  negb (String.eqb c "") && negb (String.eqb c ".") && negb (String.eqb c "..")
  && negb (Strings.Contains c "/").

(** The components, each followed by a slash. *)
Fixpoint slashed (cs : list string) : string :=
  match cs with
  | [] => ""
  | c :: cs' => (c ++ "/" ++ slashed cs')%string
  end.

Lemma plain_spec c :
  plain c = true ->
  c <> "" /\ c <> "." /\ c <> ".." /\ Strings.Contains c "/" = false.
Proof.
  unfold plain. rewrite !andb_true_iff, !negb_true_iff.
  intros [[[H1 H2] H3] H4].
  repeat split; try done; intros ->; done.
Qed.

Lemma Split_slashed cs :
  Forall (fun c => plain c = true) cs ->
  Strings.Split (slashed cs) "/" = cs ++ [""].
Proof.
  induction 1 as [|c cs Hc _ IH]; [done|]. cbn [slashed].
  apply plain_spec in Hc as (_ & _ & _ & Hc).
  change (c ++ "/" ++ slashed cs)%string with (c ++ String "/" (slashed cs))%string.
  by rewrite Split_first, IH.
Qed.

Lemma Join_cons c cs : cs <> [] -> Strings.Join (c :: cs) "/" = (c ++ "/" ++ Strings.Join cs "/")%string.
Proof. by destruct cs. Qed.

Lemma Split_Join cs :
  cs <> [] -> Forall (fun c => plain c = true) cs ->
  Strings.Split (Strings.Join cs "/") "/" = cs.
Proof.
  intros Hne Hall. induction Hall as [|c cs Hc Hall IH]; [done|].
  apply plain_spec in Hc as (_ & _ & _ & Hc).
  destruct cs as [|c' cs]; [by apply Split_whole|].
  rewrite Join_cons by done.
  change (c ++ "/" ++ ?x)%string with (c ++ String "/" x)%string.
  rewrite Split_first by done. by rewrite IH.
Qed.

Lemma resolve_plain stack cs :
  Forall (fun c => plain c = true) cs ->
  resolve stack cs = Some (rev stack ++ cs).
Proof.
  intros Hall. revert stack. induction Hall as [|c cs Hc _ IH]; intros stack; cbn.
  - by rewrite app_nil_r.
  - apply plain_spec in Hc as (H1 & H2 & H3 & _).
    destruct (String.eqb_spec c ""); [done|].
    destruct (String.eqb_spec c "."); [done|].
    destruct (String.eqb_spec c ".."); [done|]. cbn.
    rewrite IH. cbn. by rewrite <- app_assoc.
Qed.

Lemma resolve_app stack cs ds :
  Forall (fun c => plain c = true) cs ->
  resolve stack (cs ++ ds) = resolve (rev cs ++ stack) ds.
Proof.
  intros Hall. revert stack. induction Hall as [|c cs Hc _ IH]; intros stack; [done|].
  cbn. apply plain_spec in Hc as (H1 & H2 & H3 & _).
  destruct (String.eqb_spec c ""); [done|].
  destruct (String.eqb_spec c "."); [done|].
  destruct (String.eqb_spec c ".."); [done|]. cbn.
  rewrite IH. by rewrite <- app_assoc.
Qed.

(** A name that starts with a plain component is not absolute. *)
Lemma key_relative c rest :
  plain c = true ->
  key (c ++ rest) = resolve [] (Strings.Split (c ++ rest) "/").
Proof.
  intros Hc. apply plain_spec in Hc as (H1 & _ & _ & H4).
  destruct c as [|x c]; [done|]. rewrite append_cons.
  cbn in H4. apply orb_false_iff in H4 as [Hx _].
  unfold key. destruct x as [[] [] [] [] [] [] [] []]; try done.
Qed.

Lemma key_slashed cs :
  Forall (fun c => plain c = true) cs -> key (slashed cs) = Some cs.
Proof.
  intros Hall. destruct Hall as [|c cs Hc Hall]; [done|].
  cbn [slashed]. rewrite (key_relative c _) by done.
  change (c ++ "/" ++ slashed cs)%string with (slashed (c :: cs)).
  rewrite Split_slashed by by constructor.
  rewrite resolve_app by by constructor. rewrite app_nil_r.
  change (Some (rev (rev (c :: cs))) = Some (c :: cs)). by rewrite rev_involutive.
Qed.

Lemma key_Join cs :
  cs <> [] -> Forall (fun c => plain c = true) cs -> key (Strings.Join cs "/") = Some cs.
Proof.
  intros Hne Hall. pose proof (Split_Join cs Hne Hall) as HS.
  destruct Hall as [|c cs Hc Hall]; [done|].
  assert (Strings.Join (c :: cs) "/" = c ++ match cs with [] => "" | _ => "/" ++ Strings.Join cs "/" end)%string as E.
  { destruct cs; [by rewrite append_empty|done]. }
  rewrite E, (key_relative c _) by done. rewrite <- E, HS.
  by rewrite resolve_plain by by constructor.
Qed.

Lemma slashed_Join cs : cs <> [] -> slashed cs = (Strings.Join cs "/" ++ "/")%string.
Proof.
  induction cs as [|c cs IH]; [done|]. intros _. cbn [slashed].
  destruct cs as [|c' cs].
  - cbn. by rewrite append_empty.
  - rewrite IH by done. rewrite (Join_cons c) by done. by rewrite !append_assoc.
Qed.

Lemma slashed_snoc cs c : slashed (cs ++ [c]) = (slashed cs ++ c ++ "/")%string.
Proof.
  induction cs as [|x cs IH]; cbn [slashed app].
  - done.
  - by rewrite IH, !append_assoc.
Qed.

Lemma Join_snoc cs f : Strings.Join (cs ++ [f]) "/" = (slashed cs ++ f)%string.
Proof.
  induction cs as [|c cs IH]; [done|].
  change ((c :: cs) ++ [f]) with (c :: (cs ++ [f])).
  rewrite Join_cons by by destruct cs.
  rewrite IH. cbn [slashed]. by rewrite !append_assoc.
Qed.

Lemma upto_last_sep_none f :
  Strings.Contains f "/" = false -> filepath.upto_last_sep f = "".
Proof.
  induction f as [|c f IH]; [done|]. cbn [Strings.Contains filepath.upto_last_sep].
  intros [Hc Hf]%orb_false_iff. rewrite IH by done. cbn.
  unfold filepath.Separator. by rewrite Hc.
Qed.

Lemma upto_last_sep_app a f :
  Strings.Contains f "/" = false ->
  filepath.upto_last_sep (a ++ String "/" f) = (a ++ "/")%string.
Proof.
  intros Hf. induction a as [|c a IH].
  - change (filepath.upto_last_sep (String "/" f) = "/").
    cbn [filepath.upto_last_sep]. by rewrite upto_last_sep_none.
  - rewrite !append_cons. cbn [filepath.upto_last_sep]. rewrite IH.
    by destruct a.
Qed.

Lemma fold_clean_step stack cs :
  Forall (fun c => plain c = true) cs ->
  fold_left (filepath.clean_step false) cs stack = rev cs ++ stack.
Proof.
  intros Hall. revert stack. induction Hall as [|c cs Hc _ IH]; intros stack; [done|].
  cbn [fold_left]. rewrite IH. unfold filepath.clean_step.
  apply plain_spec in Hc as (H1 & H2 & H3 & _).
  destruct (String.eqb_spec c ""); [done|].
  destruct (String.eqb_spec c "."); [done|].
  destruct (String.eqb_spec c ".."); [done|]. cbn. by rewrite <- app_assoc.
Qed.

Lemma plain_Join_nonempty c cs : plain c = true -> Strings.Join (c :: cs) "/" <> "".
Proof.
  intros (H1 & _)%plain_spec. destruct c; [done|]. by destruct cs.
Qed.

(** Cleaning a directory written with a trailing slash. *)
Lemma Clean_slashed cs :
  cs <> [] -> Forall (fun c => plain c = true) cs ->
  filepath.Clean (slashed cs) = Strings.Join cs "/".
Proof.
  intros Hne Hall. pose proof (Split_slashed cs Hall) as HS.
  destruct Hall as [|c cs Hc Hall]; [done|].
  pose proof (plain_Join_nonempty c cs Hc) as HJ.
  pose proof Hc as (H1 & _ & _ & H4)%plain_spec.
  destruct c as [|x c]; [done|].
  unfold filepath.Clean. cbn [slashed]. rewrite append_cons.
  rewrite <- append_cons. change (String x c ++ "/" ++ slashed cs)%string with (slashed (String x c :: cs)).
  unfold filepath.Separator. rewrite HS.
  cbn in H4. apply orb_false_iff in H4 as [-> _].
  rewrite fold_left_app, (fold_clean_step [] (String x c :: cs)) by by constructor.
  rewrite app_nil_r. cbn [fold_left].
  change (filepath.clean_step false (rev (String x c :: cs)) "") with (rev (String x c :: cs)).
  rewrite rev_involutive.
  destruct (String.eqb_spec (Strings.Join (String x c :: cs) "/") ""); done.
Qed.

(** The directory handed to [Stat]: [.] for a file directly below the
    root. *)
Definition dir_of (cs : list string) : string :=
  match cs with
  | [] => "."
  | _ => Strings.Join cs "/"
  end.

Lemma Dir_Join cs f :
  Forall (fun c => plain c = true) cs -> plain f = true ->
  filepath.Dir (Strings.Join (cs ++ [f]) "/") = dir_of cs.
Proof.
  intros Hall (_ & _ & _ & Hf)%plain_spec. unfold filepath.Dir. rewrite Join_snoc.
  destruct cs as [|c cs].
  - change (slashed [] ++ f)%string with f. by rewrite upto_last_sep_none.
  - rewrite slashed_Join by done. rewrite append_assoc.
    change ("/" ++ f)%string with (String "/" f).
    rewrite upto_last_sep_app by done.
    rewrite <- slashed_Join by done. by apply Clean_slashed.
Qed.

Lemma key_dir_of cs :
  Forall (fun c => plain c = true) cs -> key (dir_of cs) = Some cs.
Proof. destruct cs; [done|]. intros. by apply key_Join. Qed.

Lemma Split_dir_of cs :
  cs <> [] -> Forall (fun c => plain c = true) cs ->
  Strings.Split (dir_of cs) "/" = cs.
Proof. destruct cs; [done|]. intros. by apply Split_Join. Qed.

End PathFacts.

(** ** Properties of the fetcher *)
Module ProviderFacts.

Import OS Provider StringFacts PathFacts.
Local Open Scope string_scope.
Local Open Scope list_scope.

Section Shutdown.

Context {V : Type}.
Implicit Types (f : fetcher V) (w : World).

Lemma select_send_default_total (c : Chan.chan) :
  exists c', Chan.select_send_default c = Some c'.
Proof. unfold Chan.select_send_default. destruct (Chan.send c); eauto. Qed.

(** A select with a default on a full single-slot channel leaves it as it
    is, and on an empty one fills it: either way it is full afterwards. *)
Lemma select_send_default_single (c c' : Chan.chan) :
  Chan.cap c = 1%nat ->
  Chan.select_send_default c = Some c' ->
  Chan.cap c' = 1%nat /\ Chan.select_send_default c' = Some c'.
Proof.
  destruct c as [cp q]; cbn. intros ->.
  unfold Chan.select_send_default, Chan.send; cbn.
  destruct q as [|q]; cbn; intros [= <-]; cbn; auto.
Qed.

(** A plain send on the full channel would wait: the default branch is
    what keeps the second [Destroy] from blocking. *)
Lemma send_full_waits (c : Chan.chan) :
  Chan.queued c = Chan.cap c -> Chan.send c = None.
Proof.
  unfold Chan.send. intros ->.
  by rewrite Nat.ltb_irrefl.
Qed.

Lemma Destroy_returns_nil f w :
  exists f1 w1, Destroy f w = Some (None, f1, w1).
Proof.
  unfold Destroy.
  destruct (tmUpdate f); cbn; destruct (ticker f); cbn; eauto;
    destruct (select_send_default_total (done f)) as [c ->]; eauto.
Qed.

Lemma newFetcher_single_slot nm iv vh (ps : list byte -> result V) cb tk :
  Chan.cap (done (newFetcher nm iv vh ps cb tk)) = 1%nat.
Proof. reflexivity. Qed.

(** No operation of the fetcher replaces the channel by one of another
    size. *)
Lemma on_done_keeps_cap f m w :
  on_done f = Some m -> Chan.cap (done (fst (m w))) = Chan.cap (done f).
Proof.
  unfold on_done, Chan.recv.
  destruct (Chan.queued (done f)); [done|].
  destruct (ticker f); [|done].
  by intros [= <-].
Qed.

(** On a fetcher that has neither a ticker nor a delayed pull [Destroy]
    changes nothing at all. *)
Lemma Destroy_idle f w :
  ticker f = None -> tmUpdate f = None -> Destroy f w = Some (None, f, w).
Proof. unfold Destroy. intros Htk ->. by rewrite Htk. Qed.


End Shutdown.

(** *** [safeWrite] *)
Section SafeWrite.

(** The calls [safeWrite] makes before it opens the target. *)
Definition prep_call (c : call) : Prop :=
  match c with
  | COpenRoot _ | CStat _ | CMkdir _ => True
  | _ => False
  end.

(** The calls of the root-restricted API that write in place; a rename is
    not one of them. *)
Definition in_place_call (c : call) : Prop :=
  match c with
  | COpenRoot _ | CRootClose | CStat _ | CMkdir _
  | COpenFile _ | CWrite _ _ | CClose _ => True
  | _ => False
  end.

Lemma prep_in_place c : prep_call c -> in_place_call c.
Proof. by destruct c. Qed.

Lemma lookup_node_None t k : lookup_node t k = None -> t !! k = None.
Proof. by destruct k. Qed.

Lemma mkdir_grows t name t' e : mkdir t name = (t', e) -> t ⊆ t'.
Proof.
  unfold mkdir. destruct (key name) as [k|]; [|by intros [= <- _]].
  destruct (lookup_node t k) eqn:Hk; [by intros [= <- _]|].
  destruct (lookup_node t (parent k)) as [[|]|]; intros [= <- _]; try done.
  apply insert_subseteq. by apply lookup_node_None.
Qed.

(** Same home, same quota, the tree only grows, and only calls satisfying
    [P] are added to the log. *)
Definition steps (P : call -> Prop) (w w' : World) : Prop :=
  homeDir w' = homeDir w /\ homeOpens w' = homeOpens w /\ quota w' = quota w /\
  files w ⊆ files w' /\
  exists new, calls w' = new ++ calls w /\ Forall (fun ct => P (fst ct)) new.

Lemma steps_refl P w : steps P w w.
Proof. repeat split; try done. by exists []. Qed.

Lemma steps_trans P w1 w2 w3 : steps P w1 w2 -> steps P w2 w3 -> steps P w1 w3.
Proof.
  intros (? & ? & ? & ? & n1 & E1 & F1) (? & ? & ? & ? & n2 & E2 & F2).
  repeat split; try congruence; [by etrans|].
  exists (n2 ++ n1). split; [by rewrite E2, E1, app_assoc|].
  by apply Forall_app.
Qed.

Lemma steps_weaken (P Q : call -> Prop) w w' :
  (forall c, P c -> Q c) -> steps P w w' -> steps Q w w'.
Proof.
  intros HPQ (? & ? & ? & ? & n & E & F). repeat split; try done.
  exists n. split; [done|]. eapply Forall_impl; [exact F|]. intros ct. apply HPQ.
Qed.

Lemma Stat_steps name w : steps prep_call w (snd (Stat name w)).
Proof. repeat split; try done. by exists [(CStat name, files w)]; split; [|repeat constructor]. Qed.

Lemma Mkdir_steps name w : steps prep_call w (snd (Mkdir name w)).
Proof.
  unfold Mkdir. destruct (mkdir (files w) name) as [t e] eqn:E.
  repeat split; try done; [by eapply mkdir_grows|].
  by exists [(CMkdir name, t)]; split; [|repeat constructor].
Qed.

Lemma mkdirs_steps segs d w : steps prep_call w (snd (mkdirs segs d w)).
Proof.
  revert d w. induction segs as [|s segs IH]; intros d w; [apply steps_refl|].
  cbn [mkdirs]. unfold mbind, M_bind, bind.
  pose proof (Stat_steps (d ++ s ++ "/")%string w) as H1.
  destruct (Stat (d ++ s ++ "/")%string w) as [e1 w1]; cbn [snd] in H1.
  destruct (IsNotExist e1).
  - pose proof (Mkdir_steps (d ++ s ++ "/")%string w1) as H2.
    destruct (Mkdir (d ++ s ++ "/")%string w1) as [e2 w2]; cbn [snd] in H2.
    destruct e2; [by eapply steps_trans|].
    eapply steps_trans; [|apply IH]. by eapply steps_trans.
  - eapply steps_trans; [exact H1|apply IH].
Qed.

Lemma open_trunc_Ok t name t' k :
  open_trunc t name = (t', Ok k) -> key name = Some k /\ t' = <[k := NFile []]> t.
Proof.
  unfold open_trunc. destruct (key name) as [k'|]; [|done].
  destruct (lookup_node t k') as [[|d]|]; [done| |].
  - by intros [= <- <-].
  - destruct (lookup_node t (parent k')) as [[|]|]; [|done..]. by intros [= <- <-].
Qed.

Lemma open_trunc_Err t name t' e : open_trunc t name = (t', Err e) -> t' = t.
Proof.
  unfold open_trunc. destruct (key name) as [k'|]; [|by intros [= <-]].
  destruct (lookup_node t k') as [[|d]|]; [by intros [= <-]|done|].
  destruct (lookup_node t (parent k')) as [[|]|]; [done|by intros [= <-]..].
Qed.

(** A write that reports no error has stored the whole buffer. *)
Lemma write_complete t q k buf t' q' :
  t !! k = Some (NFile []) ->
  write t q k buf = (t', q', None) -> t' = <[k := NFile buf]> t.
Proof.
  unfold write. intros ->. cbn [app].
  destruct q as [room|]; cbn [option_map].
  - destruct (Nat.ltb_spec (Nat.min room (length buf)) (length buf)); [done|].
    intros [= <- _]. by rewrite firstn_all2 by lia.
  - rewrite Nat.ltb_irrefl. intros [= <- _]. by rewrite firstn_all.
Qed.

(** The name [safeWrite] hands to the root: the path without the home
    directory in front. *)
Definition target (path : string) (w : World) : string :=
  fst (Strings.CutPrefix path (homeDir w ++ "/")%string).

(** What a run of [safeWrite] leaves in the log.  On success the last
    four calls are the opening of the target itself, which empties it, the
    write into it, and the two closes; everything before only looks up
    or creates directories. *)
Lemma safeWrite_run path buf w err w' :
  safeWrite path buf w = (err, w') ->
  (exists new, calls w' = new ++ calls w /\
               Forall (fun ct => in_place_call (fst ct)) new) /\
  (err = None ->
   exists k t0 prep,
     key (target path w) = Some k /\ files w ⊆ t0 /\
     Forall (fun ct => prep_call (fst ct)) prep /\
     calls w' = (CRootClose, <[k := NFile buf]> t0)
                :: (CClose (target path w), <[k := NFile buf]> t0)
                :: (CWrite (target path w) buf, <[k := NFile buf]> t0)
                :: (COpenFile (target path w), <[k := NFile []]> t0)
                :: prep ++ calls w /\
     files w' = <[k := NFile buf]> t0).
Proof.
  unfold safeWrite, mbind, M_bind, bind, mret, M_ret, ret, HomeDir.
  unfold OpenRoot. set (name := target path w).
  set (w1 := logged (COpenRoot (homeDir w)) (files w) (quota w) w).
  assert (steps prep_call w w1) as S1.
  { repeat split; try done. by exists [(COpenRoot (homeDir w), files w)]; split; [|repeat constructor]. }
  destruct (homeOpens w).
  2:{ intros [= <- <-]. split; [|done].
      by exists [(COpenRoot (homeDir w), files w)]; split; [|repeat constructor]. }
  cbv beta zeta iota.
  change (fst (Strings.CutPrefix path (homeDir w ++ "/")%string)) with name.
  pose proof (Stat_steps (filepath.Dir name) w1) as S2.
  destruct (Stat (filepath.Dir name) w1) as [e1 w2]; cbn [snd] in S2.
  assert (exists e2 w3,
    (if IsNotExist e1 then mkdirs (Strings.Split (filepath.Dir name) "/") ""
     else fun w => (None, w)) w2 = (e2, w3) /\ steps prep_call w2 w3)
    as (e2 & w3 & -> & S3).
  { destruct (IsNotExist e1).
    - pose proof (mkdirs_steps (Strings.Split (filepath.Dir name) "/") "" w2) as H.
      destruct (mkdirs _ _ w2) as [e2 w3]. eauto.
    - eexists _, _. split; [done|apply steps_refl]. }
  pose proof (steps_trans _ _ _ _ S1 (steps_trans _ _ _ _ S2 S3))
    as (_ & _ & _ & Hsub & prep & Hcalls & Hprep).
  assert (Forall (fun ct : call * tree => in_place_call (fst ct)) prep) as Hprep'.
  { eapply Forall_impl; [exact Hprep|]. intros ct. apply prep_in_place. }
  destruct e2 as [e|].
  { unfold RootClose. intros [= <- <-]. split; [|done]. cbn [calls logged].
    exists ((CRootClose, files w3) :: prep). split; [by rewrite Hcalls|].
    by constructor. }
  unfold OpenFile.
  destruct (open_trunc (files w3) name) as [t1 [k|e]] eqn:Hopen.
  2:{ unfold RootClose. intros [= <- <-]. split; [|done]. cbn [calls logged].
      exists ((CRootClose, t1) :: (COpenFile name, t1) :: prep).
      split; [by rewrite Hcalls|]. by repeat constructor. }
  apply open_trunc_Ok in Hopen as [Hkey ->].
  unfold Write. cbn [files quota logged].
  destruct (write (<[k:=NFile []]> (files w3)) (quota w3) k buf) as [[t2 q2] e3] eqn:Hwrite.
  unfold Close, RootClose. cbn [files quota calls logged].
  intros [= <- <-]. cbn [calls logged]. split.
  - exists ((CRootClose, t2) :: (CClose name, t2) :: (CWrite name buf, t2)
            :: (COpenFile name, <[k:=NFile []]> (files w3)) :: prep).
    split; [by rewrite Hcalls|]. by repeat constructor.
  - intros ->. apply write_complete in Hwrite; [|by rewrite lookup_insert_eq].
    rewrite insert_insert_eq in Hwrite. subst t2.
    exists k, (files w3), prep. by rewrite Hcalls.
Qed.

Lemma read_insert t name k data :
  key name = Some k -> read (<[k := NFile data]> t) name = Some data.
Proof. unfold read. intros ->. by rewrite lookup_insert_eq. Qed.

Lemma read_insert_other t name other k node d :
  key name = Some k -> key other <> key name ->
  read t other = Some d -> read (<[k := node]> t) other = Some d.
Proof.
  unfold read. intros Hk Hne. rewrite Hk in Hne.
  destruct (key other) as [k'|]; [|done].
  rewrite lookup_insert_ne by congruence. done.
Qed.

Lemma read_grows t t' name d : t ⊆ t' -> read t name = Some d -> read t' name = Some d.
Proof.
  unfold read. intros Hsub. destruct (key name) as [k|]; [|done].
  destruct (t !! k) as [[|d']|] eqn:E; try done.
  intros [= ->]. by rewrite (lookup_weaken _ _ _ _ E Hsub).
Qed.

(** After a successful [safeWrite] a reader of the target finds the
    buffer. *)
Lemma safeWrite_stores path buf w w' :
  safeWrite path buf w = (None, w') -> read (files w') (target path w) = Some buf.
Proof.
  intros Hrun. apply safeWrite_run in Hrun as [_ Hok].
  destruct (Hok eq_refl) as (k & t0 & prep & Hk & _ & _ & _ & ->).
  by apply read_insert.
Qed.

(** Nothing on the way to [k] is a file. *)
Definition clear_way (t : tree) (k : list string) : Prop :=
  forall p d, p `prefix_of` k -> t !! p <> Some (NFile d).

(** The disk accepts [n] more bytes. *)
Definition room (w : World) (n : nat) : Prop :=
  match quota w with
  | None => True
  | Some q => (n <= q)%nat
  end.

Lemma lookup_node_snoc t p s : lookup_node t (p ++ [s]) = t !! (p ++ [s]).
Proof. by destruct p. Qed.

Lemma parent_snoc p s : parent (p ++ [s]) = p.
Proof. apply removelast_last. Qed.

Lemma prefix_snoc (p : list string) s rest : (p ++ [s]) `prefix_of` (p ++ s :: rest).
Proof. exists rest. by rewrite <- app_assoc. Qed.

(** The loop of [safeWrite] over the components of the directory: it fails
    nowhere when no file is in the way, leaves the directory in place, and
    touches nothing off the way. *)
Lemma mkdirs_plain segs pre w :
  Forall (fun c => plain c = true) (pre ++ segs) ->
  lookup_node (files w) pre = Some NDir ->
  clear_way (files w) (pre ++ segs) ->
  exists w',
    mkdirs segs (slashed pre) w = (None, w') /\
    quota w' = quota w /\
    lookup_node (files w') (pre ++ segs) = Some NDir /\
    (forall k, ~ k `prefix_of` (pre ++ segs) -> files w' !! k = files w !! k).
Proof.
  revert pre w. induction segs as [|s rest IH]; intros pre w Hall Hpre Hway.
  - exists w. rewrite app_nil_r. by repeat split.
  - assert (pre ++ s :: rest = (pre ++ [s]) ++ rest) as E by by rewrite <- app_assoc.
    assert (Forall (fun c => plain c = true) (pre ++ [s])) as Hps.
    { rewrite E in Hall. by apply Forall_app in Hall as [? _]. }
    cbn [mkdirs]. rewrite <- slashed_snoc.
    unfold mbind, M_bind, bind, Stat, stat. rewrite key_slashed by done.
    rewrite lookup_node_snoc.
    destruct (files w !! (pre ++ [s])) as [[|d]|] eqn:Hk.
    + cbn [IsNotExist].
      destruct (IH (pre ++ [s]) (logged (CStat (slashed (pre ++ [s]))) (files w) (quota w) w))
        as (w' & Hrun & Hq & Hdir & Hframe).
      * by rewrite <- E.
      * by rewrite lookup_node_snoc.
      * by rewrite <- E.
      * exists w'. rewrite E. by repeat split.
    + exfalso. eapply Hway; [apply prefix_snoc|exact Hk].
    + unfold missing. rewrite parent_snoc, Hpre. cbn [IsNotExist].
      unfold Mkdir, mkdir. cbn [files logged]. rewrite key_slashed by done.
      rewrite lookup_node_snoc, Hk, parent_snoc, Hpre.
      set (w2 := logged _ (<[pre ++ [s] := NDir]> (files w)) _ _).
      destruct (IH (pre ++ [s]) w2) as (w' & Hrun & Hq & Hdir & Hframe).
      * by rewrite <- E.
      * rewrite lookup_node_snoc. apply lookup_insert_eq.
      * rewrite <- E. intros p d Hp. cbn [w2 files logged].
        destruct (decide (p = pre ++ [s])) as [->|Hne].
        -- by rewrite lookup_insert_eq.
        -- rewrite lookup_insert_ne by done. by apply Hway.
      * exists w'. rewrite E. repeat split; try done.
        intros k Hk'. rewrite Hframe by done. cbn [w2 files logged].
        apply lookup_insert_ne. intros <-. apply Hk'. rewrite <- E. apply prefix_snoc.
Qed.

Lemma write_fits t q k buf :
  match q with None => True | Some r => (length buf <= r)%nat end ->
  snd (write t q k buf) = None.
Proof.
  unfold write. cbn [snd]. destruct q as [r|]; intros Hr.
  - rewrite Nat.min_r by done. by rewrite Nat.ltb_irrefl.
  - by rewrite Nat.ltb_irrefl.
Qed.

Lemma not_prefix_snoc (cs : list string) f : ~ (cs ++ [f]) `prefix_of` cs.
Proof.
  intros [k Hk]. apply (f_equal length) in Hk. rewrite !length_app in Hk. cbn in Hk. lia.
Qed.

Lemma parent_prefix (k : list string) : parent k `prefix_of` k.
Proof.
  destruct k as [|c k]; [done|].
  exists [List.last (c :: k) c]. by apply app_removelast_last.
Qed.

Lemma lookup_node_file t k d : lookup_node t k = Some (NFile d) -> t !! k = Some (NFile d).
Proof. by destruct k. Qed.

Lemma missing_clear_way t k : clear_way t k -> missing t k = ErrNotExist.
Proof.
  intros Hway. unfold missing.
  destruct (lookup_node t (parent k)) as [[|d]|] eqn:Hp; try done.
  exfalso. apply lookup_node_file in Hp. by eapply Hway; [apply parent_prefix|].
Qed.

(** Directories on demand.  For a target of plain components below the
    home directory, with no file in the way, a target that is not itself a
    directory and room for the bytes, [safeWrite] returns nil; afterwards
    the directory of the target exists and the target holds the bytes. *)
Lemma safeWrite_creates_path cs f path buf w :
  Forall (fun c => plain c = true) cs -> plain f = true ->
  homeOpens w = true ->
  target path w = Strings.Join (cs ++ [f]) "/" ->
  clear_way (files w) cs ->
  files w !! (cs ++ [f]) <> Some NDir ->
  room w (length buf) ->
  exists w',
    safeWrite path buf w = (None, w') /\
    lookup_node (files w') cs = Some NDir /\
    read (files w') (target path w) = Some buf.
Proof.
  intros Hcs Hf Hopen Hname Hway Hnotdir Hroom.
  assert (Forall (fun c => plain c = true) (cs ++ [f])) as Hall
    by (apply Forall_app; split; [done|by constructor]).
  assert (key (target path w) = Some (cs ++ [f])) as Hkey.
  { rewrite Hname. apply key_Join; [by destruct cs|done]. }
  assert (exists w', safeWrite path buf w = (None, w') /\
                     lookup_node (files w') cs = Some NDir) as (w' & Hrun & Hdir).
  2:{ exists w'. split; [done|]. split; [done|]. by eapply safeWrite_stores. }
  unfold safeWrite, mbind, M_bind, bind, mret, M_ret, ret, HomeDir, OpenRoot.
  rewrite Hopen. cbv beta zeta iota.
  change (fst (Strings.CutPrefix path (homeDir w ++ "/")%string)) with (target path w).
  rewrite Hname, Dir_Join by done.
  set (w1 := logged (COpenRoot (homeDir w)) (files w) (quota w) w).
  unfold Stat, stat. rewrite key_dir_of by done.
  set (w2 := logged (CStat (dir_of cs)) (files w1) (quota w1) w1).
  assert (exists w3,
    (if IsNotExist match lookup_node (files w1) cs with
                   | Some _ => None
                   | None => Some (missing (files w1) cs)
                   end
     then mkdirs (Strings.Split (dir_of cs) "/") ""
     else fun w => (None, w)) w2 = (None, w3) /\
    quota w3 = quota w /\
    lookup_node (files w3) cs = Some NDir /\
    files w3 !! (cs ++ [f]) = files w !! (cs ++ [f])) as (w3 & -> & Hq & Hdir & Hsame).
  { destruct (lookup_node (files w1) cs) as [[|d]|] eqn:Hcsn.
    - exists w2. by repeat split.
    - exfalso. destruct cs as [|c cs']; [done|]. by eapply (Hway (c :: cs')).
    - destruct cs as [|c cs']; [done|].
      rewrite missing_clear_way by done. cbn [IsNotExist].
      rewrite Split_dir_of by done.
      destruct (mkdirs_plain (c :: cs') [] w2) as (w3 & Hrun & Hq & Hdir & Hframe); try done.
      exists w3. repeat split; try done.
      apply (Hframe ((c :: cs') ++ [f])). apply not_prefix_snoc. }
  rewrite Hname in Hkey.
  unfold OpenFile, open_trunc. rewrite Hkey, lookup_node_snoc, Hsame, parent_snoc, Hdir.
  set (name := Strings.Join (cs ++ [f]) "/").
  set (t4 := <[cs ++ [f] := NFile []]> (files w3)).
  assert (match files w !! (cs ++ [f]) with
          | Some NDir => (files w3, Err ErrIsDir)
          | _ => (t4, Ok (cs ++ [f]))
          end = (t4, Ok (cs ++ [f]))) as ->.
  { by destruct (files w !! (cs ++ [f])) as [[|d]|]. }
  unfold Write. cbn [files quota logged].
  pose proof (write_fits t4 (quota w3) (cs ++ [f]) buf) as Hfits.
  destruct (write t4 (quota w3) (cs ++ [f]) buf) as [[t5 q5] e5] eqn:Hwrite.
  cbn [snd] in Hfits. rewrite Hfits by (rewrite Hq; exact Hroom).
  unfold Close, RootClose. cbn [files quota logged].
  eexists. split; [reflexivity|]. cbn [files].
  unfold write in Hwrite. injection Hwrite as <- _ _.
  destruct cs as [|c cs']; [reflexivity|]. cbn [files logged].
  change (lookup_node ?t (c :: cs')) with (t !! (c :: cs')) in *.
  unfold t4. rewrite !lookup_insert_ne; [done|..];
    intros E; apply (f_equal length) in E; rewrite length_app in E; cbn in E; lia.
Qed.

(** C3 (amended). [safeWrite] writes in place through the root-restricted
    API: it creates missing directories, opens the target itself with
    create-and-truncate, writes and closes; it renames nothing.  When it
    returns nil the target holds exactly the buffer and every other file is
    as before, but between the open and the write the target is empty.
    And it does return nil, with the directory of the target in place,
    when the target is a path of plain components below the home
    directory, no file is in the way, the target is not a directory and
    the disk has room. *)
Theorem safeWrite_in_place (path : string) (buf : list byte) (w : World) :
  let name := target path w in
  let err := fst (safeWrite path buf w) in
  let w' := snd (safeWrite path buf w) in
  (exists new, calls w' = new ++ calls w /\
               Forall (fun ct => in_place_call (fst ct)) new) /\
  (err = None ->
   read (files w') name = Some buf /\
   (forall other d, key other <> key name ->
      read (files w) other = Some d -> read (files w') other = Some d) /\
   exists t1 t2 prep,
     calls w' = (CRootClose, t2) :: (CClose name, t2) :: (CWrite name buf, t2)
                :: (COpenFile name, t1) :: prep ++ calls w /\
     Forall (fun ct => prep_call (fst ct)) prep /\
     read t1 name = Some [] /\ read t2 name = Some buf) /\
  (forall cs f,
     Forall (fun c => plain c = true) cs -> plain f = true ->
     homeOpens w = true -> name = Strings.Join (cs ++ [f]) "/" ->
     clear_way (files w) cs -> files w !! (cs ++ [f]) <> Some NDir ->
     room w (length buf) ->
     err = None /\ lookup_node (files w') cs = Some NDir).
Proof.
  intros name err w'.
  destruct (safeWrite path buf w) as [e w1] eqn:Hrun.
  pose proof Hrun as Hrun'.
  apply safeWrite_run in Hrun as [Hcalls Hok]. subst err w'. cbn [fst snd].
  split; [exact Hcalls|]. split.
  - intros ->.
    destruct (Hok eq_refl) as (k & t0 & prep & Hk & Hsub & Hprep & Hlog & Hfiles).
    fold name in Hk, Hlog. rewrite Hfiles. split; [|split].
    + by apply read_insert.
    + intros other d Hne Hd. eapply read_insert_other; [done..|].
      by eapply read_grows.
    + exists (<[k:=NFile []]> t0), (<[k:=NFile buf]> t0), prep.
      repeat split; try done; by apply read_insert.
  - intros cs f Hcs Hf Hopen Hname Hway Hnotdir Hroom.
    destruct (safeWrite_creates_path cs f path buf w) as (w2 & Hrun2 & Hdir & _);
      try done.
    rewrite Hrun' in Hrun2. by injection Hrun2 as -> ->.
Qed.

End SafeWrite.

(** *** One pull *)
Section Pull.

Context {V : Type}.
Implicit Types (f : fetcher V) (w : World).

Lemma bytes_Equal_eq (a b : list byte) : bytes_Equal a b = true <-> a = b.
Proof.
  revert b. induction a as [|x a IH]; intros [|y b]; cbn; try done.
  rewrite andb_true_iff, IH. split.
  - intros [Hxy ->]. by rewrite (Byte.byte_dec_bl _ _ Hxy).
  - intros [= -> ->]. split; [by apply Byte.byte_dec_lb|done].
Qed.

(** How a pull persists: a file vehicle is its own store, any other
    vehicle is written with [safeWrite]. *)
Definition persist f (buf : list byte) : M (option error) :=
  if decide (Type_ (vehicle f) = File) then mret None
  else safeWrite (Path (vehicle f)) buf.

(** What the pull does with a changed payload. *)
Definition notify f (elm : V) : M unit :=
  match onUpdate f with
  | Some callback => callback elm
  | None => mret tt
  end.

(** C1 (amended). For a pull whose read succeeds: when the checksum equals
    the stored one, the fetcher gets the new timestamp, the file's times are
    touched, and nothing else happens (no parse result is used, nothing is
    written, [onUpdate] is not run).  When it differs and parsing or
    persisting fails, the fetcher is left as it was and [onUpdate] is not
    run.  When it differs and both succeed, the fetcher records checksum
    and timestamp, the world is the one left by persisting followed by a
    single run of [onUpdate] (when one is set) on the parsed value, and for
    a vehicle other than a file the target then holds the fetched bytes. *)
Theorem update_pull f (now : Z) w :
  match Read (vehicle f) w with
  | (Err _, w1) => update f now w = (f, w1)
  | (Ok buf, w1) =>
      (hash f = md5.Sum buf ->
       update f now w =
         (with_updatedAt f now, snd (Chtimes (Path (vehicle f)) now w1))) /\
      (hash f <> md5.Sum buf ->
       match parser f buf with
       | Err _ => update f now w = (f, w1)
       | Ok elm =>
           match persist f buf w1 with
           | (Some _, w2) => update f now w = (f, w2)
           | (None, w2) =>
               update f now w =
                 (with_hash (with_updatedAt f now) (md5.Sum buf),
                  snd (notify f elm w2)) /\
               (Type_ (vehicle f) <> File ->
                read (files w2) (target (Path (vehicle f)) w1) = Some buf)
           end
       end)
  end.
Proof.
  unfold update, Update, mbind, M_bind, bind, mret, M_ret, ret.
  destruct (Read (vehicle f) w) as [[buf|e] w1]; [|done].
  destruct (bytes_Equal (hash f) (md5.Sum buf)) eqn:Heq.
  - apply bytes_Equal_eq in Heq. split; [|done]. intros _.
    by destruct (Chtimes (Path (vehicle f)) now w1).
  - split; [intros E; apply bytes_Equal_eq in E; congruence|]. intros _.
    destruct (parser f buf) as [elm|e]; [|done].
    unfold persist, notify, mret, M_ret, ret.
    destruct (decide (Type_ (vehicle f) = File)) as [HF|HF].
    + split; [|done]. cbn. by destruct (onUpdate f) as [cb|]; [destruct (cb elm w1)|].
    + destruct (safeWrite (Path (vehicle f)) buf w1) as [[e|] w2] eqn:Hsw; [done|].
      apply safeWrite_stores in Hsw as Hread.
      split; [|done]. cbn.
      by destruct (onUpdate f) as [cb|]; [destruct (cb elm w2)|].
Qed.

End Pull.

Definition empty_world : World := mkWorld ∅ None "/home/u" true [].

Definition no_vehicle : Vehicle :=
  mkVehicle (mret (Err (ErrMsg "offline"))) "/home/u/providers/p.yaml" false HTTP.

Definition fresh_fetcher : fetcher nat :=
  newFetcher "p" 3600 no_vehicle (fun _ => Ok 0%nat) None 7.

(** A provider file that is already cached. *)
Definition cached_world : World :=
  mkWorld (<[ ["providers"; "p.yaml"] := NFile (bytes_of "old") ]>
           (<[ ["providers"] := NDir ]> ∅))
          None "/home/u" true [].

(** C3, as stated, fails: replacing the cached file issues no rename and
    writes no temporary file; the calls are exactly those listed (latest
    first), and a reader between the open and the write finds the target
    empty, neither the old nor the new contents. *)
Lemma safeWrite_not_atomic :
  let r := safeWrite "/home/u/providers/p.yaml" (bytes_of "new") cached_world in
  fst r = None /\
  map fst (calls (snd r)) =
    [ CRootClose; CClose "providers/p.yaml";
      CWrite "providers/p.yaml" (bytes_of "new");
      COpenFile "providers/p.yaml"; CStat "providers"; COpenRoot "/home/u" ] /\
  map (fun ct => read (snd ct) "providers/p.yaml") (calls (snd r)) =
    [ Some (bytes_of "new"); Some (bytes_of "new"); Some (bytes_of "new");
      Some []; Some (bytes_of "old"); Some (bytes_of "old") ].
Proof. vm_compute. repeat split. Qed.

(** Missing directories are created one component at a time. *)
Example safeWrite_creates_directories :
  let r := safeWrite "/home/u/providers/sub/p.yaml" (bytes_of "new") empty_world in
  fst r = None /\
  map fst (calls (snd r)) =
    [ CRootClose; CClose "providers/sub/p.yaml";
      CWrite "providers/sub/p.yaml" (bytes_of "new");
      COpenFile "providers/sub/p.yaml";
      CMkdir "providers/sub/"; CStat "providers/sub/";
      CMkdir "providers/"; CStat "providers/";
      CStat "providers/sub"; COpenRoot "/home/u" ] /\
  files (snd r) !! ["providers"] = Some NDir /\
  files (snd r) !! ["providers"; "sub"] = Some NDir /\
  read (files (snd r)) "providers/sub/p.yaml" = Some (bytes_of "new").
Proof. vm_compute. repeat split. Qed.

(** The same from the general statement, on a disk with room for the
    three bytes. *)
Example safeWrite_creates_path_demo :
  let w := mkWorld ∅ (Some 3%nat) "/home/u" true [] in
  exists w',
    safeWrite "/home/u/providers/sub/p.yaml" (bytes_of "new") w = (None, w') /\
    lookup_node (files w') ["providers"; "sub"] = Some NDir /\
    read (files w') "providers/sub/p.yaml" = Some (bytes_of "new").
Proof.
  apply (safeWrite_creates_path ["providers"; "sub"] "p.yaml"); try done.
  - by repeat constructor.
  - cbn. lia.
Qed.

(** A full disk leaves a cut-off file behind. *)
Example safeWrite_short_write :
  let w := mkWorld (files cached_world) (Some 2%nat) "/home/u" true [] in
  let r := safeWrite "/home/u/providers/p.yaml" (bytes_of "new") w in
  fst r = Some ErrNoSpace /\
  read (files (snd r)) "providers/p.yaml" = Some (bytes_of "ne").
Proof. vm_compute. repeat split. Qed.

(** A remote provider with a cached payload ["old"], a parser that accepts
    payloads starting with the letter p, and a callback that marks the log. *)
Definition parse_demo (buf : list byte) : result nat :=
  match buf with
  | x70 :: _ => Ok (length buf)
  | _ => Err (ErrMsg "yaml: unmarshal errors")
  end.

Definition remote (payload : string) : Vehicle :=
  mkVehicle (mret (Ok (bytes_of payload))) "/home/u/providers/p.yaml" false HTTP.

Definition cached_fetcher (payload : string) : fetcher nat :=
  with_hash
    (newFetcher "p" 3600 (remote payload) parse_demo
       (Some (fun _ => Callback "onUpdate")) 7)
    (md5.Sum (bytes_of "old")).

(** C1, as stated, fails: the fetched bytes differ in checksum from the
    stored payload, yet they are not persisted and [onUpdate] is not run,
    because they do not parse.  Fetcher and world are left as they were. *)
Lemma update_unparsable_payload :
  let f := cached_fetcher "garbage" in
  fst (Read (vehicle f) cached_world) = Ok (bytes_of "garbage") /\
  hash f <> md5.Sum (bytes_of "garbage") /\
  parser f (bytes_of "garbage") = Err (ErrMsg "yaml: unmarshal errors") /\
  update f 100 cached_world = (f, cached_world).
Proof.
  split; [reflexivity|]. split; [vm_compute; discriminate|].
  split; [reflexivity|]. vm_compute. reflexivity.
Qed.

(** The scenario of the specification: identical bytes touch the file
    times only; new bytes are persisted and reported once. *)
Example update_identical_bytes :
  let f := cached_fetcher "old" in
  let r := update f 100 cached_world in
  fst r = with_updatedAt f 100 /\
  map fst (calls (snd r)) = [CChtimes "/home/u/providers/p.yaml" 100] /\
  read (files (snd r)) "providers/p.yaml" = Some (bytes_of "old").
Proof. vm_compute. repeat split. Qed.

Example update_new_bytes :
  let f := cached_fetcher "proxies: []" in
  let r := update f 100 cached_world in
  fst r = with_hash (with_updatedAt f 100) (md5.Sum (bytes_of "proxies: []")) /\
  map fst (calls (snd r)) =
    [ CCallback "onUpdate"; CRootClose; CClose "providers/p.yaml";
      CWrite "providers/p.yaml" (bytes_of "proxies: []");
      COpenFile "providers/p.yaml"; CStat "providers"; COpenRoot "/home/u" ] /\
  read (files (snd r)) "providers/p.yaml" = Some (bytes_of "proxies: []").
Proof. vm_compute. repeat split. Qed.

Lemma safeWrite_in_place_witness :
  let r := safeWrite "/home/u/providers/p.yaml" (bytes_of "new") cached_world in
  fst r = None /\
  read (files (snd r)) "providers/p.yaml" = Some (bytes_of "new").
Proof.
  assert (fst (safeWrite "/home/u/providers/p.yaml" (bytes_of "new") cached_world) = None)
    as Hnil by (vm_compute; reflexivity).
  split; [exact Hnil|].
  exact (proj1 (proj1 (proj2 (safeWrite_in_place "/home/u/providers/p.yaml"
                                (bytes_of "new") cached_world)) Hnil)).
Defined.

Lemma update_pull_witness :
  let f := cached_fetcher "proxies: []" in
  fst (update f 100 cached_world)
  = with_hash (with_updatedAt f 100) (md5.Sum (bytes_of "proxies: []")).
Proof.
  cbv zeta.
  pose proof (update_pull (cached_fetcher "proxies: []") 100 cached_world) as H.
  change (Read (vehicle (cached_fetcher "proxies: []")) cached_world)
    with (Ok (bytes_of "proxies: []"), cached_world) in H.
  cbv beta iota in H. destruct H as [_ H].
  assert (hash (cached_fetcher "proxies: []") <> md5.Sum (bytes_of "proxies: []")) as Hne
    by (vm_compute; discriminate).
  specialize (H Hne).
  change (parser (cached_fetcher "proxies: []") (bytes_of "proxies: []"))
    with (Ok 11%nat : result nat) in H.
  cbv beta iota in H.
  destruct (persist (cached_fetcher "proxies: []") (bytes_of "proxies: []") cached_world)
    as [[e|] w2] eqn:Hp.
  - exfalso. revert Hp. vm_compute. discriminate.
  - destruct H as [H _]. by rewrite H.
Defined.





(** With two slots the second call would queue a second value. *)
Example Destroy_two_slots :
  let f := with_done fresh_fetcher (Chan.make 2) in
  exists f1 f2 w1 w2,
    Destroy f empty_world = Some (None, f1, w1) /\
    Destroy f1 w1 = Some (None, f2, w2) /\ f2 <> f1.
Proof.
  eexists _, _, _, _. split; [reflexivity|]. split; [reflexivity|].
  intros H. by apply (f_equal (fun f => Chan.queued (done f))) in H.
Qed.

End ProviderFacts.

Module RouteFacts.

Import Route.
Local Open Scope string_scope.

Lemma neqb_true a b : neqb a b = true <-> a <> b.
Proof.
  unfold neqb. destruct (String.eqb_spec a b); cbn; split; try done.
Qed.

Lemma neqb_false a b : neqb a b = false <-> a = b.
Proof.
  unfold neqb. destruct (String.eqb_spec a b); cbn; split; try done.
Qed.

Lemma compare_ok x y : negb (ConstantTimeCompare x y =? 1)%Z = false <-> x = y.
Proof.
  unfold ConstantTimeCompare. destruct (String.eqb_spec x y); cbn; split; try done.
Qed.

(** [strings.Cut] finds the first separator. *)
Lemma Cut_found s sep before after :
  Strings.Cut s sep = (before, after, true) ->
  s = before ++ String sep after.
Proof.
  revert before. induction s as [|c s IH]; intros before; cbn; [done|].
  destruct (Ascii.eqb_spec c sep) as [->|Hne].
  - by intros [= <- <-].
  - destruct (Strings.Cut s sep) as [[b a] [|]]; [|done].
    intros [= <- <-]. change (String c s = String c (b ++ String sep a)).
    f_equal. by apply IH.
Qed.

Lemma Cut_Bearer secret :
  Strings.Cut ("Bearer " ++ secret) " " = ("Bearer", secret, true).
Proof. reflexivity. Qed.

Lemma Cut_empty sep : Strings.Cut "" sep = ("", "", false).
Proof. reflexivity. Qed.

(** C4 (amended). With an empty secret every request is passed on.  With
    a non-empty secret a request is passed on exactly in these cases: it is
    a WebSocket upgrade with a non-empty token parameter, and that token is
    the secret; or it is not such an upgrade and its Authorization header
    is "Bearer " followed by the secret; or it is not such an upgrade, has
    no Authorization header, and its token parameter is the secret.
    Every other request is answered 401. *)
Theorem authentication_cases (secret : string) (r : Request) :
  (secret = "" -> authentication secret r = Next) /\
  (secret <> "" ->
   let upgrade_with_token :=
     IsWebSocketUpgrade r = true /\ Get (Query r) "token" <> "" in
   (authentication secret r = Next \/
    authentication secret r = Rendered StatusUnauthorized) /\
   (authentication secret r = Next <->
    (upgrade_with_token /\ token_query secret r) \/
    (~ upgrade_with_token /\ bearer_header secret r) \/
    (~ upgrade_with_token /\ Get (Header r) "Authorization" = "" /\
     token_query secret r))).
Proof.
  split; [by intros ->|]. intros Hsecret upgrade_with_token.
  unfold authentication, token_query, bearer_header.
  destruct secret as [|c secret]; [done|]. cbn [String.length Nat.eqb].
  set (s := String c secret) in *.
  assert (upgrade_with_token <->
          IsWebSocketUpgrade r && neqb (Get (Query r) "token") "" = true) as Hup.
  { unfold upgrade_with_token. by rewrite andb_true_iff, neqb_true. }
  destruct (IsWebSocketUpgrade r && neqb (Get (Query r) "token") "") eqn:Hws.
  - (* upgrade with a token *)
    destruct (negb (ConstantTimeCompare (Get (Query r) "token") s =? 1)%Z) eqn:Hc.
    + split; [by right|]. split; [done|].
      intros [[_ Ht]|[[Hn _]|[Hn _]]]; [|by destruct Hn; apply Hup..].
      apply compare_ok in Ht. congruence.
    + split; [by left|]. split; [|done]. intros _. left.
      split; [by apply Hup|]. by apply compare_ok.
  - (* every other request *)
    assert (~ upgrade_with_token) as Hnup by (rewrite Hup; done).
    destruct (String.eqb_spec (Get (Header r) "Authorization") "") as [Hh|Hh].
    + (* no header: the token parameter decides *)
      rewrite Hh, Cut_empty. cbn [neqb String.eqb negb andb orb].
      destruct (neqb (Get (Query r) "token") "") eqn:Ht.
      * cbn [negb orb].
        destruct (negb (ConstantTimeCompare (Get (Query r) "token") s =? 1)%Z) eqn:Hc.
        -- split; [by right|]. split; [done|].
           intros [[? _]|[[_ Hb]|[_ [_ Hq]]]]; [done|done|].
           apply compare_ok in Hq. congruence.
        -- split; [by left|]. split; [|done]. intros _. right; right.
           split; [done|]. split; [done|]. by apply compare_ok.
      * cbn [negb orb]. split; [by right|]. split; [done|].
        apply neqb_false in Ht.
        intros [[? _]|[[_ Hb]|[_ [_ Hq]]]]; [done|done|]. congruence.
    + (* a header: it must be Bearer and carry the secret *)
      destruct (Strings.Cut (Get (Header r) "Authorization") " ")
        as [[bearer token] found] eqn:Hcut.
      assert (neqb (Get (Header r) "Authorization") "" = true) as ->
        by by apply neqb_true.
      cbn [andb].
      destruct (neqb bearer "Bearer") eqn:Hb; cbn [orb].
      * split; [by right|]. split; [done|].
        intros [[? _]|[[_ Hbh]|[_ [? _]]]]; [done| |done].
        rewrite Hbh, Cut_Bearer in Hcut. injection Hcut as <- _ _.
        by apply neqb_true in Hb.
      * apply neqb_false in Hb. subst bearer.
        destruct found; cbn [negb orb].
        -- apply Cut_found in Hcut.
           destruct (negb (ConstantTimeCompare token s =? 1)%Z) eqn:Hc.
           ++ split; [by right|]. split; [done|].
              intros [[? _]|[[_ Hbh]|[_ [? _]]]]; [done| |done].
              rewrite Hbh in Hcut. injection Hcut as Hcut.
              change (s = token) in Hcut. subst token.
              assert (negb (ConstantTimeCompare s s =? 1)%Z = false) as Hs
                by by apply compare_ok.
              congruence.
           ++ split; [by left|]. split; [|done]. intros _. right; left.
              split; [done|]. apply compare_ok in Hc. by subst token.
        -- split; [by right|]. split; [done|].
           intros [[? _]|[[_ Hbh]|[_ [? _]]]]; [done| |done].
           by rewrite Hbh, Cut_Bearer in Hcut.
Qed.

(** C4, as stated, fails: a request that carries the secret as its token
    parameter is refused when it also has an Authorization header of
    another scheme, and an upgrade request that carries the secret as a
    Bearer header is refused when its token parameter is wrong. *)
Lemma authentication_refuses_carried_secret :
  let r1 := request (Some "Basic dXNlcg==") (Some "s3cret") false in
  let r2 := request (Some "Bearer s3cret") (Some "stale") true in
  (token_query "s3cret" r1 /\
   authentication "s3cret" r1 = Rendered StatusUnauthorized) /\
  (bearer_header "s3cret" r2 /\
   authentication "s3cret" r2 = Rendered StatusUnauthorized).
Proof. vm_compute. repeat split. Qed.

Example authentication_bearer :
  authentication "s3cret" (request (Some "Bearer s3cret") None false) = Next.
Proof. vm_compute. reflexivity. Qed.

Example authentication_token :
  authentication "s3cret" (request None (Some "s3cret") false) = Next.
Proof. vm_compute. reflexivity. Qed.

Example authentication_nothing :
  authentication "s3cret" (request None None false) = Rendered StatusUnauthorized.
Proof. vm_compute. reflexivity. Qed.

End RouteFacts.

Module DoHFacts.

Import OS DoH.
Local Open Scope string_scope.

Section Exchange.

Variable env : Env.

Lemma bootstrap_timeout dc dc' :
  bootstrap env dc = inl (Ok dc') -> timeout dc' = timeout dc /\ proxy dc' = proxy dc.
Proof.
  unfold bootstrap. destruct (resolved dc); [by intros [= <-]|].
  destruct (SplitHostPort env (addr dc)) as [host port].
  destruct (LookupIPByResolver env host) as [ips|e]; [|done].
  destruct (ips !! Intn env (length ips)); [|done].
  by intros [= <-].
Qed.

Lemma alloc_fresh (h : heap) msg l h' :
  alloc h msg = (l, h') -> h !! l = None /\ h' = <[l := msg]> h.
Proof.
  unfold alloc. intros [= <- <-]. split; [|done].
  apply not_elem_of_dom, is_fresh.
Qed.

(** [doRequest] only adds the reply to the heap. *)
Lemma doRequest_heap h req hasProxy h' msg err :
  doRequest env h req hasProxy = (h', msg, err) ->
  match msg with
  | Some l => h !! l = None /\ exists reply, h' = <[l := reply]> h
  | None => h' = h
  end.
Proof.
  unfold doRequest. destruct (Do env req hasProxy) as [buf|e]; [|by intros [= <- <- _]].
  destruct (Unpack env buf) as [reply e].
  destruct (alloc h reply) as [l h1] eqn:Ha. apply alloc_fresh in Ha as [Hl ->].
  intros [= <- <- _]. eauto.
Qed.

(** The shape of a run that reaches the HTTP exchange. *)
Lemma ExchangeContext_sent dc ctx m h now req hasProxy :
  sent (ExchangeContext env dc ctx m h now) = Some (req, hasProxy) ->
  exists dc' orig body,
    bootstrap env dc = inl (Ok dc') /\ h !! m = Some orig /\
    Pack env (with_Id orig 0) = Ok body /\ Body req = body /\
    Deadline (ReqContext req) =
      match Deadline ctx with
      | Some d => Some d
      | None => Some (now + timeout dc')%Z
      end.
Proof.
  unfold ExchangeContext.
  destruct (bootstrap env dc) as [[dc'|e]|[]]; [|done..].
  destruct (h !! m) as [orig|]; [|done].
  unfold newRequest. destruct (Pack env (with_Id orig 0)) as [body|e] eqn:Hp; [|done].
  destruct (validURL env (url dc')); [|done]. cbn [Method URL Body ReqHeader].
  set (proxy := let '(p, ok) := GetProxy ctx in if ok then p else DoH.proxy dc').
  destruct (negb (String.eqb proxy "")).
  - cbn [Deadline WithProxyKey].
    destruct (Deadline ctx) as [d|] eqn:Hd;
      destruct (doRequest env h _ _) as [[h1 msg] err];
      destruct (Question orig); intros [= <- <-];
      exists dc', orig, body; cbn; by rewrite ?Hd, ?Hp.
  - destruct (Deadline ctx) as [d|] eqn:Hd;
      destruct (doRequest env h _ _) as [[h1 msg] err];
      destruct (Question orig); intros [= <- <-];
      exists dc', orig, body; cbn; by rewrite ?Hd, ?Hp.
Qed.

(** C6 (amended). A deadline on the caller's context is kept as it is.
    Without one the request gets the budget fixed when the client was
    built, ten seconds when it was built with a proxy name and five
    seconds ([DefaultDNSTimeout]) when it was not, counted from now;
    the proxy the query itself is routed through plays no part. *)
Theorem exchange_budget (u p : string) ctx m h now req hasProxy :
  sent (ExchangeContext env (newDoHClient env u p) ctx m h now) = Some (req, hasProxy) ->
  Deadline (ReqContext req) =
    match Deadline ctx with
    | Some d => Some d
    | None => Some (now + (if String.eqb p "" then 5 * Second else 10 * Second))%Z
    end.
Proof.
  intros Hs. apply ExchangeContext_sent in Hs as (dc' & orig & body & Hb & _ & _ & _ & ->).
  apply bootstrap_timeout in Hb as [-> _].
  destruct (Deadline ctx); [done|].
  unfold newDoHClient. destruct (hostOf env u) as [host port]. cbn [timeout].
  by destruct (String.eqb p "").
Qed.

(** C10. [ExchangeContext] leaves every message of the caller's heap as it
    was, the caller's own included; the body it sends is the packed copy
    with id 0; and the message it returns without error carries the id
    of the caller's message. *)
Theorem ExchangeContext_frame dc ctx (m : nat) (h : heap) now :
  let r := ExchangeContext env dc ctx m h now in
  (forall l msg, h !! l = Some msg -> memory r !! l = Some msg) /\
  (forall orig req hasProxy,
     h !! m = Some orig -> sent r = Some (req, hasProxy) ->
     Pack env (with_Id orig 0) = Ok (Body req)) /\
  (forall orig l,
     h !! m = Some orig -> result_ r = Return (Some l) None ->
     Id <$> memory r !! l = Some (Id orig)).
Proof.
  intros r. split; [|split].
  - intros l0 msg0 Hl0. subst r. unfold ExchangeContext.
    destruct (bootstrap env dc) as [[dc'|e]|[]]; [|done..].
    destruct (h !! m) as [orig|]; [|done].
    destruct (newRequest env dc' (with_Id orig 0)) as [req|e]; [|done].
    destruct (if negb _ then _ else _) as [hasProxy ctx'].
    destruct (doRequest env h _ hasProxy) as [[h1 msg] err] eqn:Hdo.
    apply doRequest_heap in Hdo.
    assert (h1 !! l0 = Some msg0) as H1.
    { destruct msg as [l|]; [|by subst].
      destruct Hdo as [Hfresh [reply ->]].
      rewrite lookup_insert_ne; [done|]. intros ->. congruence. }
    assert (match err, msg with
            | None, Some l =>
                match h1 !! l with
                | Some reply => <[l := with_Id reply (Id orig)]> h1
                | None => h1
                end
            | _, _ => h1
            end !! l0 = Some msg0) as H2.
    { destruct err; [done|]. destruct msg as [l|]; [|done].
      destruct Hdo as [Hfresh _].
      destruct (h1 !! l); [|done].
      rewrite lookup_insert_ne; [done|]. intros ->. congruence. }
    by destruct (Question orig).
  - intros orig req hasProxy Hm Hs. subst r.
    apply ExchangeContext_sent in Hs as (dc' & orig' & body & _ & Hm' & Hp & <- & _).
    congruence.
  - intros orig l Hm. subst r. unfold ExchangeContext.
    destruct (bootstrap env dc) as [[dc'|e]|[]]; [|done..].
    rewrite Hm.
    destruct (newRequest env dc' (with_Id orig 0)) as [req|e]; [|done].
    destruct (if negb _ then _ else _) as [hasProxy ctx'].
    destruct (doRequest env h _ hasProxy) as [[h1 msg] err] eqn:Hdo.
    apply doRequest_heap in Hdo.
    destruct (Question orig); [done|]. cbn [result_ memory].
    intros [= -> ->]. destruct Hdo as [_ [reply ->]].
    by rewrite lookup_insert_eq, lookup_insert_eq.
Qed.

End Exchange.

(** The id of a message on the wire: two bytes, high byte first. *)
Definition id_bytes (id : Z) : list byte :=
  [md5.byte_of_Z (Z.shiftr id 8); md5.byte_of_Z id].

(** A resolver with one address, an echoing server, and a proxy table
    that knows the proxy P. *)
Definition demo_env : Env :=
  mkEnv (fun _ => Ok ["1.1.1.1"]) (fun _ => 0%nat)
        (fun a => let '(host, port, _) := Strings.Cut a ":" in (host, port))
        (fun host port => host ++ ":" ++ port)
        (fun _ => ("dns.example", ""))
        (fun _ a => "https://" ++ a ++ "/dns-query")
        (fun _ => true) (fun _ => false)
        (fun m => Ok (id_bytes (Id m) ++ Rest m)%list)
        (fun buf => (mkMsg 0 ["example.com."] (skipn 2 buf), None))
        (fun p => String.eqb p "P")
        (fun req _ => Ok (Body req)).

Definition query : Msg := mkMsg 4660 ["example.com."] (bytes_of "A?").

Definition demo_heap : heap := {[ 1%nat := query ]}.

Definition via_proxy : Context := mkContext None (Some "P") None.

Definition demo_exchange : exchanged :=
  ExchangeContext demo_env (newDoHClient demo_env "https://dns.example/dns-query" "") via_proxy
                  1 demo_heap 0.

Definition demo_request : Request :=
  mkHTTPRequest "POST" "https://1.1.1.1:443/dns-query"
    (id_bytes 0 ++ bytes_of "A?")%list
    [("Content-Type", dotMimeType); ("Accept", dotMimeType)]
    (mkContext (Some (5 * Second)%Z) (Some "P") (Some "P")).

Lemma demo_sent : sent demo_exchange = Some (demo_request, true).
Proof. vm_compute. reflexivity. Qed.

Lemma exchange_budget_witness :
  Deadline (ReqContext demo_request) = Some (0 + 5 * Second)%Z.
Proof.
  exact (exchange_budget demo_env "https://dns.example/dns-query" "" via_proxy
           1%nat demo_heap 0%Z demo_request true demo_sent).
Defined.

(** C6, as stated, fails: a client built without a proxy name sends a
    query that the caller's context routes through the proxy P (the
    one-shot proxy transport is used) with a budget of five seconds, not
    ten. *)
Lemma proxied_query_gets_five_seconds :
  proxy (newDoHClient demo_env "https://dns.example/dns-query" "") = "" /\
  GetProxy via_proxy = ("P", true) /\ FindProxyByName demo_env "P" = true /\
  exists req,
    sent demo_exchange = Some (req, true) /\
    dohProxy (ReqContext req) = Some "P" /\
    Deadline (ReqContext req) = Some (5 * Second)%Z /\
    Deadline (ReqContext req) <> Some (10 * Second)%Z.
Proof.
  split; [reflexivity|]. split; [reflexivity|]. split; [reflexivity|].
  exists demo_request. split; [exact demo_sent|]. by vm_compute.
Qed.

(** The reply to the demo query: the caller's message is intact, the
    body went out with id 0, the reply carries the caller's id. *)
Example demo_reply :
  memory demo_exchange !! 1%nat = Some query /\
  (exists l, result_ demo_exchange = Return (Some l) None /\
             Id <$> memory demo_exchange !! l = Some 4660%Z) /\
  Body demo_request = [x00; x00; x41; x3f].
Proof. vm_compute. split; [done|]. split; [|done]. by eexists. Qed.

End DoHFacts.

Module DHCPFacts.

Import OS DHCP.
Local Open Scope string_scope.

Lemma ptr_eq_true a b : ptr_eq a b = true <-> a = b.
Proof. unfold ptr_eq. by rewrite bool_decide_eq_true. Qed.

(** While the interface check is fresh nothing is looked at. *)
Lemma invalidate_fresh_iface d now pick :
  (now < ifaceInvalidate d)%Z -> invalidate d now pick = (d, (false, None)).
Proof.
  intros H. unfold invalidate, Before.
  by destruct (Z.ltb_spec now (ifaceInvalidate d)); [|lia].
Qed.

(** Within the hour, the same pointer starts nothing. *)
Lemma invalidate_same_pointer d now p :
  (now < dnsInvalidate d)%Z -> ifaceAddr d = Some p ->
  snd (invalidate d now (Ok p)) = (false, None).
Proof.
  intros Hnow Hp. unfold invalidate, Before.
  destruct (now <? ifaceInvalidate d)%Z; [done|]. cbn.
  destruct (Z.ltb_spec now (dnsInvalidate d)); [|lia].
  assert (ptr_eq (ifaceAddr d) (Some p) = true) as -> by by apply ptr_eq_true.
  done.
Qed.

(** A resolution is started only when the hour is over or the pointer
    differs, and none is in flight. *)
Lemma resolve_start_only_if d now pick ch d' :
  resolve_start d now pick ch = (d', true) ->
  done d = None /\
  exists p, pick = Ok p /\
            ((dnsInvalidate d <= now)%Z \/ ifaceAddr d <> Some p).
Proof.
  unfold resolve_start, invalidate, Before.
  destruct (now <? ifaceInvalidate d)%Z; [done|].
  destruct pick as [p|e]; [|done]. cbn.
  destruct (Z.ltb_spec now (dnsInvalidate d)); cbn.
  - destruct (ptr_eq (ifaceAddr d) (Some p)) eqn:Hp; [done|].
    destruct (bool_decide_reflect (done d = None)); [|done].
    intros _. split; [done|]. exists p. split; [done|]. right.
    intros E. apply ptr_eq_true in E. congruence.
  - destruct (bool_decide_reflect (done d = None)); [|done].
    intros _. split; [done|]. exists p. split; [done|]. by left.
Qed.

(** Once the interface check is due and nothing is in flight, a pointer
    other than the stored one starts a resolution, whatever prefixes the
    two pointers lead to and however young the cached result is. *)
Lemma resolve_start_other_pointer d now p q ch :
  (ifaceInvalidate d <= now)%Z -> ifaceAddr d = Some p -> q <> p -> done d = None ->
  snd (resolve_start d now (Ok q) ch) = true.
Proof.
  intros Hdue Hp Hq Hdone. unfold resolve_start, invalidate, Before.
  destruct (Z.ltb_spec now (ifaceInvalidate d)); [lia|]. cbn.
  assert (ptr_eq (ifaceAddr d) (Some q) = false) as ->.
  { apply not_true_is_false. rewrite ptr_eq_true, Hp. congruence. }
  rewrite andb_false_r. cbn. by rewrite Hdone.
Qed.

(** The interface has the address 192.168.1.2/24 throughout; after its
    table has been rebuilt the same prefix lives at another pointer. *)
Definition lan : Prefix := mkPrefix (192, 168, 1, 2) 24.
Definition table : store := {[ 1%nat := lan; 2%nat := lan ]}.

Definition at_ (seconds : Z) : Z := (seconds * Second)%Z.

(** The first query at t = 1000 s starts a resolution, which finishes. *)
Definition first_start : dhcpClient * bool :=
  resolve_start (newDHCPClient "en0") (at_ 1000) (Ok 1%nat) 7.

Definition settled : dhcpClient :=
  resolve_finish (fst first_start) (Ok ["192.168.1.1"]).

(** C7 fails on the code: 21 seconds after a finished resolution, with the
    interface address unchanged but delivered through a new pointer, a new
    DHCP resolution is started although the cached result is not an hour
    old. *)
Lemma resolve_restarts_within_the_hour :
  snd first_start = true /\
  clients settled = Some ["192.168.1.1:53"] /\
  dnsInvalidate settled = at_ 4600 /\
  table !! 1%nat = table !! 2%nat /\
  snd (resolve_start settled (at_ 1021) (Ok 2%nat) 8) = true /\
  snd (resolve_start settled (at_ 1021) (Ok 1%nat) 8) = false.
Proof. vm_compute. repeat split. Qed.

End DHCPFacts.

Module ResolverFacts.

Import Resolver.
Local Open Scope string_scope.

Definition resolver_ok (r : option Resolver) : Prop :=
  match r with
  | Some r => answers_nonempty r
  | None => True
  end.

Section Lookups.

Variable g : Globals.

(** Drawing from a list yields one of its elements, and fails only on
    the empty list. *)
Lemma pick_Resolved seed ips ip :
  pick seed ips = Resolved ip -> ips <> [] /\ ip ∈ ips.
Proof.
  unfold pick, IntN. destruct ips as [|x ips]; [done|]. cbn [length].
  destruct (_ !! _) as [y|] eqn:E; [|done].
  intros [= <-]. split; [done|]. by eapply list_elem_of_lookup_2.
Qed.

Lemma pick_Panic seed ips : pick seed ips = Panic <-> ips = [].
Proof.
  unfold pick, IntN. destruct ips as [|x ips]; [done|]. cbn [length].
  destruct (lookup_lt_is_Some_2 (x :: ips) (seed mod S (length ips))) as [y ->];
    [|done].
  apply Nat.mod_upper_bound. done.
Qed.

(** Every path of the lookup that does not ask the resolver returns a
    non-empty list or an error. *)
Lemma lookup_body_nonempty self ctx host r t both ips :
  (forall c h l, self c h = Ok l -> l <> []) ->
  resolver_ok r ->
  lookup_body g self ctx host r t both = Ok ips -> ips <> [].
Proof.
  intros Hself Hr. unfold lookup_body.
  destruct ((t =? typeAAAA)%Z && DisableIPv6 g && negb both); [done|].
  destruct (match DefaultHosts g host with Some _ => _ | None => _ end);
    [by intros [= <-]|].
  destruct r as [r|].
  - cbn in Hr.
    repeat match goal with |- context [if ?b then _ else _] => destruct b end;
      intros E; eapply Hr; eauto.
  - destruct ((t =? typeNone)%Z && DisableIPv6 g); [apply Hself|].
    destruct (ParseAddr g host) as [ip|].
    + by destruct (_ || _); [|intros [= <-]].
    + destruct (systemLookupIP g _ host) as [[|x l]|e]; [done| |done].
      by intros [= <-].
Qed.

Lemma LookupIPv4_nonempty ctx host ips :
  resolver_ok (DefaultResolver g) -> LookupIPv4_ g ctx host = Ok ips -> ips <> [].
Proof. intros Hr. by apply lookup_body_nonempty. Qed.

Lemma lookup_nonempty ctx host r t both ips :
  resolver_ok (DefaultResolver g) -> resolver_ok r ->
  lookupIPByResolverAndType g ctx host r t both = Ok ips -> ips <> [].
Proof.
  intros Hd Hr. apply lookup_body_nonempty; [|done].
  intros c h l. by apply LookupIPv4_nonempty.
Qed.

(** C9 (amended). When [resolveIPByType] or
    [resolveProxyServerHostByType] returns an address, its lookup returned
    a non-empty list without error and the address is an element of that
    list.  The functions do not check for an empty list themselves: the
    index does not panic provided the default resolver, when there is one,
    answers every error-free lookup with at least one address; the paths
    that do not ask the resolver (hosts table, literal address, system
    resolver) always do. *)
Theorem resolve_returns_member (seed : nat) (host : string) (t : Z) :
  (forall ip, resolveIPByType g seed host t = Resolved ip ->
     exists ips, lookup_for g host t = Ok ips /\ ips <> [] /\ ip ∈ ips) /\
  (forall ip, resolveProxyServerHostByType g seed host t = Resolved ip ->
     exists ips, proxy_lookup_for g host t = Ok ips /\ ips <> [] /\ ip ∈ ips) /\
  (resolver_ok (DefaultResolver g) ->
     resolveIPByType g seed host t <> Panic /\
     resolveProxyServerHostByType g seed host t <> Panic).
Proof.
  unfold resolveIPByType, resolveProxyServerHostByType. split; [|split].
  - intros ip. destruct (lookup_for g host t) as [ips|e]; [|done].
    intros H. apply pick_Resolved in H. eauto.
  - intros ip. destruct (proxy_lookup_for g host t) as [ips|e]; [|done].
    intros H. apply pick_Resolved in H. eauto.
  - intros Hr. split.
    + destruct (lookup_for g host t) as [ips|e] eqn:E; [|done].
      rewrite pick_Panic. unfold lookup_for in E.
      repeat match type of E with (if ?b then _ else _) = _ => destruct b end;
        first [by eapply lookup_nonempty | by eapply LookupIPv4_nonempty].
    + destruct (proxy_lookup_for g host t) as [ips|e] eqn:E; [|done].
      rewrite pick_Panic. by eapply lookup_nonempty.
Qed.

End Lookups.

(** A resolver that answers every lookup with no address and no error. *)
Definition silent : Resolver :=
  mkResolver (fun _ _ => Ok []) (fun _ _ => Ok []) (fun _ _ => Ok []).

(** A resolver that knows one address of each family. *)
Definition upstream : Resolver :=
  mkResolver (fun _ _ => Ok [V4 16843009; V6 1]) (fun _ _ => Ok [V4 16843009])
             (fun _ _ => Ok [V6 1]).

Definition globals (r : option Resolver) : Globals :=
  mkGlobals r true false
            (fun host => if String.eqb host "localhost" then Some (V4 2130706433) else None)
            (fun _ => None) (fun _ _ => Err (ErrMsg "no such host")).

(** C9, as stated, fails: with a resolver whose lookup returns an empty
    list and no error, the lookup of [resolveIPByType] is error-free and
    empty, and the index panics; likewise for the proxy server host. *)
Lemma resolve_panics_on_empty_answer :
  lookup_for (globals (Some silent)) "example.com" typeA = Ok [] /\
  resolveIPByType (globals (Some silent)) 0 "example.com" typeA = Panic /\
  resolveProxyServerHostByType (globals (Some silent)) 0 "example.com" typeNone = Panic.
Proof. vm_compute. repeat split. Qed.

Lemma upstream_ok : resolver_ok (DefaultResolver (globals (Some upstream))).
Proof.
  intros ctx host ips [H|[H|H]]; cbn in H; by injection H as <-.
Qed.

Lemma resolve_returns_member_witness :
  resolveIPByType (globals (Some upstream)) 3 "example.com" typeNone <> Panic /\
  resolveProxyServerHostByType (globals (Some upstream)) 3 "example.com" typeNone <> Panic.
Proof.
  exact (proj2 (proj2 (resolve_returns_member (globals (Some upstream)) 3
                         "example.com" typeNone)) upstream_ok).
Defined.

Example resolve_from_hosts :
  resolveIPByType (globals None) 5 "localhost" typeNone = Resolved (V4 2130706433).
Proof. vm_compute. reflexivity. Qed.

Example resolve_upstream :
  resolveIPByType (globals (Some upstream)) 3 "example.com" typeNone = Resolved (V4 16843009).
Proof. vm_compute. reflexivity. Qed.

End ResolverFacts.

Module ConfigFacts.

Import Config.
Local Open Scope string_scope.
Local Open Scope list_scope.

Section Parse.

Variable env : Env.

(** What a loop that registers parsed proxies under fresh names does to
    the map: [added] are the proxies it registered, in order. *)
Record registered (before after : gmap string Proxy) (added : list Proxy) : Prop := {
  reg_fresh : forall p, p ∈ added -> before !! Name p = None;
  reg_nodup : NoDup (map Name added);
  reg_kept : before ⊆ after;
  reg_added : forall p, p ∈ added -> after !! Name p = Some p;
  reg_only : forall k v, after !! k = Some v ->
               before !! k = Some v \/ (v ∈ added /\ k = Name v)
}.

Lemma registered_nil m : registered m m [].
Proof.
  split; try done.
  - intros p Hp. by apply elem_of_nil in Hp.
  - constructor.
  - intros p Hp. by apply elem_of_nil in Hp.
  - by left.
Qed.

Lemma registered_cons m m' p added :
  m !! Name p = None ->
  registered (<[Name p := p]> m) m' added ->
  registered m m' (p :: added).
Proof.
  intros Hp [Hfresh Hnodup Hkept Hadded Honly]. split.
  - intros q [->|Hq]%elem_of_cons; [done|].
    specialize (Hfresh q Hq). by apply lookup_insert_None in Hfresh as [? _].
  - cbn. constructor; [|done]. intros Hin.
    apply list_elem_of_fmap in Hin as (q & Hn & Hq).
    specialize (Hfresh q Hq). rewrite <- Hn in Hfresh.
    by rewrite lookup_insert_eq in Hfresh.
  - etrans; [|exact Hkept]. by apply insert_subseteq.
  - intros q [->|Hq]%elem_of_cons; [|by apply Hadded].
    eapply lookup_weaken; [|exact Hkept]. by rewrite lookup_insert_eq.
  - intros k v Hkv. destruct (Honly k v Hkv) as [Hb|[Hv ->]].
    + apply lookup_insert_Some in Hb as [[<- <-]|[_ Hb]]; [|by left].
      right. split; [|done]. by left.
    + right. split; [|done]. by right.
Qed.

Lemma parse_leaves_registered force idx cfgs proxies proxyList proxies' proxyList' :
  parse_leaves env force idx cfgs proxies proxyList = Ok (proxies', proxyList') ->
  exists leaves,
    Forall2 (fun m p => ParseProxy env m force = Ok p) cfgs leaves /\
    proxyList' = proxyList ++ map Name leaves /\
    registered proxies proxies' leaves.
Proof.
  revert idx proxies proxyList.
  induction cfgs as [|mapping rest IH]; intros idx proxies proxyList; cbn.
  - intros [= <- <-]. exists []. split; [constructor|].
    split; [by rewrite app_nil_r|apply registered_nil].
  - destruct (ParseProxy env mapping force) as [proxy|e] eqn:Hp; [|done].
    destruct (proxies !! Name proxy) eqn:Hfresh; [done|].
    intros H. apply IH in H as (leaves & Hall & -> & Hreg).
    exists (proxy :: leaves). split; [by constructor|].
    split; [by rewrite <- app_assoc|]. by apply registered_cons.
Qed.

Lemma group_names_spec idx groups proxyList proxyList' :
  group_names idx groups proxyList = Ok proxyList' ->
  exists names,
    Forall2 (fun m n => m !! "name" = Some (AString n)) groups names /\
    proxyList' = proxyList ++ names.
Proof.
  revert idx proxyList.
  induction groups as [|mapping rest IH]; intros idx proxyList; cbn.
  - intros [= <-]. exists []. split; [constructor|by rewrite app_nil_r].
  - destruct (mapping !! "name") as [[n| |]|] eqn:Hn; try done.
    intros H. apply IH in H as (names & Hall & ->).
    exists (n :: names). split; [by constructor|by rewrite <- app_assoc].
Qed.

Lemma parse_groups_registered idx groups proxies pds proxies' :
  parse_groups env idx groups proxies pds = Ok proxies' ->
  exists parsed,
    length parsed = length groups /\
    registered proxies proxies' parsed.
Proof.
  revert idx proxies.
  induction groups as [|mapping rest IH]; intros idx proxies; cbn.
  - intros [= <-]. exists []. split; [done|apply registered_nil].
  - destruct (ParseProxyGroup env mapping proxies pds) as [group|e]; [|done].
    destruct (proxies !! Name group) eqn:Hfresh; [done|].
    intros H. apply IH in H as (parsed & Hlen & Hreg).
    exists (group :: parsed). split; [by cbn; rewrite Hlen|].
    by apply registered_cons.
Qed.

(** Registering in two rounds keeps all names apart. *)
Lemma registered_app m0 m1 m2 xs ys :
  registered m0 m1 xs -> registered m1 m2 ys ->
  registered m0 m2 (xs ++ ys).
Proof.
  intros [F1 N1 K1 A1 O1] [F2 N2 K2 A2 O2]. split.
  - intros p [Hp|Hp]%elem_of_app; [by apply F1|].
    specialize (F2 p Hp). destruct (m0 !! Name p) eqn:E; [|done].
    by rewrite (lookup_weaken _ _ _ _ E K1) in F2.
  - rewrite map_app. apply NoDup_app. split; [done|]. split; [|done].
    intros n Hx Hy.
    apply list_elem_of_fmap in Hx as (p & -> & Hp).
    apply list_elem_of_fmap in Hy as (q & Hn & Hq).
    specialize (F2 q Hq). rewrite <- Hn, (A1 p Hp) in F2. done.
  - by etrans.
  - intros p [Hp|Hp]%elem_of_app; [|by apply A2].
    eapply lookup_weaken; [by apply A1|done].
  - intros k v Hkv. destruct (O2 k v Hkv) as [H1|[Hv ->]].
    + destruct (O1 k v H1) as [?|[Hv ->]]; [by left|].
      right. split; [|done]. apply elem_of_app. by left.
    + right. split; [|done]. apply elem_of_app. by right.
Qed.

(** What a successful [parseProxies] guarantees about the leaf proxies
    and the groups it parsed.  The names DIRECT and REJECT, the leaves and
    the groups are pairwise distinct; DIRECT and REJECT are the built-in
    adapters; GLOBAL is the built-in selector over the provider "default";
    every leaf or group not named GLOBAL is found under its name; and the
    provider lists the built-ins, every leaf, and every group whose name
    is the one its mapping gives. *)
Theorem parseProxies_registry cfg proxies pds :
  parseProxies env cfg = Ok (proxies, pds) ->
  exists leaves groups names sorted ps,
    Forall2 (fun m p => ParseProxy env m (ForceCertVerify cfg) = Ok p) (Proxy_ cfg) leaves /\
    Forall2 (fun m n => m !! "name" = Some (AString n)) (ProxyGroup cfg) names /\
    proxyGroupsDagSort env (ProxyGroup cfg) = Ok sorted /\
    length groups = length sorted /\
    NoDup ("DIRECT" :: "REJECT" :: map Name leaves ++ map Name groups) /\
    proxies !! "DIRECT" = Some Direct /\
    proxies !! "REJECT" = Some Reject /\
    proxies !! "GLOBAL" = Some (Selector "GLOBAL" [mkProvider ReservedName Compatible ps]) /\
    pds !! ReservedName = Some (mkProvider ReservedName Compatible ps) /\
    (forall p, p ∈ leaves ++ groups -> Name p <> "GLOBAL" -> proxies !! Name p = Some p) /\
    (forall k v, proxies !! k = Some v -> Name v = k) /\
    Some Direct ∈ ps /\ Some Reject ∈ ps /\
    (forall p, p ∈ leaves -> Some p ∈ ps) /\
    (forall p, p ∈ groups -> Name p ∈ names -> Some p ∈ ps).
Proof.
  unfold parseProxies.
  set (base := <["REJECT" := Reject]> (<["DIRECT" := Direct]> (∅ : gmap string Proxy))).
  destruct (parse_leaves _ _ _ _ base _) as [[proxies1 proxyList1]|e] eqn:Hleaves; [|done].
  destruct (group_names 0 _ proxyList1) as [proxyList2|e] eqn:Hnames; [|done].
  destruct (proxyGroupsDagSort env _) as [sorted|e] eqn:Hsort; [|done].
  destruct (parse_providers _ _ _ _) as [pds1|e]; [|done].
  destruct (initial_all _ false _); [done|].
  destruct (parse_groups _ 0 sorted proxies1 pds1) as [proxies2|e] eqn:Hgroups; [|done].
  destruct (initial_all _ true _); [done|].
  intros [= <- <-].
  apply parse_leaves_registered in Hleaves as (leaves & Hall & -> & Hreg1).
  apply group_names_spec in Hnames as (names & Hnm & ->).
  apply parse_groups_registered in Hgroups as (groups & Hlen & Hreg2).
  pose proof (registered_app _ _ _ _ _ Hreg1 Hreg2) as Hreg.
  destruct Hreg as [Hfresh Hnodup Hkept Hadded Honly].
  assert (base !! "DIRECT" = Some Direct) as HD by done.
  assert (base !! "REJECT" = Some Reject) as HR by done.
  assert (forall k v, base !! k = Some v -> Name v = k) as Hbase.
  { intros k v. unfold base.
    rewrite lookup_insert_Some, lookup_insert_Some, lookup_empty.
    by intros [[<- <-]|[_ [[<- <-]|[_ ?]]]]. }
  exists leaves, groups, names, sorted,
    (map (fun v => proxies2 !! v) (["DIRECT"; "REJECT"] ++ map Name leaves ++ names)).
  split; [done|]. split; [done|]. split; [done|]. split; [done|].
  split.
  { rewrite map_app in Hnodup.
    constructor.
    { intros [Hin|Hin]%elem_of_cons; [done|].
      apply elem_of_app in Hin as [Hin|Hin];
        apply list_elem_of_fmap in Hin as (p & Hn & Hp);
        (assert (p ∈ leaves ++ groups) as Hp' by (apply elem_of_app; auto));
        specialize (Hfresh p Hp'); rewrite <- Hn in Hfresh; congruence. }
    constructor; [|done].
    intros Hin. apply elem_of_app in Hin as [Hin|Hin];
      apply list_elem_of_fmap in Hin as (p & Hn & Hp);
      (assert (p ∈ leaves ++ groups) as Hp' by (apply elem_of_app; auto));
      specialize (Hfresh p Hp'); rewrite <- Hn in Hfresh; congruence. }
  split. { rewrite lookup_insert_ne by done. by eapply lookup_weaken. }
  split. { rewrite lookup_insert_ne by done. by eapply lookup_weaken. }
  split. { by rewrite lookup_insert_eq. }
  split. { by rewrite lookup_insert_eq. }
  split. { intros p Hp Hne. rewrite lookup_insert_ne by done. by apply Hadded. }
  split.
  { intros k v [[<- <-]|[_ Hkv]]%lookup_insert_Some; [done|].
    destruct (Honly k v Hkv) as [Hb|[_ ->]]; [by apply Hbase|done]. }
  assert (forall n v, proxies2 !! n = Some v ->
            n ∈ ["DIRECT"; "REJECT"] ++ map Name leaves ++ names ->
            Some v ∈ map (fun v => proxies2 !! v)
                         (["DIRECT"; "REJECT"] ++ map Name leaves ++ names)) as Hin.
  { intros n v Hn Hel. apply list_elem_of_fmap. exists n. by split. }
  split. { apply (Hin "DIRECT"); [by eapply lookup_weaken|]. set_solver. }
  split. { apply (Hin "REJECT"); [by eapply lookup_weaken|]. set_solver. }
  split.
  - intros p Hp. apply (Hin (Name p)).
    + apply Hadded, elem_of_app. by left.
    + apply elem_of_app. right. apply elem_of_app. left.
      apply list_elem_of_fmap. by exists p.
  - intros p Hp Hn. apply (Hin (Name p)).
    + apply Hadded, elem_of_app. by right.
    + apply elem_of_app. right. apply elem_of_app. by right.
Qed.

End Parse.

(** A stand-in for the parsers of the adapter packages: a mapping with a
    name parses to a proxy of that name. *)
Definition named (build : string -> Mapping -> Proxy) (m : Mapping) : result Proxy :=
  match m !! "name" with
  | Some (AString n) => Ok (build n m)
  | _ => Err (ErrMsg "key 'name' missing")
  end.

Definition yaml_env : Env :=
  mkEnv (fun m _ => named Leaf m) Ok
        (fun name _ _ => Ok (mkProvider name HTTP []))
        (fun _ => None)
        (fun m _ _ => named GroupProxy m).

Definition entry (name type : string) : Mapping :=
  {[ "name" := AString name; "type" := AString type ]}.

Definition kind (p : Proxy) : string :=
  match p with
  | Direct | Reject => "built-in"
  | Leaf _ _ => "leaf"
  | GroupProxy _ _ => "group"
  | Selector _ _ => "selector"
  end.

Definition describe (p : option Proxy) : option (string * string) :=
  option_map (fun p => (kind p, Name p)) p.

(** The proxies the GLOBAL selector chooses from. *)
Definition global_members (proxies : gmap string Proxy) : list (option Proxy) :=
  match proxies !! "GLOBAL" with
  | Some (Selector _ [pd]) => Proxies pd
  | _ => []
  end.

Definition parsed (cfg : RawConfig) : gmap string Proxy :=
  match parseProxies yaml_env cfg with
  | Ok (proxies, _) => proxies
  | Err _ => ∅
  end.

(** C2 fails on the code: a configuration whose only proxy is named
    GLOBAL parses; the proxy is not refused as a duplicate, GLOBAL is
    bound to the built-in selector, and that selector lists a second proxy
    named GLOBAL, the user's.  The same name as DIRECT is refused. *)
Lemma parseProxies_shadows_GLOBAL :
  let cfg := mkRawConfig [entry "GLOBAL" "ss"] [] ∅ false in
  (exists proxies pds, parseProxies yaml_env cfg = Ok (proxies, pds)) /\
  describe (parsed cfg !! "GLOBAL") = Some ("selector", "GLOBAL") /\
  map describe (global_members (parsed cfg)) =
    [ Some ("built-in", "DIRECT"); Some ("built-in", "REJECT");
      Some ("leaf", "GLOBAL") ] /\
  parseProxies yaml_env (mkRawConfig [entry "DIRECT" "ss"] [] ∅ false)
    = Err (ErrFor "proxy is the duplicate name" "DIRECT").
Proof.
  split; [by eexists _, _|]. vm_compute. repeat split.
Qed.

Example parseProxies_leaves_and_groups :
  let cfg := mkRawConfig [entry "a" "ss"; entry "b" "vmess"]
                         [entry "auto" "url-test"] ∅ false in
  map describe (global_members (parsed cfg)) =
    [ Some ("built-in", "DIRECT"); Some ("built-in", "REJECT");
      Some ("leaf", "a"); Some ("leaf", "b"); Some ("group", "auto") ] /\
  describe (parsed cfg !! "auto") = Some ("group", "auto").
Proof. vm_compute. repeat split. Qed.

Example parseProxies_duplicate_group :
  parseProxies yaml_env
    (mkRawConfig [entry "a" "ss"] [entry "a" "select"] ∅ false)
  = Err (ErrFor "proxy group: the duplicate name" "a").
Proof. vm_compute. reflexivity. Qed.

End ConfigFacts.

(** ** The pattern of [findRuleProvidersName] on a single reference *)
Module RegexpFacts.

Import Regexp Rules StringFacts.
Local Open Scope list_scope.
Local Open Scope string_scope.

(** No white space in the text. *)
Fixpoint spaceless (s : string) : bool :=
  match s with
  | EmptyString => true
  | String c s' => negb (is_space c) && spaceless s'
  end.

(** No quote character in the text. *)
Fixpoint quoteless (s : string) : bool :=
  match s with
  | EmptyString => true
  | String c s' => negb (is_quote c) && quoteless s'
  end.

(** The text is over or goes on with white space. *)
Definition ends_word (s : string) : bool :=
  match s with
  | EmptyString => true
  | String c _ => is_space c
  end.

Lemma quote_not_space q : is_quote q = true -> is_space q = false.
Proof.
  unfold is_quote. intros [H|H]%orb_true_iff; apply Ascii.eqb_eq in H; by subst.
Qed.

Lemma lit_app p s : lit p (p ++ s) = Some s.
Proof. unfold lit. by rewrite CutPrefix_app. Qed.

Lemma group_ends tail post : ends_word post = true -> group tail post = None.
Proof. destruct post as [|c post]; [done|]. cbn. by intros ->. Qed.

Lemma quote_ends post : ends_word post = true -> quote post = None.
Proof.
  destruct post as [|c post]; [done|]. cbn. intros Hc.
  destruct (is_quote c) eqn:Hq; [|done]. apply quote_not_space in Hq. congruence.
Qed.

(** After the closing quote nothing of the closing text can be taken for
    more of the name. *)
Lemma group_closing next w post :
  spaceless w = true -> quoteless w = true -> ends_word post = true ->
  group (after quote next) (w ++ post) = None /\ quote (w ++ post) = None.
Proof.
  intros Hs Hq Hpost. induction w as [|c w IH].
  - split; [by apply group_ends|by apply quote_ends].
  - cbn in Hs, Hq. apply andb_true_iff in Hs as [Hc Hs], Hq as [Hcq Hq].
    apply negb_true_iff in Hc, Hcq. destruct (IH Hs Hq) as [IHg IHq].
    rewrite append_cons. cbn [group quote]. rewrite Hc, Hcq, IHg.
    unfold after at 1. by rewrite IHq.
Qed.

(** The group takes a name up to the last place where the rest matches. *)
Lemma group_exact tail X rest r :
  X <> "" -> spaceless X = true ->
  group tail rest = None -> tail rest = Some r ->
  group tail (X ++ rest) = Some (X, r).
Proof.
  intros HX Hs Hg Ht. induction X as [|c X IH]; [done|].
  cbn in Hs. apply andb_true_iff in Hs as [Hc Hs]. apply negb_true_iff in Hc.
  rewrite append_cons. cbn [group]. rewrite Hc.
  destruct X as [|c' X].
  - change ("" ++ rest)%string with rest. by rewrite Hg, Ht.
  - by rewrite IH.
Qed.

Lemma group_quoted q X w post :
  is_quote q = true -> X <> "" -> spaceless X = true ->
  spaceless w = true -> quoteless w = true -> ends_word post = true ->
  group (after quote (lit w)) (X ++ String q (w ++ post)) = Some (X, post).
Proof.
  intros Hq HX Hs Hw Hwq Hpost.
  destruct (group_closing (lit w) w post Hw Hwq Hpost) as [Hg Hqu].
  apply group_exact; try done.
  - cbn [group]. rewrite (quote_not_space q Hq), Hg. unfold after. by rewrite Hqu.
  - unfold after. cbn [quote]. rewrite Hq. apply lit_app.
Qed.


Section Reference.

Variables (q : ascii) (X post : string).
Hypothesis Hq : is_quote q = true.
Hypothesis HX : X <> "".
Hypothesis Hs : spaceless X = true.
Hypothesis Hpost : ends_word post = true.

Lemma alt2_reference :
  alt2 ("match_provider(" ++ String q (X ++ String q (")" ++ post))) = Some (X, post).
Proof.
  unfold alt2, after. rewrite lit_app. cbn [quote]. rewrite Hq.
  by apply group_quoted.
Qed.

Lemma alt1_reference :
  alt1 ("ctx.rule_providers[" ++ String q (X ++ String q ("].match" ++ post))) = Some (X, post).
Proof.
  unfold alt1, after.
  change ("ctx.rule_providers[" ++ ?s) with ("ctx" ++ String "." ("rule_providers[" ++ s)).
  rewrite lit_app. cbn [any_char]. change (drop _ (String "." ?s)) with s.
  change (nat_of_ascii "." =? 10)%nat with false. cbv iota.
  rewrite lit_app. cbn [quote]. rewrite Hq.
  by apply group_quoted.
Qed.

Lemma match_here_provider :
  match_here ("match_provider(" ++ String q (X ++ String q (")" ++ post)))
  = Some ("", X, post).
Proof. unfold match_here. by rewrite alt2_reference. Qed.

Lemma match_here_ctx :
  match_here ("ctx.rule_providers[" ++ String q (X ++ String q ("].match" ++ post)))
  = Some (X, "", post).
Proof. unfold match_here. by rewrite alt1_reference. Qed.

Lemma find_head s g1 g2 rest :
  match_here s = Some (g1, g2, rest) ->
  exists more, FindAllStringSubmatch s = (g1, g2) :: more.
Proof.
  destruct s as [|c s]; [done|]. intros H. unfold FindAllStringSubmatch.
  cbn [find_all]. rewrite H. eauto.
Qed.

Lemma names_head s g1 g2 more :
  FindAllStringSubmatch s = (g1, g2) :: more ->
  (g1 <> "" -> exists names, findRuleProvidersName s = g1 :: names) /\
  (g1 = "" -> g2 <> "" -> exists names, findRuleProvidersName s = g2 :: names).
Proof.
  unfold findRuleProvidersName. intros ->. cbn [flat_map List.filter]. split.
  - intros H1. destruct (String.eqb_spec g1 ""); [done|]. cbn. eauto.
  - intros -> H2. destruct (String.eqb_spec g2 ""); [done|]. cbn. eauto.
Qed.

(** A reference at the start of a text, written in either form and
    followed by white space or nothing, yields its name. *)
Lemma reference_extracted :
  (exists names,
     findRuleProvidersName ("match_provider(" ++ String q (X ++ String q (")" ++ post)))
     = X :: names) /\
  (exists names,
     findRuleProvidersName ("ctx.rule_providers[" ++ String q (X ++ String q ("].match" ++ post)))
     = X :: names).
Proof.
  split.
  - destruct (find_head _ _ _ _ match_here_provider) as [more E].
    by apply (names_head _ _ _ _ E).
  - destruct (find_head _ _ _ _ match_here_ctx) as [more E].
    by apply (names_head _ _ _ _ E).
Qed.

End Reference.

Example reference_extracted_demo :
  exists names,
    findRuleProvidersName "match_provider('Ads') and network == 'tcp'" = "Ads" :: names.
Proof. exact (proj1 (reference_extracted squote "Ads" " and network == 'tcp'" eq_refl ltac:(done) eq_refl eq_refl)). Qed.

(** *** A reference anywhere in the text

    A match that starts before a reference, in text that ends with white
    space, ends before the reference too: no part of the pattern takes
    white space, but the dot after [ctx], and what follows the dot is not
    how a reference starts.  So the search arrives at the reference. *)

(** The text is not empty and ends with white space. *)
Fixpoint ends_space (u : string) : bool :=
  match u with
  | EmptyString => false
  | String c u' =>
      match u' with
      | EmptyString => is_space c
      | String _ _ => ends_space u'
      end
  end.

(** Started in a text [u] that stands before [t], the matcher stops
    in [u]. *)
Definition stays (t : string) (m : string -> option string) : Prop :=
  forall u rest, ends_space u = true -> m (u ++ t) = Some rest ->
    exists u', rest = u' ++ t /\ ends_space u' = true.

Lemma ends_space_tail c u :
  ends_space (String c u) = true -> is_space c = false -> ends_space u = true.
Proof. destruct u as [|c' u]; cbn; [congruence|done]. Qed.

Lemma space_small c :
  is_space c = true -> (nat_of_ascii c <? 194)%nat = true /\ is_cont c = false.
Proof.
  unfold is_space, is_cont. intros H.
  repeat apply orb_true_iff in H as [H|H]; apply Nat.eqb_eq in H; by rewrite H.
Qed.

Lemma ends_space_cont c u :
  ends_space (String c u) = true -> is_cont c = true -> ends_space u = true.
Proof.
  intros Hu Hc. apply (ends_space_tail c); [done|].
  destruct (is_space c) eqn:Hs; [|done].
  apply space_small in Hs as [_ Hs]. congruence.
Qed.

Lemma lit_cons a p c s :
  lit (String a p) (String c s) = if Ascii.eqb a c then lit p s else None.
Proof.
  unfold lit. cbn [Strings.CutPrefix]. destruct (Ascii.eqb a c); [|done].
  by destruct (Strings.CutPrefix s p) as [r [|]].
Qed.

Lemma lit_stays t p : spaceless p = true -> stays t (lit p).
Proof.
  induction p as [|a p IH]; intros Hp u rest Hu.
  - assert (lit "" (u ++ t) = Some (u ++ t)) as ->
      by (unfold lit; by destruct (u ++ t)).
    intros [= <-]. by exists u.
  - destruct u as [|c u]; [done|]. rewrite append_cons, lit_cons.
    cbn in Hp. apply andb_true_iff in Hp as [Ha Hp]. apply negb_true_iff in Ha.
    destruct (Ascii.eqb_spec a c) as [<-|]; [|done].
    apply IH; [done|]. by apply (ends_space_tail a).
Qed.

Lemma quote_stays t : stays t quote.
Proof.
  intros [|c u] rest Hu; [done|]. rewrite append_cons. cbn [quote].
  destruct (is_quote c) eqn:Hq; [|done]. intros [= <-]. exists u. split; [done|].
  apply (ends_space_tail c); [done|]. by apply quote_not_space.
Qed.

Lemma after_stays t a b : stays t a -> stays t b -> stays t (after a b).
Proof.
  intros Ha Hb u rest Hu. unfold after.
  destruct (a (u ++ t)) as [s|] eqn:E; [|done].
  apply Ha in E as (u' & -> & Hu'); [|done]. by apply Hb.
Qed.

Lemma group_stays t tail u g rest :
  stays t tail -> ends_space u = true ->
  group tail (u ++ t) = Some (g, rest) ->
  exists u', rest = u' ++ t /\ ends_space u' = true.
Proof.
  intros Htail. revert g rest. induction u as [|c u IH]; intros g rest Hu; [done|].
  rewrite append_cons. cbn [group].
  destruct (is_space c) eqn:Hc; [done|].
  pose proof (ends_space_tail c u Hu Hc) as Hu'.
  destruct (group tail (u ++ t)) as [[captured r]|] eqn:Hg.
  - intros [= _ <-]. by eapply IH.
  - destruct (tail (u ++ t)) as [r|] eqn:Ht; [|done].
    intros [= _ <-]. by apply Htail in Ht.
Qed.

Local Ltac stop_at v := exists v; split; [reflexivity|right].

(** The dot takes one character of [u]: the bytes after the first are
    continuation bytes, which white space is not. *)
Lemma any_char_stays t u rest :
  ends_space u = true -> any_char (u ++ t) = Some rest ->
  exists u', rest = u' ++ t /\ (u' = "" \/ ends_space u' = true).
Proof.
  destruct u as [|c0 u1]; [done|]. intros Hu. rewrite append_cons.
  unfold any_char. destruct (nat_of_ascii c0 =? 10)%nat; [done|].
  intros [= <-].
  destruct u1 as [|c1 u2].
  { cbn in Hu. apply space_small in Hu as [Hu _].
    cbn [rune_width]. rewrite Hu. exists "". auto. }
  assert (ends_space (String c1 u2) = true) as Hu1 by done.
  rewrite append_cons. cbn [rune_width].
  destruct (nat_of_ascii c0 <? 194)%nat; [by stop_at (String c1 u2)|].
  destruct (is_cont c1) eqn:H1; cbn [negb]; [|by stop_at (String c1 u2)].
  pose proof (ends_space_cont c1 u2 Hu1 H1) as Hu2.
  destruct (nat_of_ascii c0 <? 224)%nat; [by stop_at u2|].
  destruct u2 as [|c2 u3]; [done|]. rewrite append_cons.
  destruct (is_cont c2) eqn:H2; cbn [negb]; [|by stop_at (String c1 (String c2 u3))].
  pose proof (ends_space_cont c2 u3 Hu2 H2) as Hu3.
  destruct (nat_of_ascii c0 <? 240)%nat.
  { destruct (_ || _); [by stop_at (String c1 (String c2 u3))|by stop_at u3]. }
  destruct u3 as [|c3 u4]; [done|]. rewrite append_cons.
  destruct (is_cont c3) eqn:H3; cbn [negb orb];
    [|by stop_at (String c1 (String c2 (String c3 u4)))].
  pose proof (ends_space_cont c3 u4 Hu3 H3) as Hu4.
  destruct (_ || _); [by stop_at (String c1 (String c2 (String c3 u4)))|by stop_at u4].
Qed.

Section Before.

(** The text [t] does not go on as the pattern does after the dot. *)
Variable t : string.
Hypothesis Ht : lit "rule_providers[" t = None.

Lemma alt2_stays u g rest :
  ends_space u = true -> alt2 (u ++ t) = Some (g, rest) ->
  exists u', rest = u' ++ t /\ ends_space u' = true.
Proof.
  intros Hu. unfold alt2.
  destruct (after (lit "match_provider(") quote (u ++ t)) as [s|] eqn:E; [|done].
  apply (after_stays t) in E as (u' & -> & Hu');
    [|by apply lit_stays|apply quote_stays|done].
  apply group_stays; [|done].
  apply after_stays; [apply quote_stays|by apply lit_stays].
Qed.

Lemma alt1_stays u g rest :
  ends_space u = true -> alt1 (u ++ t) = Some (g, rest) ->
  exists u', rest = u' ++ t /\ ends_space u' = true.
Proof.
  intros Hu. unfold alt1.
  destruct (after (lit "ctx") _ (u ++ t)) as [s|] eqn:E; [|done].
  revert E. unfold after at 1.
  destruct (lit "ctx" (u ++ t)) as [s1|] eqn:E1; [|done].
  apply (lit_stays t) in E1 as (u1 & -> & Hu1); [|done|done].
  unfold after at 1.
  destruct (any_char (u1 ++ t)) as [s2|] eqn:E2; [|done].
  apply any_char_stays in E2 as (u2 & -> & [->|Hu2]); [| |done].
  { unfold after. change ("" ++ t) with t. by rewrite Ht. }
  intros E. apply (after_stays t) in E as (u3 & -> & Hu3);
    [|by apply lit_stays|apply quote_stays|done].
  apply group_stays; [|done].
  apply after_stays; [apply quote_stays|by apply lit_stays].
Qed.

Lemma match_here_stays u g1 g2 rest :
  ends_space u = true -> match_here (u ++ t) = Some (g1, g2, rest) ->
  exists u', rest = u' ++ t.
Proof.
  intros Hu. unfold match_here.
  destruct (alt1 (u ++ t)) as [[g r]|] eqn:E1.
  - intros [= _ _ <-]. apply alt1_stays in E1 as (u' & -> & _); [|done]. by exists u'.
  - destruct (alt2 (u ++ t)) as [[g r]|] eqn:E2; [|done].
    intros [= _ _ <-]. apply alt2_stays in E2 as (u' & -> & _); [|done]. by exists u'.
Qed.

Lemma length_of_append a b :
  String.length (a ++ b) = (String.length a + String.length b)%nat.
Proof.
  induction a as [|x a IH]; [done|]. rewrite append_cons. cbn. by rewrite IH.
Qed.

(** The search, started anywhere before a match at [t], finds it. *)
Lemma find_all_reaches g1 g2 rest0 u skip :
  match_here t = Some (g1, g2, rest0) ->
  u = "" \/ ends_space u = true ->
  (skip <= String.length u)%nat ->
  In (g1, g2) (find_all skip (u ++ t)).
Proof.
  intros Hm. revert skip. induction u as [|c u IH]; intros skip Hu Hskip.
  - cbn in Hskip. assert (skip = 0%nat) as -> by lia.
    change ("" ++ t) with t. destruct t as [|c t']; [done|].
    cbn [find_all]. rewrite Hm. by left.
  - assert (ends_space (String c u) = true) as Hcu by (by destruct Hu).
    assert (u = "" \/ ends_space u = true) as Hu'
      by (destruct u; [by left|by right]).
    rewrite append_cons. cbn [find_all].
    destruct skip as [|k].
    + rewrite <- append_cons.
      destruct (match_here (String c u ++ t)) as [[[a b] rest]|] eqn:E.
      * apply match_here_stays in E as [u' ->]; [|done].
        right. apply IH; [done|].
        rewrite !length_of_append. cbn [String.length]. lia.
      * apply IH; [done|lia].
    + apply IH; [done|]. cbn in Hskip. lia.
Qed.

End Before.

Lemma Uniq_In x l : In x l -> In x (Strings.Uniq l).
Proof.
  induction l as [|y l IH]; [done|]. cbn [Strings.Uniq].
  intros [->|H]; [by left|].
  destruct (String.eqb_spec y x) as [->|Hne]; [by left|].
  right. apply filter_In. split; [by apply IH|].
  by destruct (String.eqb_spec y x).
Qed.

Lemma names_found s g1 g2 :
  In (g1, g2) (FindAllStringSubmatch s) ->
  (g1 <> "" -> In g1 (findRuleProvidersName s)) /\
  (g2 <> "" -> In g2 (findRuleProvidersName s)).
Proof.
  intros H. unfold findRuleProvidersName.
  split; intros Hg; apply Uniq_In, in_flat_map; exists (g1, g2); (split; [done|]);
    cbn [List.filter].
  - destruct (String.eqb_spec g1 ""); [done|]. by left.
  - destruct (String.eqb_spec g2 ""); [done|].
    destruct (String.eqb_spec g1 ""); cbn; auto.
Qed.

(** A reference in either form, with a name that is not empty and has no
    white space, standing at the start of the text or after white space
    and followed by white space or nothing, yields its name. *)
Lemma reference_found (pre : string) (q : ascii) (X post : string) :
  pre = "" \/ ends_space pre = true ->
  is_quote q = true -> X <> "" -> spaceless X = true -> ends_word post = true ->
  In X (findRuleProvidersName
          (pre ++ "match_provider(" ++ String q (X ++ String q (")" ++ post)))) /\
  In X (findRuleProvidersName
          (pre ++ "ctx.rule_providers[" ++ String q (X ++ String q ("].match" ++ post)))).
Proof.
  intros Hpre Hq HX Hs Hpost. split.
  - eapply (names_found _ "" X); [|done].
    eapply find_all_reaches; [done|by apply match_here_provider|done|lia].
  - eapply (names_found _ X ""); [|done].
    eapply find_all_reaches; [done|by apply match_here_ctx|done|lia].
Qed.

Example reference_found_demo :
  In "Ads" (findRuleProvidersName
              "def main(ctx, md): return match_provider('cn') or match_provider('Ads') ").
Proof.
  exact (proj1 (reference_found "def main(ctx, md): return match_provider('cn') or "
                  squote "Ads" " " (or_intror eq_refl) eq_refl ltac:(done) eq_refl eq_refl)).
Qed.

End RegexpFacts.

Module RulesFacts.

Import Rules StringFacts.
Local Open Scope string_scope.
Local Open Scope list_scope.


Section Parse.

Variable env : Env.
Variable proxies : gset string.

Abbreviation target := (ScriptRuleGeoSiteTarget env).


(** [parseRawRules] on a group, with the loop over the rules inside
    written as the call it is. *)
Lemma parseRawRule_group idx if_ name engine rules rp ms :
  name <> "" ->
  parseRawRule env proxies idx (mkRawRule if_ name engine rules "") rp ms =
    match ms !! ("rule:" ++ name)%string with
    | Some _ => Err (ErrFor "parse rule failed, rule name is exist" name)
    | None =>
        match (if String.eqb engine "expr" then NewExprMatcher env name if_
               else NewMatcher env name "" if_) with
        | Err e => Err (ErrWrap (ErrFor "parse rule failed" name) e)
        | Ok groupMatcher =>
            match parseRawRules env proxies rules rp
                    (<[("rule:" ++ name)%string := groupMatcher]> ms) with
            | Err e => Err e
            | Ok (subRules, rp1, ms1) =>
                Ok (Some (Group (name ++ " (" ++ if_ ++ ")")%string groupMatcher
                            (appendRuleGroupName subRules name) []),
                    register env (findRuleProvidersName if_) rp1, ms1)
            end
        end
    end.
Proof.
  intros Hname. cbn [parseRawRule String.eqb].
  destruct (String.eqb_spec name ""); [done|]. reflexivity.
Qed.

(** The providers after a group are those left by the rules inside it,
    with the names of the condition registered. *)
Lemma group_rule_providers idx if_ name engine rules rp ms parsed rp' ms' :
  name <> "" ->
  parseRawRule env proxies idx (mkRawRule if_ name engine rules "") rp ms
    = Ok (parsed, rp', ms') ->
  exists rp1, rp' = register env (findRuleProvidersName if_) rp1.
Proof.
  intros Hname. rewrite parseRawRule_group by done.
  destruct (ms !! _); [done|].
  destruct (if String.eqb engine "expr" then _ else _) as [gm|e]; [|done].
  destruct (parseRawRules _ _ _ _ _) as [[[subs rp1] ms1]|e]; [|done].
  intros [= _ <- _]. by exists rp1.
Qed.







(** Induction over raw rules, with the rules inside a group covered. *)
Section RawRule_induction.

Variable P : RawRule -> Prop.
Hypothesis step : forall if_ name engine rules line,
  Forall P rules -> P (mkRawRule if_ name engine rules line).


End RawRule_induction.











End Parse.

(** The site lists of a small geosite database. *)
Definition known_lists : list string := ["cn"; "ads"; "google"].

Definition geosite (code target : string) : result Rule :=
  if existsb (String.eqb code) known_lists
  then Ok (Plain "GEOSITE" code target [] [])
  else Err (ErrMsg "list not found in geosite.dat").

(** The texts of the demonstrations are ASCII, for which the case tables
    are not consulted. *)
Definition no_tables (s : string) : string := s.

Definition geo_env : Env :=
  mkEnv "_script_geosite_"
        (fun name code => Ok (ExprMatcher name code))
        (fun name _ code => Ok (StarlarkMatcher name code))
        (fun ruleName payload target params =>
           if String.eqb ruleName "GEOSITE" then geosite (Strings.ToLower no_tables payload) target
           else Ok (Plain ruleName payload target params []))
        geosite
        (map Strings.TrimSpace)
        no_tables no_tables
        (fun code => code)
        (fun _ => Err ErrNotExist).

Definition outbounds : gset string := {[ "DIRECT"; "REJECT"; "GLOBAL"; "Proxy" ]}.

Definition final_providers (rawRules : list RawRule) : option (list string) :=
  match parseRules geo_env outbounds rawRules ∅ with
  | Ok (_, rp) => Some (map fst (map_to_list rp))
  | Err _ => None
  end.





(** A name with a comma: the raw rule written for it has four fields, and
    what is registered is a rule for the first part of the name, with the
    second part as its target. *)
Example comma_in_name :
  let script := mkScript "starlark" ""
                  "def main(ctx, md): return match_provider('cn,Proxy')" ∅ in
  findRuleProvidersName "def main(ctx, md): return match_provider('cn,Proxy')"
    = ["cn,Proxy"] /\
  match parseScript geo_env script [] with
  | Ok (_, rawRules) =>
      rawRules = [line "GEOSITE,cn,Proxy,_script_geosite_"] /\
      match parseRules geo_env outbounds rawRules ∅ with
      | Ok (_, rp) =>
          map_to_list rp = [("cn", Plain "GEOSITE" "cn" "Proxy" [] [])]
      | Err _ => False
      end
  | Err _ => False
  end.
Proof. vm_compute. repeat split. Qed.

(** The whole way of a reference in the main script: the name is found,
    the raw rule is appended, and parsing the rules registers the provider
    under the lower-case name. *)
Example script_reference_registered :
  let script := mkScript "starlark" ""
                  "def main(ctx, md): return ctx.rule_providers['CN'].match(md)" ∅ in
  match parseScript geo_env script [line "MATCH,DIRECT"] with
  | Ok (_, rawRules) =>
      rawRules = [line "MATCH,DIRECT"; line "GEOSITE,CN,_script_geosite_"] /\
      final_providers rawRules = Some ["cn"]
  | Err _ => False
  end.
Proof. vm_compute. repeat split. Qed.

(** A provider written out as a rule comes first and is kept. *)
Example explicit_provider_kept :
  match parseRules geo_env outbounds
          [line "GEOSITE,cn,Proxy";
           mkRawRule "match_provider('CN')" "china" "expr" [line "MATCH,DIRECT"] ""] ∅ with
  | Ok (_, rp) => rp !! "cn" = Some (Plain "GEOSITE" "cn" "Proxy" [] [])
  | Err _ => False
  end.
Proof. vm_compute. reflexivity. Qed.

End RulesFacts.

(** ** Properties of the start of a fetcher *)
Module StartupFacts.

Import OS Provider ProviderFacts Startup.
Local Open Scope string_scope.
Local Open Scope list_scope.

(** [safeWrite] leaves the home directory where it is. *)
Lemma logged_homeDir c t q w : homeDir (logged c t q w) = homeDir w.
Proof. reflexivity. Qed.

Lemma safeWrite_homeDir path buf w : homeDir (snd (safeWrite path buf w)) = homeDir w.
Proof.
  unfold safeWrite, mbind, M_bind, bind, mret, M_ret, ret, HomeDir, OpenRoot.
  set (w1 := logged (COpenRoot (homeDir w)) (files w) (quota w) w).
  destruct (homeOpens w); [|done]. cbv beta zeta iota.
  set (name := fst (Strings.CutPrefix path (homeDir w ++ "/"))).
  pose proof (Stat_steps (filepath.Dir name) w1) as S2.
  destruct (Stat (filepath.Dir name) w1) as [e1 w2]; cbn [snd] in S2.
  assert (exists e2 w3,
    (if IsNotExist e1 then mkdirs (Strings.Split (filepath.Dir name) "/") ""
     else fun w => (None, w)) w2 = (e2, w3) /\ homeDir w3 = homeDir w)
    as (e2 & w3 & -> & H3).
  { destruct S2 as (S2 & _). destruct (IsNotExist e1).
    - pose proof (mkdirs_steps (Strings.Split (filepath.Dir name) "/") "" w2) as (H & _).
      destruct (mkdirs _ _ w2) as [e2 w3]. exists e2, w3. split; [done|].
      cbn [snd] in H. by rewrite H, S2.
    - eexists _, _. split; [done|]. by rewrite S2. }
  destruct e2 as [e|]; [done|].
  unfold OpenFile. destruct (open_trunc (files w3) name) as [t1 [k|e]]; [|done].
  unfold Write. cbn [files quota logged].
  by destruct (write t1 (quota w3) k buf) as [[t2 q2] e3].
Qed.

Section Initial.

Context {V : Type}.
Variable zero : V.
Variable beside : list byte -> V.
Implicit Types (f : fetcher V) (w : World).

(** The three ways out of [keep]'s caller: an error, the label [end]
    with the pull put off, or a payload kept under its checksum. *)
Inductive outcome f (imm : bool) (w : World) : initialized V * World -> Prop :=
| out_failed e w' : outcome f imm w (failed f e, w')
| out_deferred elm : Proxy (vehicle f) = true -> outcome f imm w (at_end f elm true, w)
| out_kept buf elm w' :
    parser f buf = Ok elm ->
    (w' = w \/
     (Type_ (vehicle f) <> File ->
      read (files w') (target (Path (vehicle f)) w') = Some buf)) ->
    outcome f imm w (at_end (with_hash f (md5.Sum buf)) elm imm, w').

Lemma keep_outcome f buf elm isLocal imm w0 w :
  parser f buf = Ok elm -> (isLocal = true -> w = w0) ->
  outcome f imm w0 (keep f buf elm isLocal imm w).
Proof.
  intros Hp Hl. unfold keep, mbind, M_bind, bind, mret, M_ret, ret.
  destruct (decide (Type_ (vehicle f) = File)) as [HF|HF].
  { apply out_kept; [done|]. by right. }
  destruct isLocal.
  { rewrite Hl by done. apply out_kept; [done|]. by left. }
  destruct (safeWrite (Path (vehicle f)) buf w) as [[e|] w'] eqn:Hsw; [constructor|].
  apply out_kept; [done|]. right. intros _.
  pose proof (safeWrite_homeDir (Path (vehicle f)) buf w) as Hh. rewrite Hsw in Hh.
  apply safeWrite_stores in Hsw. unfold target in *. cbn [snd] in Hh. by rewrite Hh.
Qed.

Lemma parse_or_fetch_outcome f r isLocal imm w0 w :
  (isLocal = true -> w = w0) ->
  outcome f imm w0 (parse_or_fetch beside f r isLocal imm w).
Proof.
  intros Hl. unfold parse_or_fetch.
  destruct r as [buf|e]; [|constructor].
  destruct (parser f buf) as [elm|e] eqn:Hp; [by apply keep_outcome|].
  destruct isLocal; cbn [negb]; [|constructor].
  destruct (Proxy (vehicle f)) eqn:Hx.
  { rewrite Hl by done. by constructor. }
  unfold mbind, M_bind, bind. destruct (Read (vehicle f) w) as [[buf'|e'] w1]; [|constructor].
  destruct (parser f buf') as [elm|e'] eqn:Hp'; [|constructor].
  by apply keep_outcome.
Qed.

Lemma Initial_outcome f now cache w :
  exists f0 imm,
    vehicle f0 = vehicle f /\ hash f0 = hash f /\ parser f0 = parser f /\
    outcome f0 imm w (Initial zero beside f now cache w).
Proof.
  unfold Initial. destruct cache as [[modTime r]|].
  - eexists (with_updatedAt f modTime), _. repeat split.
    by apply parse_or_fetch_outcome.
  - exists f, false. repeat split.
    destruct (Proxy (vehicle f)) eqn:Hx; [by constructor|].
    unfold mbind, M_bind, bind. destruct (Read (vehicle f) w) as [r w1].
    by apply parse_or_fetch_outcome.
Qed.

(** X1. A pull loop is started exactly when [Initial] returns without
    error and the vehicle is not a file; when it returns an error the
    checksum is the one the fetcher had. *)
Theorem Initial_pull_loop f now cache w :
  let r := fst (Initial zero beside f now cache w) in
  (pullLoop r <> None <->
   (exists elm, value r = Ok elm) /\ Type_ (vehicle f) <> File) /\
  (forall e, value r = Err e ->
     pullLoop r = None /\ hash (fetcher_ r) = hash f).
Proof.
  intros r. subst r.
  destruct (Initial_outcome f now cache w) as (f0 & imm & Hv & Hh & _ & Hout).
  destruct Hout as [e w'|elm Hx|buf elm w' Hp Hw]; cbn [fst].
  - split; [|by intros e' _]. split; [done|]. by intros [[elm [=]] _].
  - unfold at_end. cbn. rewrite Hv. split; [|done].
    destruct (decide (Type_ (vehicle f) = File)); split; try done.
    + by intros [_ ?].
    + intros _. split; [by exists elm|done].
  - unfold at_end. cbn. rewrite Hv. split; [|done].
    destruct (decide (Type_ (vehicle f) = File)); split; try done.
    + by intros [_ ?].
    + intros _. split; [by exists elm|done].
Qed.

(** X2. A vehicle that goes through a proxy is never read by [Initial],
    and nothing is written: the world is left as it was.  Without a cached
    file [Initial] then returns the empty value without error and asks for
    an immediate pull. *)
Theorem Initial_proxied f now cache w :
  Proxy (vehicle f) = true ->
  snd (Initial zero beside f now cache w) = w /\
  (cache = None ->
   fst (Initial zero beside f now cache w) = at_end f zero true).
Proof.
  intros Hx. unfold Initial. destruct cache as [[modTime r]|].
  - split; [|done]. unfold parse_or_fetch. cbn [vehicle parser with_updatedAt].
    destruct r as [buf|e]; [|done].
    destruct (parser f buf) as [elm|e].
    + unfold keep, mbind, M_bind, bind, mret, M_ret, ret. cbn [vehicle with_updatedAt].
      by destruct (decide (Type_ (vehicle f) = File)).
    + cbn [negb]. by rewrite Hx.
  - by rewrite Hx.
Qed.


End Initial.

Section Loop.

Context {V : Type}.
Implicit Types (f : fetcher V) (w : World).

(** X4. The loop of [pullLoop] and [Destroy] meet on the done channel:
    with nothing queued the loop's done case cannot fire; after [Destroy]
    it can, it stops the ticker, and the channel is empty again. *)
Theorem Destroy_ends_pull_loop f w tk :
  ticker f = Some tk -> Chan.cap (done f) = 1%nat -> Chan.queued (done f) = 0%nat ->
  on_done f = None /\
  exists f1 w1 m,
    Destroy f w = Some (None, f1, w1) /\ on_done f1 = Some m /\
    calls (snd (m w1)) = (CTickerStop tk, files w1) :: calls w1 /\
    files (snd (m w1)) = files w1 /\
    done (fst (m w1)) = done f /\ on_done (fst (m w1)) = None.
Proof.
  intros Htk Hcap Hq. destruct f as [n v i u tk' tm [c q] h p o].
  cbn in Htk, Hcap, Hq. subst tk' c q. split; [done|].
  unfold Destroy. cbn.
  destruct tm as [t|]; cbn; eexists _, _, _; (split; [reflexivity|]);
    (split; [reflexivity|]); by cbn.
Qed.

End Loop.

(** A vehicle behind a proxy, and a fetcher for it. *)
Definition proxied : Vehicle :=
  mkVehicle (mret (Ok (bytes_of "proxies: []"))) "/home/u/providers/p.yaml" true HTTP.

Definition proxied_fetcher : fetcher nat :=
  newFetcher "p" 3600 proxied parse_demo None 7.

Definition remote_fetcher : fetcher nat :=
  newFetcher "p" 3600 (remote "proxies: []") parse_demo None 7.

Lemma Initial_proxied_witness :
  let r := Initial 0%nat (fun _ => 0%nat) proxied_fetcher 100 None empty_world in
  snd r = empty_world /\ fst r = at_end proxied_fetcher 0%nat true.
Proof.
  destruct (Initial_proxied 0%nat (fun _ => 0%nat) proxied_fetcher 100 None empty_world
              eq_refl) as [H1 H2].
  split; [exact H1|exact (H2 eq_refl)].
Defined.


Lemma Destroy_ends_pull_loop_witness :
  on_done fresh_fetcher = None /\
  exists f1 w1 m,
    Destroy fresh_fetcher empty_world = Some (None, f1, w1) /\ on_done f1 = Some m /\
    calls (snd (m w1)) = (CTickerStop 7, files w1) :: calls w1 /\
    files (snd (m w1)) = files w1 /\
    done (fst (m w1)) = done fresh_fetcher /\ on_done (fst (m w1)) = None.
Proof.
  apply (Destroy_ends_pull_loop fresh_fetcher empty_world 7); reflexivity.
Defined.

(** A first start without cache: the payload is fetched, stored below
    the home directory, and a pull loop is started without haste. *)
Example Initial_fetches_and_stores :
  let r := Initial 0%nat (fun _ => 0%nat) remote_fetcher 100 None empty_world in
  value (fst r) = Ok 11%nat /\ pullLoop (fst r) = Some false /\
  read (files (snd r)) "providers/p.yaml" = Some (bytes_of "proxies: []").
Proof. vm_compute. repeat split. Qed.

End StartupFacts.

(** ** Properties of the lookups *)
Module LookupFacts.

Import Resolver ResolverSwitch.
Local Open Scope string_scope.

Lemma pick_single seed ip : pick seed [ip] = Resolved ip.
Proof. unfold pick, IntN. cbn [length]. by rewrite Nat.mod_1_r. Qed.

(** X5. An entry of the hosts table wins over every resolver: a lookup of
    any family returns it (unmapped) without asking, a lookup for IPv4
    returns it when it is an IPv4 address, and a lookup for IPv6 returns
    it when it is an IPv6 address and IPv6 is not disabled. *)
Theorem hosts_entry_wins (g : Globals) (seed : nat) (host : string) (ip : Addr) :
  DefaultHosts g host = Some ip ->
  resolveIPByType g seed host typeNone = Resolved (Unmap ip) /\
  (Is4 (Unmap ip) = true -> resolveIPByType g seed host typeA = Resolved (Unmap ip)) /\
  (Is6 ip = true -> DisableIPv6 g = false ->
   resolveIPByType g seed host typeAAAA = Resolved ip).
Proof.
  intros Hh. unfold resolveIPByType, lookup_for, LookupIP_, LookupIPByResolver,
    LookupIPv4_, LookupIPv6_, lookupIPByResolverAndType, lookup_body.
  rewrite Hh. cbn [Z.eqb Pos.eqb typeNone typeA typeAAAA andb orb negb].
  split; [apply pick_single|]. split.
  - intros ->. apply pick_single.
  - intros -> ->. cbn [andb]. apply pick_single.
Qed.

(** X6. While IPv6 is disabled every lookup for IPv6 addresses is refused
    before the hosts table or a resolver is looked at, unless the caller
    asks for both families; and after [SetDisableIPv6] the flag that
    [resolveProxyServerHostByType] passes for both families never changes
    an answer. *)
Theorem ipv6_switch (g : Globals) (v : bool) ctx host r t seed :
  let g' := SetDisableIPv6 g v in
  lookupIPByResolverAndType g' ctx host r t (needProxyHostIPv6 g')
    = lookupIPByResolverAndType g' ctx host r t false /\
  (v = true ->
   lookupIPByResolverAndType g' ctx host r typeAAAA false = Err ErrIPv6Disabled /\
   resolveIPByType g' seed host typeAAAA = Failed ErrIPv6Disabled /\
   resolveProxyServerHostByType g' seed host typeAAAA = Failed ErrIPv6Disabled).
Proof.
  intros g'. split.
  - unfold lookupIPByResolverAndType, lookup_body. subst g'. cbn [DisableIPv6 needProxyHostIPv6 SetDisableIPv6].
    destruct v; cbn [negb andb]; [done|]. by rewrite !andb_false_r.
  - intros ->. subst g'. done.
Qed.

(** X7. Without a resolver a host that is a literal address is answered
    from the literal, never from the system resolver: a lookup for IPv4
    returns the unmapped address when it is IPv4 and fails with
    [ErrIPVersion] otherwise; a lookup for IPv6 (not disabled) fails with
    [ErrIPVersion] on an IPv4 literal; a lookup of any family returns the
    unmapped literal, but with IPv6 disabled it is a lookup for IPv4. *)
Theorem literal_without_resolver (g : Globals) (seed : nat) (host : string) (ip : Addr) :
  DefaultResolver g = None -> DefaultHosts g host = None -> ParseAddr g host = Some ip ->
  resolveIPByType g seed host typeA =
    (if Is4 (Unmap ip) then Resolved (Unmap ip) else Failed ErrIPVersion) /\
  (DisableIPv6 g = false ->
   resolveIPByType g seed host typeAAAA =
     (if Is4 ip then Failed ErrIPVersion else Resolved ip) /\
   resolveIPByType g seed host typeNone = Resolved (Unmap ip)) /\
  (DisableIPv6 g = true ->
   resolveIPByType g seed host typeNone = resolveIPByType g seed host typeA).
Proof.
  intros Hr Hh Hp. unfold resolveIPByType, lookup_for, LookupIP_, LookupIPByResolver,
    LookupIPv4_, LookupIPv6_, lookupIPByResolverAndType, lookup_body.
  rewrite Hr, Hh, Hp. cbn [Z.eqb Pos.eqb typeNone typeA typeAAAA andb orb negb].
  split; [|split].
  - destruct (Is4 (Unmap ip)); cbn [negb orb]; [apply pick_single|done].
  - intros ->. cbn [andb]. split; [|apply pick_single].
    destruct (Is4 ip); [done|apply pick_single].
  - intros ->. unfold LookupIPv4_, lookup_body.
    rewrite Hr, Hh, Hp. by cbn [Z.eqb Pos.eqb typeNone typeA typeAAAA andb orb negb].
Qed.

(** No resolver, IPv6 enabled, one hosts entry and one literal. *)
Definition plain_globals : Globals :=
  mkGlobals None false false
    (fun host => if String.eqb host "router.lan" then Some (V4in6 3232235777) else None)
    (fun host => if String.eqb host "1.2.3.4" then Some (V4 16909060) else None)
    (fun _ _ => Err (ErrMsg "no such host")).

Lemma hosts_entry_wins_witness :
  resolveIPByType plain_globals 0 "router.lan" typeNone = Resolved (V4 3232235777) /\
  (Is4 (V4 3232235777) = true ->
   resolveIPByType plain_globals 0 "router.lan" typeA = Resolved (V4 3232235777)) /\
  (Is6 (V4in6 3232235777) = true -> DisableIPv6 plain_globals = false ->
   resolveIPByType plain_globals 0 "router.lan" typeAAAA = Resolved (V4in6 3232235777)).
Proof.
  exact (hosts_entry_wins plain_globals 0 "router.lan" (V4in6 3232235777) eq_refl).
Defined.

Lemma literal_without_resolver_witness :
  resolveIPByType plain_globals 0 "1.2.3.4" typeA = Resolved (V4 16909060) /\
  resolveIPByType plain_globals 0 "1.2.3.4" typeAAAA = Failed ErrIPVersion.
Proof.
  destruct (literal_without_resolver plain_globals 0 "1.2.3.4" (V4 16909060)
              eq_refl eq_refl eq_refl) as (H1 & H2 & _).
  split; [exact H1|exact (proj1 (H2 eq_refl))].
Defined.

(** X22. The lookups by proxy hand the question to the default resolver
    with the proxy's name in the context, and those for both families and
    for IPv6 do so whether IPv6 is disabled or not; the plain lookups
    differ while IPv6 is disabled: the one for IPv6 is refused, and the
    one for both families asks for IPv4 only. *)
Theorem by_proxy_ignores_ipv6_switch (g : Globals) (ctx : Context) (host proxy : string)
    (r : Resolver) :
  DefaultResolver g = Some r -> DefaultHosts g host = None ->
  let ctx' := mkContext (proxyServerHost ctx) (Some proxy) in
  LookupIPByProxy g ctx host proxy = LookupIP r ctx' host /\
  LookupIPv4ByProxy g ctx host proxy = LookupIPv4 r ctx' host /\
  LookupIPv6ByProxy g ctx host proxy = LookupIPv6 r ctx' host /\
  (DisableIPv6 g = true ->
   LookupIPv6_ g ctx host = Err ErrIPv6Disabled /\
   LookupIP_ g ctx host = LookupIPv4 r ctx host).
Proof.
  intros Hr Hh ctx'.
  unfold LookupIPByProxy, LookupIPv4ByProxy, LookupIPv6ByProxy, lookupIPByProxyAndType,
    LookupIPv6_, LookupIP_, LookupIPByResolver, lookupIPByResolverAndType, lookup_body,
    WithProxy.
  rewrite Hr, Hh. cbn [Z.eqb Pos.eqb typeNone typeA typeAAAA andb orb negb].
  rewrite !andb_false_r. split; [done|]. split; [done|]. split; [done|].
  by intros ->.
Qed.

(** A resolver that answers with the question it was asked. *)
Definition asked : Resolver :=
  mkResolver (fun ctx _ => Err (ErrFor "both families asked by" (default "" (proxyName ctx))))
             (fun ctx _ => Err (ErrFor "IPv4 asked by" (default "" (proxyName ctx))))
             (fun ctx _ => Err (ErrFor "IPv6 asked by" (default "" (proxyName ctx)))).

Lemma by_proxy_ignores_ipv6_switch_witness :
  let g := mkGlobals (Some asked) true false (fun _ => None) (fun _ => None)
                     (fun _ _ => Err ErrIPNotFound) in
  LookupIPByProxy g Background "example.org" "hk"
    = Err (ErrFor "both families asked by" "hk") /\
  LookupIPv4ByProxy g Background "example.org" "hk" = Err (ErrFor "IPv4 asked by" "hk") /\
  LookupIPv6ByProxy g Background "example.org" "hk" = Err (ErrFor "IPv6 asked by" "hk") /\
  (true = true ->
   LookupIPv6_ g Background "example.org" = Err ErrIPv6Disabled /\
   LookupIP_ g Background "example.org" = Err (ErrFor "IPv4 asked by" "")).
Proof.
  exact (by_proxy_ignores_ipv6_switch
           (mkGlobals (Some asked) true false (fun _ => None) (fun _ => None)
                      (fun _ _ => Err ErrIPNotFound))
           Background "example.org" "hk" asked eq_refl eq_refl).
Defined.

End LookupFacts.

(** ** Properties of the DHCP upstream *)
Module DHCPMore.

Import OS DHCP.
Local Open Scope string_scope.

Lemma invalidate_due d now pick :
  (ifaceInvalidate d <= now)%Z ->
  ifaceInvalidate (fst (invalidate d now pick)) = (now + IfaceTTL)%Z.
Proof.
  intros H. unfold invalidate, Before.
  destruct (Z.ltb_spec now (ifaceInvalidate d)); [lia|].
  destruct pick as [p|e]; [|done]. cbn.
  by destruct (_ && _).
Qed.

(** X8. After a call of [invalidate] that looked at the interface, no
    call within the next twenty seconds looks at it again: such a call
    changes nothing and reports no invalidation and no error, whatever
    the interface would answer and even when the first look failed. *)
Theorem interface_check_throttled d now pick now' pick' :
  (ifaceInvalidate d <= now)%Z -> (now' < now + IfaceTTL)%Z ->
  invalidate (fst (invalidate d now pick)) now' pick'
    = (fst (invalidate d now pick), (false, None)).
Proof.
  intros Hdue Hsoon. pose proof (invalidate_due d now pick Hdue) as Hi.
  unfold invalidate at 1. unfold Before.
  destruct (Z.ltb_spec now' (ifaceInvalidate (fst (invalidate d now pick)))); [done|lia].
Qed.

Lemma resolve_start_err d now pick ch :
  err (fst (resolve_start d now pick ch)) = err d \/
  exists e, pick = Err e /\ err (fst (resolve_start d now pick ch)) = Some e.
Proof.
  unfold resolve_start, invalidate, Before.
  destruct (now <? ifaceInvalidate d)%Z; [by left|].
  destruct pick as [p|e]; [|right; by exists e]. cbn.
  destruct (_ && _); [by left|]. cbn.
  destruct (bool_decide _); by left.
Qed.

Lemma resolve_start_clients d now pick ch :
  clients (fst (resolve_start d now pick ch)) = clients d.
Proof.
  unfold resolve_start, invalidate, Before.
  destruct (now <? ifaceInvalidate d)%Z; [done|].
  destruct pick as [p|e]; [|done]. cbn.
  destruct (_ && _); [done|]. cbn.
  by destruct (bool_decide _).
Qed.

(** X9. An error stored in the client is never cleared by [resolve]
    itself: after any call an error is still stored (the old one, or the
    new one of a failed look at the interface) and is what the caller
    gets; only the end of a DHCP resolution replaces it. *)
Theorem stored_error_persists d now pick ch e :
  err d = Some e ->
  let d' := fst (resolve_start d now pick ch) in
  (err d' = Some e \/ exists e', pick = Err e' /\ err d' = Some e') /\
  (exists e', resolve_poll d' = Some (clients d, Some e')) /\
  (forall dns, err (resolve_finish d' (Ok dns)) = None).
Proof.
  intros He d'. subst d'.
  pose proof (resolve_start_err d now pick ch) as Herr.
  pose proof (resolve_start_clients d now pick ch) as Hcl.
  split; [|split].
  - destruct Herr as [H|H]; [left; congruence|by right].
  - unfold resolve_poll. rewrite Hcl.
    destruct Herr as [H|(e' & _ & H)]; rewrite H, ?He; destruct (clients d); eauto.
  - done.
Qed.

(** X10. Once name servers are known callers never wait: every later
    call returns them at once, also while a new DHCP resolution is in
    flight.  A client without servers and without error waits. *)
Theorem known_servers_are_returned d now pick ch cs :
  clients d = Some cs ->
  let d' := fst (resolve_start d now pick ch) in
  resolve_poll d' = Some (Some cs, err d') /\
  (forall d0, clients d0 = None -> err d0 = None -> resolve_poll d0 = None).
Proof.
  intros Hc d'. subst d'. split.
  - unfold resolve_poll. rewrite resolve_start_clients, Hc.
    by destruct (err _).
  - intros d0 H1 H2. unfold resolve_poll. by rewrite H1, H2.
Qed.

(** A client with a finished resolution. *)
Definition resolved_client : dhcpClient :=
  resolve_finish (fst (resolve_start (newDHCPClient "en0") 1000 (Ok 1%nat) 7))
                 (Ok ["192.168.1.1"]).

(** The same client after a failed look at the interface. *)
Definition troubled_client : dhcpClient :=
  fst (resolve_start resolved_client (1000 + IfaceTTL) (Err (ErrMsg "no such interface")) 8).

Lemma interface_check_throttled_witness :
  invalidate (fst (invalidate resolved_client (1000 + IfaceTTL) (Err ErrNotExist)))
             (1001 + IfaceTTL) (Ok 2%nat)
  = (fst (invalidate resolved_client (1000 + IfaceTTL) (Err ErrNotExist)), (false, None)).
Proof.
  apply (interface_check_throttled resolved_client (1000 + IfaceTTL) (Err ErrNotExist)
           (1001 + IfaceTTL) (Ok 2%nat)); vm_compute; congruence.
Defined.

Lemma stored_error_persists_witness :
  let d' := fst (resolve_start troubled_client (1000 + 2 * IfaceTTL) (Ok 1%nat) 9) in
  (err d' = Some (ErrMsg "no such interface") \/
   exists e', Ok 1%nat = Err e' /\ err d' = Some e') /\
  (exists e', resolve_poll d' = Some (clients troubled_client, Some e')) /\
  (forall dns, err (resolve_finish d' (Ok dns)) = None).
Proof.
  exact (stored_error_persists troubled_client (1000 + 2 * IfaceTTL) (Ok 1%nat) 9
           (ErrMsg "no such interface") eq_refl).
Defined.

Lemma known_servers_are_returned_witness :
  let d' := fst (resolve_start resolved_client (1000 + DHCPTTL) (Ok 1%nat) 9) in
  resolve_poll d' = Some (Some ["192.168.1.1:53"], err d') /\
  (forall d0, clients d0 = None -> err d0 = None -> resolve_poll d0 = None).
Proof.
  exact (known_servers_are_returned resolved_client (1000 + DHCPTTL) (Ok 1%nat) 9
           ["192.168.1.1:53"] eq_refl).
Defined.

(** The error of a failed look at the interface outlives the next good
    look: the hour is not over and the pointer is the same, so nothing is
    started and the error is returned again, beside the known servers. *)
Example interface_error_outlives_recovery :
  let d' := fst (resolve_start troubled_client (1000 + 2 * IfaceTTL) (Ok 1%nat) 9) in
  snd (resolve_start troubled_client (1000 + 2 * IfaceTTL) (Ok 1%nat) 9) = false /\
  resolve_poll d' = Some (Some ["192.168.1.1:53"], Some (ErrMsg "no such interface")).
Proof. vm_compute. done. Qed.

End DHCPMore.

(** ** Properties of the DoH client *)
Module DoHMore.

Import OS DoH DoHExchange DoHFacts.
Local Open Scope string_scope.

Section Client.

Variable env : Env.





(** X12. [Exchange], which has no context, always sets a deadline of the
    client's budget from now, carries no resolver proxy, and goes through
    the client's own proxy when it has one: the request is marked with the
    proxy's name, and the one-shot transport is used exactly when the
    proxy table knows that name. *)
Theorem Exchange_uses_client_settings dc m h now req hasProxy :
  sent (Exchange env dc m h now) = Some (req, hasProxy) ->
  Deadline (ReqContext req) = Some (now + timeout dc)%Z /\
  resolverProxy (ReqContext req) = None /\
  dohProxy (ReqContext req) = (if String.eqb (proxy dc) "" then None else Some (proxy dc)) /\
  hasProxy = (if String.eqb (proxy dc) "" then false else FindProxyByName env (proxy dc)).
Proof.
  unfold Exchange, ExchangeContext.
  destruct (bootstrap env dc) as [[dc'|e]|[]] eqn:Hb; [|done..].
  apply bootstrap_timeout in Hb as [Ht Hp].
  destruct (h !! m) as [orig|]; [|done].
  destruct (newRequest env dc' (with_Id orig 0)) as [req0|e]; [|done].
  cbn [GetProxy Background resolverProxy]. rewrite Hp, Ht.
  destruct (String.eqb (proxy dc) ""); cbn [negb Deadline WithProxyKey Background];
    destruct (doRequest env h _ _) as [[h1 msg] err];
    destruct (Question orig); intros [= <- <-]; done.
Qed.

End Client.

(** An echoing server reached by name, and a proxy table that knows P. *)
Definition echo_env : Env :=
  mkEnv (fun _ => Ok ["1.1.1.1"]) (fun _ => 0%nat)
        (fun a => let '(host, port, _) := Strings.Cut a ":" in (host, port))
        (fun host port => host ++ ":" ++ port)
        (fun _ => ("dns.example", ""))
        (fun _ a => "https://" ++ a ++ "/dns-query")
        (fun _ => true) (fun _ => false)
        (fun m => Ok (Rest m))
        (fun buf => (mkMsg 0 ["example.com."] buf, None))
        (fun p => String.eqb p "P")
        (fun req _ => Ok (Body req)).

Definition echo_heap : heap := {[ 1%nat := mkMsg 7 ["example.com."] [] ]}.

Definition proxied_client : dohClient :=
  newDoHClient echo_env "https://dns.example/dns-query" "P".

Definition echo_request : Request :=
  mkHTTPRequest "POST" "https://1.1.1.1:443/dns-query" []
    [("Content-Type", dotMimeType); ("Accept", dotMimeType)]
    (mkContext (Some (3 + 10 * Second)%Z) None (Some "P")).

Lemma echo_sent :
  sent (Exchange echo_env proxied_client 1 echo_heap 3) = Some (echo_request, true).
Proof. vm_compute. reflexivity. Qed.

Lemma Exchange_uses_client_settings_witness :
  Deadline (ReqContext echo_request) = Some (3 + timeout proxied_client)%Z /\
  resolverProxy (ReqContext echo_request) = None /\
  dohProxy (ReqContext echo_request) =
    (if String.eqb (proxy proxied_client) "" then None else Some (proxy proxied_client)) /\
  true = (if String.eqb (proxy proxied_client) "" then false
          else FindProxyByName echo_env (proxy proxied_client)).
Proof.
  exact (Exchange_uses_client_settings echo_env proxied_client 1%nat echo_heap 3%Z
           echo_request true echo_sent).
Defined.

(** The second exchange of a client leaves url and address alone. *)
Example second_exchange_keeps_client :
  let c1 := client (Exchange echo_env proxied_client 1 echo_heap 3) in
  resolved proxied_client = false /\ resolved c1 = true /\
  addr c1 = "1.1.1.1:443" /\
  client (Exchange echo_env c1 1 echo_heap 9) = c1.
Proof. vm_compute. done. Qed.

End DoHMore.

(** ** Facts about host and port *)
Module NetFacts.

Import Net StringFacts.
Local Open Scope string_scope.

Example split_plain : SplitHostPort "example.com:53" = Ok ("example.com", "53").
Proof. reflexivity. Qed.

Example split_bracket : SplitHostPort "[::1]:53" = Ok ("::1", "53").
Proof. reflexivity. Qed.

Example split_no_port : SplitHostPort "[::1]" = Err missingPort.
Proof. reflexivity. Qed.

Example split_colons : SplitHostPort "::1" = Err tooManyColons.
Proof. reflexivity. Qed.

Example split_bracket_colons : SplitHostPort "[::1]:5:3" = Err tooManyColons.
Proof. reflexivity. Qed.

Example split_bracket_junk : SplitHostPort "[::1]x:53" = Err missingPort.
Proof. reflexivity. Qed.

Example split_empty_port : SplitHostPort "host:" = Ok ("host", "").
Proof. reflexivity. Qed.

Example split_inner_bracket :
  SplitHostPort "ho[st:53" = Err (ErrMsg "unexpected '[' in address").
Proof. reflexivity. Qed.

Lemma has_nil c : has "" c = false.
Proof. reflexivity. Qed.

Lemma has_cons x s c : has (String x s) c = Ascii.eqb x c || has s c.
Proof.
  unfold has. cbn [IndexByte]. destruct (Ascii.eqb x c); [done|].
  by destruct (IndexByte s c).
Qed.

Lemma has_app a b c : has (a ++ b) c = has a c || has b c.
Proof.
  induction a as [|x a IH]; [done|].
  rewrite append_cons, !has_cons, IH. by rewrite orb_assoc.
Qed.

Lemma has_Contains s c : has s c = Strings.Contains s c.
Proof.
  induction s as [|x s IH]; [done|]. rewrite has_cons, IH. done.
Qed.

Lemma length_append a b :
  String.length (a ++ b) = (String.length a + String.length b)%nat.
Proof.
  induction a as [|x a IH]; [done|]. rewrite append_cons. cbn. by rewrite IH.
Qed.

Lemma upto_append a b : upto (String.length a) (a ++ b) = a.
Proof.
  induction a as [|x a IH]; [by destruct b|]. rewrite append_cons. cbn. by rewrite IH.
Qed.

Lemma from_append a b : from (String.length a) (a ++ b) = b.
Proof. induction a as [|x a IH]; [done|]. rewrite append_cons. cbn. by rewrite IH. Qed.

Lemma from_append_sep a c b : from (String.length a + 1) (a ++ String c b) = b.
Proof.
  induction a as [|x a IH]; [done|]. rewrite append_cons. cbn. by rewrite IH.
Qed.

Lemma IndexByte_None s c : IndexByte s c = None <-> has s c = false.
Proof. unfold has. by destruct (IndexByte s c). Qed.

Lemma IndexByte_first a c b :
  has a c = false -> IndexByte (a ++ String c b) c = Some (String.length a).
Proof.
  induction a as [|x a IH].
  - intros _. change ("" ++ String c b) with (String c b). cbn.
    by rewrite Ascii.eqb_refl.
  - rewrite has_cons, append_cons. intros [Hx Ha]%orb_false_iff. cbn.
    by rewrite Hx, IH.
Qed.

Lemma LastIndexByte_None s c : LastIndexByte s c = None <-> has s c = false.
Proof.
  induction s as [|x s IH]; [done|]. rewrite has_cons. cbn.
  destruct (LastIndexByte s c) as [i|].
  - split; [done|]. intros [_ H]%orb_false_iff. apply IH in H. done.
  - destruct IH as [IH _]. rewrite (IH eq_refl), orb_false_r.
    by destruct (Ascii.eqb x c).
Qed.

Lemma LastIndexByte_last a c b :
  has b c = false -> LastIndexByte (a ++ String c b) c = Some (String.length a).
Proof.
  intros Hb. induction a as [|x a IH].
  - change ("" ++ String c b) with (String c b). cbn.
    apply LastIndexByte_None in Hb as ->. by rewrite Ascii.eqb_refl.
  - rewrite append_cons. cbn. by rewrite IH.
Qed.

(** Where a first or last occurrence is, the text splits there. *)
Lemma IndexByte_Some s c i :
  IndexByte s c = Some i ->
  s = upto i s ++ String c (from (i + 1) s) /\ has (upto i s) c = false /\
  String.length (upto i s) = i.
Proof.
  revert i. induction s as [|x s IH]; intros i; [done|]. cbn [IndexByte].
  destruct (Ascii.eqb x c) eqn:Hx.
  - intros [= <-]. apply Ascii.eqb_eq in Hx as ->. done.
  - destruct (IndexByte s c) as [j|]; [|done]. intros [= <-].
    destruct (IH j eq_refl) as (H1 & H2 & H3). cbn [upto from Nat.add].
    rewrite append_cons, has_cons, Hx, H2. cbn [String.length].
    rewrite H3. by rewrite <- H1.
Qed.

Lemma LastIndexByte_Some s c i :
  LastIndexByte s c = Some i ->
  s = upto i s ++ String c (from (i + 1) s) /\ has (from (i + 1) s) c = false /\
  String.length (upto i s) = i.
Proof.
  revert i. induction s as [|x s IH]; intros i; [done|]. cbn [LastIndexByte].
  destruct (LastIndexByte s c) as [j|] eqn:Hl.
  - intros [= <-]. destruct (IH j eq_refl) as (H1 & H2 & H3).
    cbn [upto from Nat.add]. rewrite append_cons. cbn [String.length].
    rewrite H3. by rewrite <- H1.
  - destruct (Ascii.eqb x c) eqn:Hx; [|done]. intros [= <-].
    apply Ascii.eqb_eq in Hx as ->. apply LastIndexByte_None in Hl. done.
Qed.

(** Texts without brackets, and without colon and brackets. *)
Definition nobracket (s : string) : bool := negb (has s "[") && negb (has s "]").
Definition clean (s : string) : bool := negb (has s ":") && nobracket s.

Lemma nobracket_spec s : nobracket s = true <-> has s "[" = false /\ has s "]" = false.
Proof. unfold nobracket. by rewrite andb_true_iff, !negb_true_iff. Qed.

Lemma clean_spec s :
  clean s = true <-> has s ":" = false /\ has s "[" = false /\ has s "]" = false.
Proof. unfold clean. by rewrite andb_true_iff, negb_true_iff, nobracket_spec. Qed.

Lemma starts_with_append h c rest :
  has h "[" = false -> c <> "["%char -> starts_with (h ++ String c rest) "[" = false.
Proof.
  destruct h as [|x h].
  - intros _ Hc. cbn. by apply Ascii.eqb_neq.
  - rewrite has_cons. by intros [Hx _]%orb_false_iff _.
Qed.

(** A host without colon, a colon, and a port. *)
Lemma SplitHostPort_plain h p :
  clean h = true -> clean p = true -> SplitHostPort (h ++ String ":" p) = Ok (h, p).
Proof.
  intros (Hh1 & Hh2 & Hh3)%clean_spec (Hp1 & Hp2 & Hp3)%clean_spec.
  unfold SplitHostPort. rewrite LastIndexByte_last by done.
  rewrite starts_with_append by done.
  rewrite upto_append, Hh1. cbn [from].
  rewrite !has_app, !has_cons, Hh2, Hh3, Hp2, Hp3. cbn.
  by rewrite from_append_sep.
Qed.

(** A host in brackets, a colon, and a port. *)
Lemma SplitHostPort_bracket a p :
  nobracket a = true -> clean p = true ->
  SplitHostPort ("[" ++ a ++ "]:" ++ p) = Ok (a, p).
Proof.
  intros (Ha1 & Ha2)%nobracket_spec (Hp1 & Hp2 & Hp3)%clean_spec.
  unfold SplitHostPort.
  assert ("[" ++ a ++ "]:" ++ p = ("[" ++ a ++ "]") ++ String ":" p) as E1
    by by rewrite !append_assoc.
  assert ("[" ++ a ++ "]:" ++ p = ("[" ++ a) ++ String "]" (String ":" p)) as E2
    by by rewrite !append_assoc.
  rewrite E1 at 1. rewrite LastIndexByte_last by done.
  change (starts_with ("[" ++ a ++ "]:" ++ p) "[") with true. cbv iota.
  rewrite E2 at 1. rewrite IndexByte_first by (rewrite has_app, Ha2; done).
  rewrite !length_append. cbn [String.length].
  repeat match goal with
         | |- context [Nat.eqb ?x ?y] => destruct (Nat.eqb_spec x y); [try lia|try lia]
         end.
  replace (from (1 + String.length a + 1) ("[" ++ a ++ "]:" ++ p)) with (String ":" p).
  2:{ rewrite E2. replace (1 + String.length a + 1)%nat
        with (String.length ("[" ++ a) + 1)%nat by (rewrite length_append; cbn; lia).
      by rewrite from_append_sep. }
  change (from 1 ("[" ++ a ++ "]:" ++ p)) with (a ++ String "]" (String ":" p)).
  rewrite has_app, Ha1, !has_cons, Hp2, Hp3. cbn [Ascii.eqb Bool.eqb orb andb].
  replace (from (1 + (String.length a + 1) + 1) ("[" ++ a ++ "]:" ++ p)) with p.
  2:{ rewrite E1. replace (1 + (String.length a + 1) + 1)%nat
        with (String.length ("[" ++ a ++ "]") + 1)%nat
        by (rewrite !length_append; cbn; lia).
      by rewrite from_append_sep. }
  replace (upto (1 + String.length a) ("[" ++ a ++ "]:" ++ p)) with ("[" ++ a); [done|].
  rewrite E2. change (1 + String.length a)%nat with (String.length ("[" ++ a)).
  by rewrite upto_append.
Qed.

(** Splitting undoes joining. *)
Lemma SplitHostPort_Join h p :
  nobracket h = true -> clean p = true -> SplitHostPort (JoinHostPort h p) = Ok (h, p).
Proof.
  intros Hh Hp. unfold JoinHostPort. destruct (has h ":") eqn:Hc.
  - by apply SplitHostPort_bracket.
  - apply SplitHostPort_plain; [|done]. unfold clean. by rewrite Hc.
Qed.

Lemma has_from n s c : has s c = false -> has (from n s) c = false.
Proof.
  revert s. induction n as [|n IH]; intros s; [by destruct s|].
  destruct s as [|x s]; [done|]. rewrite has_cons. intros [_ H]%orb_false_iff.
  cbn [from]. by apply IH.
Qed.

Lemma has_upto n s c : has s c = false -> has (upto n s) c = false.
Proof.
  revert s. induction n as [|n IH]; intros s; [by destruct s|].
  destruct s as [|x s]; [done|]. rewrite has_cons. intros [Hx H]%orb_false_iff.
  cbn [upto]. rewrite has_cons, Hx. by apply IH.
Qed.

Lemma from_add n m s : from (n + m) s = from m (from n s).
Proof.
  revert s. induction n as [|n IH]; intros s; [by destruct s|].
  destruct s as [|x s]; [by destruct m|]. cbn [from Nat.add]. apply IH.
Qed.

(** What [SplitHostPort] accepts: a host without brackets and a port
    without colon and brackets. *)
Lemma SplitHostPort_Ok s h p :
  SplitHostPort s = Ok (h, p) -> nobracket h = true /\ clean p = true.
Proof.
  unfold SplitHostPort.
  destruct (LastIndexByte s ":") as [i|] eqn:Hi; [|done].
  apply LastIndexByte_Some in Hi as (_ & Hport & _).
  destruct (starts_with s "[") eqn:Hs.
  - destruct (IndexByte s "]") as [e|] eqn:He; [|done].
    apply IndexByte_Some in He as (_ & Hhost & _).
    destruct (e + 1 =? String.length s)%nat; [done|].
    destruct (Nat.eqb_spec (e + 1) i) as [<-|_];
      [|by destruct (starts_with (from (e + 1) s) ":")].
    destruct (has (from 1 s) "[") eqn:H1; [done|].
    destruct (has (from (e + 1) s) "]") eqn:H2; [done|].
    intros [= <- <-]. rewrite nobracket_spec, clean_spec.
    destruct s as [|x s]; [done|]. destruct e as [|e]; [|].
    { cbn in Hs, Hhost. cbn [from upto]. repeat split; try done.
      - rewrite from_add. by apply has_from.
      - rewrite (from_add (0 + 1) 1). by apply has_from. }
    cbn [from upto] in *. rewrite has_cons in Hhost.
    apply orb_false_iff in Hhost as [_ Hhost]. repeat split; try done.
    + by apply has_upto.
    + replace (S e + 1 + 1)%nat with (1 + (S e + 1))%nat by lia.
      rewrite from_add. cbn [from]. by apply has_from.
    + rewrite (from_add (S e + 1) 1). by apply has_from.
  - destruct (has (upto i s) ":") eqn:Hc; [done|]. cbn [from].
    destruct (has s "[") eqn:H1; [done|].
    destruct (has s "]") eqn:H2; [done|].
    intros [= <- <-]. rewrite nobracket_spec, clean_spec.
    repeat split; try done; by (apply has_upto || apply has_from).
Qed.

End NetFacts.

(** ** Properties of the smaller parsers of the configuration *)
Module SettingsFacts.

Import Net NetFacts Settings StringFacts.
Local Open Scope string_scope.
Local Open Scope list_scope.

Lemma Cut_before s sep :
  let '(before, after, found) := Strings.Cut s sep in
  Strings.Contains before sep = false /\
  found = Strings.Contains s sep /\
  if found then s = (before ++ String sep after)%string
  else before = s /\ after = "".
Proof.
  induction s as [|c s IH]; cbn; [done|].
  destruct (Ascii.eqb c sep) eqn:Hc; cbn.
  - apply Ascii.eqb_eq in Hc as ->. done.
  - destruct (Strings.Cut s sep) as [[b a] [|]]; destruct IH as (Hb & Hf & Hs); cbn.
    + rewrite Hc, Hb, <- Hf. repeat split. by rewrite Hs at 1.
    + by rewrite Hc, <- Hf.
Qed.

Definition record_of (u : AuthUser) : string := (User u ++ ":" ++ Pass u)%string.

Definition add_user (users : list AuthUser) (line : string) : list AuthUser :=
  let '(user, pass, found) := Strings.Cut line ":" in
  if found then users ++ [mkAuthUser user pass] else users.

Lemma fold_add_user rs acc :
  fold_left add_user rs acc = acc ++ fold_left add_user rs [].
Proof.
  revert acc. induction rs as [|r rs IH]; intros acc; cbn [fold_left].
  - by rewrite app_nil_r.
  - rewrite IH, (IH (add_user [] r)). unfold add_user.
    destruct (Strings.Cut r ":") as [[u p] [|]]; [|done].
    by rewrite app_assoc.
Qed.

Lemma add_user_first r :
  map record_of (add_user [] r) = (if Strings.Contains r ":" then [r] else []) /\
  Forall (fun u => Strings.Contains (User u) ":" = false) (add_user [] r).
Proof.
  pose proof (Cut_before r ":") as Hcut. unfold add_user.
  destruct (Strings.Cut r ":") as [[u p] found]. destruct Hcut as (Hu & -> & Hs).
  destruct (Strings.Contains r ":"); [|done].
  cbn [app map]. unfold record_of. cbn [User Pass]. split; [by rewrite Hs|].
  by repeat constructor.
Qed.

(** X13. [ParseAuthentication] keeps exactly the records that contain a
    colon, in their order: writing each user back as user, colon, password
    gives those records; and no user name contains a colon (the password
    is everything after the first one). *)
Theorem ParseAuthentication_records (rawRecords : list string) :
  map record_of (ParseAuthentication rawRecords)
    = List.filter (fun line => Strings.Contains line ":") rawRecords /\
  Forall (fun u => Strings.Contains (User u) ":" = false)
         (ParseAuthentication rawRecords).
Proof.
  unfold ParseAuthentication. fold add_user.
  induction rawRecords as [|r rs [IH1 IH2]]; [by split|].
  cbn [fold_left List.filter]. rewrite fold_add_user.
  destruct (add_user_first r) as [H1 H2].
  rewrite map_app, H1, IH1. split.
  - by destruct (Strings.Contains r ":").
  - by apply Forall_app.
Qed.

Example ParseAuthentication_demo :
  ParseAuthentication ["alice:s3:cret"; "nobody"; ":empty"; "bob:"]
  = [mkAuthUser "alice" "s3:cret"; mkAuthUser "" "empty"; mkAuthUser "bob" ""].
Proof. reflexivity. Qed.

Lemma JoinHostPort_colon h p : Strings.Contains (JoinHostPort h p) ":" = true.
Proof.
  rewrite <- has_Contains. unfold JoinHostPort. destruct (has h ":") eqn:Hc.
  - rewrite !has_app, Hc. by rewrite orb_true_r.
  - change (h ++ ":" ++ p)%string with (h ++ String ":" p)%string.
    rewrite has_app, has_cons. by rewrite orb_true_r.
Qed.

Lemma hostWithDefaultPort_clean (host defPort : string) :
  clean host = true ->
  hostWithDefaultPort host defPort = Ok (host ++ ":" ++ defPort)%string.
Proof.
  intros Hc. pose proof Hc as (Hcolon & _)%clean_spec.
  unfold hostWithDefaultPort. rewrite <- has_Contains, Hcolon. cbn [negb].
  change (host ++ ":")%string with (host ++ String ":" "")%string.
  rewrite SplitHostPort_plain by done. cbn [String.eqb].
  unfold JoinHostPort. by rewrite Hcolon.
Qed.

(** X14. The default port is added to a host without colon and brackets;
    a host that is an IPv6 literal in brackets without a port is refused,
    because the colons inside keep the default from being added. *)
Theorem hostWithDefaultPort_default (host a defPort : string) :
  (clean host = true ->
   hostWithDefaultPort host defPort = Ok (host ++ ":" ++ defPort)%string) /\
  (has a ":" = true -> has a "]" = false ->
   hostWithDefaultPort ("[" ++ a ++ "]")%string defPort = Err missingPort).
Proof.
  split; [apply hostWithDefaultPort_clean|].
  - intros Hcolon Hb. unfold hostWithDefaultPort.
    rewrite <- has_Contains, !has_app, Hcolon, orb_true_r. cbn [orb negb].
    unfold SplitHostPort.
    destruct (LastIndexByte ("[" ++ a ++ "]") ":") as [i|] eqn:Hi.
    2:{ apply LastIndexByte_None in Hi. rewrite !has_app, Hcolon in Hi.
        by rewrite orb_true_r in Hi. }
    change (starts_with ("[" ++ a ++ "]") "[") with true. cbv iota.
    assert ("[" ++ a ++ "]" = ("[" ++ a) ++ String "]" "")%string as E
      by by rewrite !append_assoc.
    rewrite E at 1. rewrite IndexByte_first by (rewrite has_app, Hb; done).
    rewrite !length_append. cbn [String.length].
    by destruct (Nat.eqb_spec (1 + String.length a + 1) (1 + (String.length a + 1)));
      [|lia].
Qed.

(** X15. What [hostWithDefaultPort] returns carries its port: given to
    [hostWithDefaultPort] again, with any default, it comes back
    unchanged. *)
Theorem hostWithDefaultPort_fixed (host defPort r defPort' : string) :
  hostWithDefaultPort host defPort = Ok r ->
  clean defPort = true -> defPort <> "" ->
  hostWithDefaultPort r defPort' = Ok r.
Proof.
  unfold hostWithDefaultPort at 1.
  destruct (SplitHostPort _) as [[h p]|e] eqn:Hsplit; [|done].
  apply SplitHostPort_Ok in Hsplit as [Hh Hp].
  intros [= <-] Hd Hne.
  set (port := if String.eqb p "" then defPort else p).
  assert (clean port = true /\ port <> "") as [Hport Hport'].
  { subst port. by destruct (String.eqb_spec p ""). }
  unfold hostWithDefaultPort. rewrite JoinHostPort_colon. cbn [negb].
  rewrite SplitHostPort_Join by done.
  by destruct (String.eqb_spec port "").
Qed.

Lemma hostWithDefaultPort_fixed_witness :
  hostWithDefaultPort "[2001:db8::1]:5353" "853" = Ok "[2001:db8::1]:5353".
Proof.
  apply (hostWithDefaultPort_fixed "[2001:db8::1]:5353" "53" "[2001:db8::1]:5353" "853");
    [reflexivity|reflexivity|discriminate].
Defined.

Example hostWithDefaultPort_demo :
  hostWithDefaultPort "8.8.8.8" "53" = Ok "8.8.8.8:53" /\
  hostWithDefaultPort "dns.example:5353" "53" = Ok "dns.example:5353" /\
  hostWithDefaultPort "[2001:db8::1]" "53" = Err missingPort /\
  hostWithDefaultPort "2001:db8::1" "53" = Err tooManyColons /\
  hostWithDefaultPort "[dns.example]" "53" = Ok "dns.example:53".
Proof. repeat split. Qed.

Section NameServers.

Variable Parse : string -> result URL.
Variable String_ : URL -> string.

Abbreviation parse_server := (parse_server Parse String_).
Abbreviation parseNameServer := (parseNameServer Parse String_).

(** The six kinds of name server. *)
Definition net_types : list string := [""; "tcp"; "tcp-tls"; "https"; "http3"; "dhcp"].

Lemma parse_server_Ok idx server ns :
  parse_server idx server = Ok ns ->
  parse_server 0 server = Ok ns /\ Net_ ns ∈ net_types.
Proof.
  unfold Settings.parse_server.
  destruct (Parse _) as [u|e]; [|done].
  unfold net_types.
  repeat match goal with
         | |- context [if ?b then _ else _] => destruct b
         end;
    try done;
    repeat match goal with
           | |- context [hostWithDefaultPort ?h ?d] => destruct (hostWithDefaultPort h d)
           end;
    try done; intros [= <-]; (split; [done|]); cbn [Net_]; set_solver.
Qed.

Lemma parseNameServer_from_Ok idx servers acc nss :
  parseNameServer_from Parse String_ idx servers acc = Ok nss ->
  exists new, nss = acc ++ new /\
    Forall2 (fun server ns => parse_server 0 server = Ok ns /\ Net_ ns ∈ net_types)
            servers new.
Proof.
  revert idx acc. induction servers as [|server rest IH]; intros idx acc; cbn.
  - intros [= <-]. exists []. by rewrite app_nil_r.
  - destruct (parse_server idx server) as [ns|e] eqn:Hs; [|done].
    intros (new & -> & Hall)%IH. exists (ns :: new).
    split; [by rewrite <- app_assoc|]. constructor; [|done].
    by eapply parse_server_Ok.
Qed.

(** X16. When [parseNameServer] succeeds it returns one name server for
    each entry, in the order of the entries; each is what the entry parses
    to on its own, and its kind is one of UDP (empty), tcp, tcp-tls,
    https, http3 and dhcp. *)
Theorem parseNameServer_servers (servers : list string) (nss : list NameServer) :
  parseNameServer servers = Ok nss ->
  Forall2 (fun server ns => parse_server 0 server = Ok ns /\ Net_ ns ∈ net_types)
          servers nss.
Proof.
  intros (new & -> & H)%parseNameServer_from_Ok. exact H.
Qed.

Lemma ContainsStr_prefix p s : ContainsStr (p ++ s) p = true.
Proof.
  assert (Strings.HasPrefix (p ++ s) p = true) as H
    by (unfold Strings.HasPrefix; by rewrite CutPrefix_app).
  destruct (p ++ s)%string; cbn [ContainsStr]; by rewrite H.
Qed.

Lemma ContainsStr_no_colon s : has s ":" = false -> ContainsStr s "://" = false.
Proof.
  induction s as [|x s IH]; [done|]. rewrite has_cons.
  intros [Hx Hs]%orb_false_iff. cbn [ContainsStr]. rewrite (IH Hs), orb_false_r.
  unfold Strings.HasPrefix. cbn [Strings.CutPrefix].
  rewrite Ascii.eqb_sym in Hx. by rewrite Hx.
Qed.

(** X17. An entry without a scheme is read as UDP: it parses as the same
    entry with udp:// in front.  In particular a host without colon and
    brackets, which the URL parser hands back as the host of that URL,
    becomes a UDP server on port 53. *)
Theorem scheme_defaults_to_udp (idx : nat) (server : string) :
  (ContainsStr server "://" = false ->
   parse_server idx server = parse_server idx ("udp://" ++ server)%string) /\
  (forall u, clean server = true ->
     Parse ("udp://" ++ server)%string = Ok u -> Scheme u = "udp" -> Host u = server ->
     parse_server idx server
       = Ok (mkNameServer "" (server ++ ":53")%string (Fragment u))).
Proof.
  split.
  - intros Hc. unfold Settings.parse_server. rewrite Hc. cbn [negb].
    assert (ContainsStr ("udp://" ++ server) "://" = true) as ->.
    { change ("udp://" ++ server)%string
        with (String "u" (String "d" (String "p" ("://" ++ server))))%string.
      cbn [ContainsStr]. rewrite ContainsStr_prefix. by rewrite !orb_true_r. }
    done.
  - intros u Hclean Hu Hs Hh. unfold Settings.parse_server.
    pose proof Hclean as (Hcolon & _)%clean_spec.
    rewrite ContainsStr_no_colon by done. cbn [negb]. rewrite Hu, Hs, Hh.
    cbn [String.eqb Ascii.eqb Bool.eqb].
    by rewrite (hostWithDefaultPort_clean server "53" Hclean).
Qed.

End NameServers.

(** A little URL parser for the demonstrations: scheme, host and
    fragment of [scheme://host#fragment]. *)
Definition demo_Parse (s : string) : result URL :=
  let '(scheme, rest, found) := Strings.Cut s ":" in
  if found then
    let '(host, fragment, _) := Strings.Cut (Net.from 2 rest) "#" in
    Ok (mkURL scheme host "" "" fragment)
  else Err (ErrMsg "missing protocol scheme").

Definition demo_String (u : URL) : string :=
  (Scheme u ++ "://" ++ Host u ++ Path u)%string.

Lemma demo_servers :
  parseNameServer demo_Parse demo_String
    ["8.8.8.8"; "tls://dns.example#Proxy"; "dhcp://en0"; "https://doh.example"]
  = Ok [ mkNameServer "" "8.8.8.8:53" "";
         mkNameServer "tcp-tls" "dns.example:853" "Proxy";
         mkNameServer "dhcp" "en0" "";
         mkNameServer "https" "https://doh.example" "" ].
Proof. reflexivity. Qed.

Lemma parseNameServer_servers_witness :
  Forall2 (fun server ns =>
             Settings.parse_server demo_Parse demo_String 0 server = Ok ns /\
             Net_ ns ∈ net_types)
    ["8.8.8.8"; "tls://dns.example#Proxy"; "dhcp://en0"; "https://doh.example"]
    [ mkNameServer "" "8.8.8.8:53" "";
      mkNameServer "tcp-tls" "dns.example:853" "Proxy";
      mkNameServer "dhcp" "en0" "";
      mkNameServer "https" "https://doh.example" "" ].
Proof. exact (parseNameServer_servers demo_Parse demo_String _ _ demo_servers). Defined.

Example unsupported_scheme :
  parseNameServer demo_Parse demo_String ["8.8.8.8"; "quic://dns.example"]
  = Err (ErrFor "DNS NameServer unsupport scheme" "quic").
Proof. reflexivity. Qed.

(** *** Tunnels *)

Lemma Split_not_nil s sep : Strings.Split s sep <> [].
Proof.
  destruct s as [|c s]; [done|]. cbn.
  destruct (Ascii.eqb c sep); [done|]. by destruct (Strings.Split s sep).
Qed.

(** Joining the pieces with the separator gives the text back. *)
Lemma Join_Split s sep : Strings.Join (Strings.Split s sep) (String sep "") = s.
Proof.
  induction s as [|c s IH]; [done|]. cbn [Strings.Split].
  pose proof (Split_not_nil s sep) as Hne.
  destruct (Ascii.eqb_spec c sep) as [->|Hc].
  - destruct (Strings.Split s sep) as [|p rest]; [done|].
    change (Strings.Join ("" :: p :: rest) (String sep ""))
      with (String sep (Strings.Join (p :: rest) (String sep ""))).
    by rewrite IH.
  - destruct (Strings.Split s sep) as [|p rest]; [done|].
    assert (Strings.Join (String c p :: rest) (String sep "")
            = String c (Strings.Join (p :: rest) (String sep ""))) as ->
      by by destruct rest.
    by rewrite IH.
Qed.

Lemma valid_networks_None network :
  valid_networks network = None -> Forall (fun n => n = "tcp" \/ n = "udp") network.
Proof.
  induction network as [|n rest IH]; [by constructor|]. cbn.
  destruct (String.eqb_spec n "tcp") as [->|]; cbn.
  - intros H. constructor; [by left|by apply IH].
  - destruct (String.eqb_spec n "udp") as [->|]; [|done].
    intros H. constructor; [by right|by apply IH].
Qed.

Lemma valid_addresses_None addrs :
  valid_addresses addrs = None ->
  Forall (fun addr => exists h p, SplitHostPort addr = Ok (h, p)) addrs.
Proof.
  induction addrs as [|a rest IH]; [by constructor|]. cbn.
  destruct (SplitHostPort a) as [[h p]|e] eqn:E; [|done].
  intros H. constructor; [by exists h, p|by apply IH].
Qed.

(** X18. What [Tunnel.UnmarshalYAML] accepts.  A tunnel written as a
    text has exactly four fields between commas; trimmed, they are the
    networks joined by slashes, the address, the target and the proxy.
    There is at least one network, each is tcp or udp, and address and
    target are accepted by [net.SplitHostPort].  A tunnel written as a
    mapping is taken as the decoder hands it over, with no check at
    all. *)
Theorem UnmarshalTunnel_accepts (as_string : result string) (as_struct : result Tunnel)
    (t : Tunnel) :
  UnmarshalTunnel as_string as_struct = Ok t ->
  match as_string with
  | Err _ => as_struct = Ok t
  | Ok tp =>
      map Strings.TrimSpace (Strings.Split tp ",")
        = [Strings.Join (Network t) "/"; Address t; Target t; TunnelProxy t] /\
      Network t <> [] /\
      Forall (fun n => n = "tcp" \/ n = "udp") (Network t) /\
      (exists h p, SplitHostPort (Address t) = Ok (h, p)) /\
      (exists h p, SplitHostPort (Target t) = Ok (h, p))
  end.
Proof.
  unfold UnmarshalTunnel. destruct as_string as [tp|e].
  - destruct (map Strings.TrimSpace (Strings.Split tp ",")) as [|p0 [|p1 [|p2 [|p3 [|p4 ps]]]]];
      try done.
    cbn [length Nat.eqb negb nth].
    destruct (valid_networks _) as [e|] eqn:Hn; [done|].
    destruct (valid_addresses _) as [e|] eqn:Ha; [done|].
    intros [= <-]. cbn [Network Address Target TunnelProxy].
    apply valid_networks_None in Hn. apply valid_addresses_None in Ha.
    apply Forall_cons in Ha as [Ha1 Ha]. apply Forall_cons in Ha as [Ha2 _].
    split; [by rewrite (Join_Split p0 "/")|]. split; [apply Split_not_nil|]. done.
  - destruct as_struct; [by intros [= <-]|done].
Qed.

Lemma UnmarshalTunnel_accepts_witness :
  map Strings.TrimSpace (Strings.Split "tcp/udp, 127.0.0.1:6553, [2001:db8::1]:53 ,proxy" ",")
    = [Strings.Join ["tcp"; "udp"] "/"; "127.0.0.1:6553"; "[2001:db8::1]:53"; "proxy"] /\
  ["tcp"; "udp"] <> [] /\
  Forall (fun n => n = "tcp" \/ n = "udp") ["tcp"; "udp"] /\
  (exists h p, SplitHostPort "127.0.0.1:6553" = Ok (h, p)) /\
  (exists h p, SplitHostPort "[2001:db8::1]:53" = Ok (h, p)).
Proof.
  exact (UnmarshalTunnel_accepts
           (Ok "tcp/udp, 127.0.0.1:6553, [2001:db8::1]:53 ,proxy")
           (Err (ErrMsg "cannot unmarshal a text into a tunnel"))
           (mkTunnel ["tcp"; "udp"] "127.0.0.1:6553" "[2001:db8::1]:53" "proxy")
           eq_refl).
Defined.

(** The mapping form is not checked: a network that the text form
    refuses, and an address without a port, pass. *)
Example tunnel_mapping_unchecked :
  UnmarshalTunnel (Ok "icmp,localhost,example.org:53,proxy")
                  (Err (ErrMsg "cannot unmarshal a text into a tunnel"))
    = Err (ErrFor "invalid tunnel network" "icmp") /\
  UnmarshalTunnel (Err (ErrMsg "cannot unmarshal a mapping into a text"))
                  (Ok (mkTunnel ["icmp"] "localhost" "example.org:53" "proxy"))
    = Ok (mkTunnel ["icmp"] "localhost" "example.org:53" "proxy").
Proof. split; reflexivity. Qed.

(** *** The verification of the tunnels *)

Lemma find_in_provider_spec names want ok :
  find_in_provider names want ok =
    if bool_decide (want ∈ names) then (true, true)
    else (match names with [] => ok | _ => false end, false).
Proof.
  revert ok. induction names as [|name rest IH]; intros ok; cbn [find_in_provider].
  - by rewrite bool_decide_eq_false_2 by apply not_elem_of_nil.
  - destruct (String.eqb_spec name want) as [->|Hne].
    + rewrite bool_decide_eq_true_2; [done|by left].
    + rewrite IH. destruct (bool_decide_reflect (want ∈ rest)) as [Hin|Hin].
      * rewrite bool_decide_eq_true_2; [done|by right].
      * rewrite bool_decide_eq_false_2; [by destruct rest|].
        intros [?|?]%elem_of_cons; [congruence|done].
Qed.

(** A provider that counts for a tunnel: not a compatible one, and with a
    proxy of that name. *)
Definition provides (want : string) (pd : ProxyProvider) : Prop :=
  VehicleType pd <> Provider.Compatible /\ want ∈ Proxies pd.

Lemma find_in_providers_spec pds want :
  find_in_providers pds want false = true <-> Exists (provides want) pds.
Proof.
  induction pds as [|pd rest IH]; cbn [find_in_providers].
  - split; [done|by intros ?%Exists_nil].
  - rewrite Exists_cons. destruct (decide (VehicleType pd = Provider.Compatible)) as [Hc|Hc].
    + rewrite IH. split; [by right|]. by intros [[H _]|H].
    + rewrite find_in_provider_spec.
      destruct (bool_decide_reflect (want ∈ Proxies pd)) as [Hin|Hin].
      * split; [intros _; by left|done].
      * assert (match Proxies pd with [] => false | _ => false end = false) as ->
          by by destruct (Proxies pd).
        rewrite IH. split; [by right|]. by intros [[_ H]|H].
Qed.

(** X19. [ParseRawConfig] accepts the tunnels exactly when the proxy of
    each is a proxy of the configuration or a proxy of a provider that is
    not a compatible one; the order of the providers plays no part.
    Otherwise the error names the proxy of the first tunnel that has
    none. *)
Theorem verify_tunnels_found (proxies : gset string) (pds : list ProxyProvider)
    (tunnels : list Tunnel) :
  let known t := TunnelProxy t ∈ proxies \/ Exists (provides (TunnelProxy t)) pds in
  (verify_tunnels proxies pds tunnels = None <-> Forall known tunnels) /\
  (forall e, verify_tunnels proxies pds tunnels = Some e ->
     exists before t after,
       tunnels = before ++ t :: after /\ Forall known before /\ ~ known t /\
       e = ErrFor "tunnel proxy not found" (TunnelProxy t)).
Proof.
  intros known. induction tunnels as [|t rest [IH1 IH2]]; cbn [verify_tunnels].
  - split; [by split|done].
  - assert ((if bool_decide (TunnelProxy t ∈ proxies) then true
             else find_in_providers pds (TunnelProxy t) false) = true <-> known t) as Hk.
    { unfold known. case_bool_decide as Hp; [split; auto|].
      rewrite find_in_providers_spec. split; [by right|]. by intros [?|?]. }
    destruct (bool_decide (TunnelProxy t ∈ proxies)) eqn:Hp.
    + apply proj1 in Hk. specialize (Hk eq_refl). split.
      * rewrite IH1, Forall_cons. split; [done|by intros [_ ?]].
      * intros e (before & t' & after & -> & Hb & Ht & ->)%IH2.
        exists (t :: before), t', after. by rewrite Forall_cons.
    + destruct (find_in_providers pds (TunnelProxy t) false) eqn:Hf.
      * apply proj1 in Hk. specialize (Hk eq_refl). split.
        -- rewrite IH1, Forall_cons. split; [done|by intros [_ ?]].
        -- intros e (before & t' & after & -> & Hb & Ht & ->)%IH2.
           exists (t :: before), t', after. by rewrite Forall_cons.
      * assert (~ known t) as Hn by (intros H; apply Hk in H; done).
        split.
        -- split; [done|]. by intros [? _]%Forall_cons.
        -- intros e [= <-]. exists [], t, rest. by rewrite Forall_nil.
Qed.

(** A proxy that only a compatible provider has does not count. *)
Example tunnel_proxy_of_compatible_provider :
  let inline := mkProxyProvider Provider.Compatible ["local"] in
  let remote := mkProxyProvider Provider.HTTP ["hk"; "jp"] in
  verify_tunnels {[ "DIRECT" ]} [inline; remote]
                 [mkTunnel ["tcp"] "127.0.0.1:53" "8.8.8.8:53" "jp";
                  mkTunnel ["udp"] "127.0.0.1:54" "8.8.4.4:53" "local"]
  = Some (ErrFor "tunnel proxy not found" "local").
Proof. reflexivity. Qed.

(** *** The name servers of the policy *)

Section Policy.

Variable Parse : string -> result URL.
Variable String_ : URL -> string.
Variable ValidAndSplitDomain : string -> bool.

Abbreviation policy_from := (policy_from Parse String_ ValidAndSplitDomain).
Abbreviation parseNameServerPolicy :=
  (parseNameServerPolicy Parse String_ ValidAndSplitDomain).

Lemma parseNameServer_one server nss :
  Settings.parseNameServer Parse String_ [server] = Ok nss ->
  exists ns, nss = [ns] /\ Settings.parse_server Parse String_ 0 server = Ok ns.
Proof.
  unfold Settings.parseNameServer. cbn.
  destruct (Settings.parse_server Parse String_ 0 server) as [ns|e]; [|done].
  intros [= <-]. by exists ns.
Qed.

(** The entry of a domain after the loop. *)
Definition entry_of (domain server : string) (policy : gmap string NameServer) : Prop :=
  ValidAndSplitDomain domain = true /\
  exists ns, Settings.parse_server Parse String_ 0 server = Ok ns /\
             policy !! domain = Some ns.

Lemma policy_from_Ok entries acc policy :
  NoDup entries.*1 -> policy_from entries acc = Ok policy ->
  (forall domain server, (domain, server) ∈ entries -> entry_of domain server policy) /\
  (forall domain, domain ∉ entries.*1 -> policy !! domain = acc !! domain).
Proof.
  revert acc. induction entries as [|[d s] rest IH]; intros acc Hnd; cbn [Settings.policy_from].
  - intros [= <-]. split; [by intros ? ? ?%elem_of_nil|done].
  - cbn in Hnd. apply NoDup_cons in Hnd as [Hd Hnd].
    destruct (Settings.parseNameServer Parse String_ [s]) as [nss|e] eqn:Hs; [|done].
    apply parseNameServer_one in Hs as (ns & -> & Hns).
    destruct (ValidAndSplitDomain d) eqn:Hv; [|done]. cbn [negb].
    intros H. apply IH in H as [H1 H2]; [|done]. split.
    + intros domain server [[= -> ->]|Hin]%elem_of_cons; [|by apply H1].
      split; [done|]. exists ns. split; [done|].
      by rewrite H2, lookup_insert_eq.
    + intros domain Hn. cbn in Hn. apply not_elem_of_cons in Hn as [Hne Hn].
      by rewrite H2, lookup_insert_ne.
Qed.

(** X20. When [parseNameServerPolicy] succeeds, the policy has an entry
    for exactly the domains of the configuration; each domain is a valid
    one, and its entry is the name server its text parses to.  The index
    into the parsed list never fails. *)
Theorem parseNameServerPolicy_entries (nsPolicy : gmap string string) :
  parseNameServerPolicy nsPolicy <> Err (ErrMsg "index out of range [0] with length 0") /\
  forall policy, parseNameServerPolicy nsPolicy = Ok policy ->
    dom policy = dom nsPolicy /\
    forall domain server, nsPolicy !! domain = Some server ->
      entry_of domain server policy.
Proof.
  unfold Settings.parseNameServerPolicy. split.
  - generalize (∅ : gmap string NameServer).
    induction (map_to_list nsPolicy) as [|[d s] rest IH]; intros acc;
      cbn [Settings.policy_from]; [done|].
    destruct (Settings.parseNameServer Parse String_ [s]) as [nss|e] eqn:Hs.
    + apply parseNameServer_one in Hs as (ns & -> & Hns).
      destruct (ValidAndSplitDomain d); cbn [negb]; [apply IH|done].
    + unfold Settings.parseNameServer in Hs. cbn in Hs.
      destruct (Settings.parse_server Parse String_ 0 s) as [ns|e'] eqn:Hp; [done|].
      injection Hs as <-. revert Hp. unfold Settings.parse_server.
      destruct (Parse _); [|by intros [= <-]].
      repeat match goal with
             | |- context [if ?b then _ else _] => destruct b
             end;
        repeat match goal with
               | |- context [hostWithDefaultPort ?h ?p] => destruct (hostWithDefaultPort h p)
               end; congruence.
  - intros policy H.
    apply policy_from_Ok in H as [H1 H2]; [|apply NoDup_fst_map_to_list].
    split.
    + apply set_eq. intros d. rewrite !elem_of_dom.
      destruct (nsPolicy !! d) as [s|] eqn:Hd.
      * apply elem_of_map_to_list in Hd. apply H1 in Hd as (_ & ns & _ & ->).
        split; by eexists.
      * rewrite H2, lookup_empty; [by split; intros [? ?]|].
        intros ([d' s] & -> & Hin%elem_of_map_to_list)%list_elem_of_fmap. cbn in Hd. congruence.
    + intros domain server Hd. apply H1. by apply elem_of_map_to_list.
Qed.

End Policy.

Definition demo_policy_text : gmap string string :=
  {[ "corp.example" := "tcp://10.0.0.1"; "+.lan" := "192.168.1.1" ]}.

Definition demo_policy : gmap string NameServer :=
  {[ "corp.example" := mkNameServer "tcp" "10.0.0.1:53" "";
     "+.lan" := mkNameServer "" "192.168.1.1:53" "" ]}.

Lemma demo_policy_parses :
  parseNameServerPolicy demo_Parse demo_String (fun _ => true) demo_policy_text
  = Ok demo_policy.
Proof. vm_compute. reflexivity. Qed.

Lemma parseNameServerPolicy_entries_witness :
  dom demo_policy = dom demo_policy_text /\
  forall domain server,
    demo_policy_text !! domain = Some server ->
    entry_of demo_Parse demo_String (fun _ => true) domain server demo_policy.
Proof.
  exact (proj2 (parseNameServerPolicy_entries demo_Parse demo_String (fun _ => true)
                  demo_policy_text)
               demo_policy demo_policy_parses).
Defined.

End SettingsFacts.

(** ** The raw rules as the decoder hands them over *)
Module DecodingFacts.

Import Rules Decoding RulesFacts.
Local Open Scope string_scope.
Local Open Scope list_scope.

Section Parse.

Variable env : Env.
Variable proxies : gset string.


End Parse.


End DecodingFacts.
